(** * Velma: the Detective reasoning core of a Cluedo assistant

    A shallow embedding of [velma/game.py], [velma/core.py] and
    [velma/parcore.py], and the properties of the belief-maintenance engine
    proved (or refuted) over it.

    Conventions of the embedding.
    - Card identifiers, player indices and list positions are [nat]; hypothesis
      counts and the indices stored in a murder envelope are [Z] (the source
      starts an envelope as [[-1,-1,-1]]).
    - A Python [set] of cards is a [gset nat]; iterating over a set goes
      through [elements].
    - A raised exception is the [Raise] outcome of the state-and-exception
      monad [M]; the state reached when the exception was raised is kept.
    - [random] is a tape of naturals consumed from the left.
    - numpy [float64] values that go through [np.log] are idealised as
      extended reals ([npfloat]): exact arithmetic with the IEEE special
      values, no rounding. The dice table of [game.py], which needs only
      IEEE arithmetic, uses the primitive binary64 floats. *)

From Stdlib Require Import ZArith List Bool Reals Floats Lia Lra.
From stdpp Require Import base gmap sets list.
Import ListNotations.

(* ################################################################# *)
(** * Exceptions and the state-and-exception monad *)

Inductive exn : Type :=
  | NameError | KeyError | IndexError | AttributeError
  | AssertionError | TypeError | ValueError | StopIteration
  | OverflowError.

Inductive result (A : Type) : Type :=
  | Ok (a : A)
  | Raise (e : exn)
  | OutOfFuel.
Arguments Ok {A} a.
Arguments Raise {A} e.
Arguments OutOfFuel {A}.

Definition M (S A : Type) : Type := S -> result A * S.

Definition ret {S A} (a : A) : M S A := fun s => (Ok a, s).
Definition raise {S A} (e : exn) : M S A := fun s => (Raise e, s).
Definition bind {S A B} (m : M S A) (k : A -> M S B) : M S B :=
  fun s => match m s with
           | (Ok a, s') => k a s'
           | (Raise e, s') => (Raise e, s')
           | (OutOfFuel, s') => (OutOfFuel, s')
           end.
Definition gets {S A} (f : S -> A) : M S A := fun s => (Ok (f s), s).
Definition modify {S} (f : S -> S) : M S unit := fun s => (Ok tt, f s).
(** Lift a partial lookup: [None] raises [e]. *)
Definition orraise {S A} (e : exn) (o : option A) : M S A :=
  match o with Some a => ret a | None => raise e end.

Declare Scope monad_scope.
Delimit Scope monad_scope with monad.
Notation "x <- m ;; k" := (bind m (fun x => k))
  (at level 100, m at next level, right associativity) : monad_scope.
Notation "m ;;; k" := (bind m (fun _ => k))
  (at level 100, right associativity) : monad_scope.

(** [for x in xs: body x], stopping at the first exception. *)
Fixpoint forM_ {S A} (xs : list A) (body : A -> M S unit) : M S unit :=
  match xs with
  | [] => ret tt
  | x :: xs' => bind (body x) (fun _ => forM_ xs' body)
  end.

(* ################################################################# *)
(** * velma/game.py *)

Module game.

Definition MAXPLAYERS : nat := 6.
Definition MINPLAYERS : nat := 2.

Definition NCHARS : nat := 6.
Definition NROOMS : nat := 9.
Definition NWEAPS : nat := 6.
Definition NCARDS : nat := NCHARS + NROOMS + NWEAPS.
Definition CHARS : list nat := seq 0 NCHARS.
Definition ROOMS : list nat := seq NCHARS NROOMS.
Definition WEAPS : list nat := seq (NROOMS + NCHARS) NWEAPS.
Definition NULLCARD : nat := NCARDS.

Definition ALLOWEDCHARS : gset nat := list_to_set CHARS.
Definition ALLOWEDROOMS : gset nat := list_to_set ROOMS.
Definition ALLOWEDWEAPS : gset nat := list_to_set WEAPS.
Definition ALLOWEDCARDS : gset nat :=
  ALLOWEDCHARS ∪ ALLOWEDROOMS ∪ ALLOWEDWEAPS.

(** [CHARINDEX[CHARS[ix]] = ix for ix in range(NCHARS)], and likewise for
    rooms and weapons. *)
Definition CHARINDEX : gmap nat Z :=
  list_to_map (zip CHARS (Z.of_nat <$> seq 0 NCHARS)).
Definition ROOMINDEX : gmap nat Z :=
  list_to_map (zip ROOMS (Z.of_nat <$> seq 0 NROOMS)).
Definition WEAPINDEX : gmap nat Z :=
  list_to_map (zip WEAPS (Z.of_nat <$> seq 0 NWEAPS)).

(** Character start priority in the rules. *)
Definition CHARIXSTARTORDER : list nat := [4; 0; 5; 2; 3; 1].
Definition CHARSTARTNODES : list nat := [51; 38; 197; 171; 2; 196].

(** [float(distance)] on an [int]: the integer rounded to the nearest
    binary64, ties to even; Python raises [OverflowError] ([None] here)
    where the rounded value is out of the range of the finite floats. *)
Definition float_of_int (z : Z) : option float :=
  match binary_normalize prec emax z 0 false with
  | S754_infinity _ => None
  | x => Some (SF2Prim x)
  end.



End game.



(* ################################################################# *)
(** * numpy values: idealised float64 and count tensors *)

(** A float64 that may go through [np.log]: a real, or one of the IEEE
    special values. Arithmetic is exact; signed zeros are not told apart. *)
Inductive npfloat : Type :=
  | Fin (r : R)
  | PInf
  | NInf
  | NaN.

Module np.

Definition of_Z (z : Z) : npfloat := Fin (IZR z).

Definition neg (a : npfloat) : npfloat :=
  match a with
  | Fin x => Fin (- x)%R
  | PInf => NInf
  | NInf => PInf
  | NaN => NaN
  end.

Definition add (a b : npfloat) : npfloat :=
  match a, b with
  | NaN, _ | _, NaN => NaN
  | Fin x, Fin y => Fin (x + y)%R
  | PInf, NInf | NInf, PInf => NaN
  | PInf, _ | _, PInf => PInf
  | NInf, _ | _, NInf => NInf
  end.

(** The product of a finite [x] and an infinity of sign [pos]. *)
Definition mul_inf (x : R) (pos : bool) : npfloat :=
  if Rlt_dec 0 x then (if pos then PInf else NInf)
  else if Rlt_dec x 0 then (if pos then NInf else PInf)
  else NaN.

Definition mul (a b : npfloat) : npfloat :=
  match a, b with
  | NaN, _ | _, NaN => NaN
  | Fin x, Fin y => Fin (x * y)%R
  | Fin x, PInf | PInf, Fin x => mul_inf x true
  | Fin x, NInf | NInf, Fin x => mul_inf x false
  | PInf, PInf | NInf, NInf => PInf
  | PInf, NInf | NInf, PInf => NInf
  end.

(** numpy division: [x/0] is an infinity or, for [0/0], NaN (a warning,
    not an exception). *)
Definition div (a b : npfloat) : npfloat :=
  match a, b with
  | NaN, _ | _, NaN => NaN
  | Fin x, Fin y =>
      if Req_dec_T y 0 then mul_inf x true else Fin (x / y)%R
  | Fin _, (PInf | NInf) => Fin 0
  | (PInf | NInf), (PInf | NInf) => NaN
  | PInf, Fin y => if Rlt_dec y 0 then NInf else PInf
  | NInf, Fin y => if Rlt_dec y 0 then PInf else NInf
  end.

(** [np.log]: [log(0) = -inf], the log of a negative number is NaN. *)
Definition log (a : npfloat) : npfloat :=
  match a with
  | Fin x => if Rlt_dec 0 x then Fin (ln x)
             else if Rlt_dec x 0 then NaN else NInf
  | PInf => PInf
  | NInf => NaN
  | NaN => NaN
  end.

Definition isnan (a : npfloat) : bool :=
  match a with NaN => true | _ => false end.

(** [a < b]; every comparison with NaN is false. *)
Definition ltb (a b : npfloat) : bool :=
  match a, b with
  | NaN, _ | _, NaN => false
  | Fin x, Fin y => if Rlt_dec x y then true else false
  | NInf, (Fin _ | PInf) => true
  | Fin _, PInf => true
  | _, _ => false
  end.

(** [a <= b], as a proposition. *)
Definition le (a b : npfloat) : Prop :=
  match a, b with
  | NaN, _ | _, NaN => False
  | Fin x, Fin y => (x <= y)%R
  | NInf, _ => True
  | _, PInf => True
  | _, _ => False
  end.

(** [np.sum] over a vector. *)
Definition sum (xs : list npfloat) : npfloat := foldr add (Fin 0) xs.

(** The order numpy sorts in: NaN after everything else. *)
Definition sort_lt (a b : npfloat) : bool :=
  ltb a b || (isnan b && negb (isnan a)).

Fixpoint insert_ix (v : nat -> npfloat) (i : nat) (sorted : list nat) : list nat :=
  match sorted with
  | [] => [i]
  | j :: rest =>
      if sort_lt (v i) (v j) then i :: j :: rest
      else j :: insert_ix v i rest
  end.

(** [np.argsort] of a short vector (numpy sorts up to sixteen elements by
    insertion, which is stable). *)
Definition argsort (xs : list npfloat) : list nat :=
  fold_left (fun sorted i => insert_ix (fun k => nth k xs NaN) i sorted)
            (seq 0 (length xs)) [].

(** An index into an axis of length [dim]: negative indices count from
    the end, anything outside [-dim, dim) is an [IndexError]. *)
Definition index (dim : nat) (i : Z) : option nat :=
  if (0 <=? i)%Z && (i <? Z.of_nat dim)%Z then Some (Z.to_nat i)
  else if (- Z.of_nat dim <=? i)%Z && (i <? 0)%Z
       then Some (Z.to_nat (i + Z.of_nat dim))
  else None.

End np.

(** Hypothesis counts by (character, room, weapon) index. The source keeps
    them in float64 arrays; they only ever hold integers. *)
Abbreviation vector := (list Z).
Abbreviation tensor3 := (list (list (list Z))).

Module tensor.

Definition zeros1 (n : nat) : vector := repeat 0%Z n.
Definition zeros3 (a b c : nat) : tensor3 := repeat (repeat (repeat 0%Z c) b) a.

Definition sumZ (xs : list Z) : Z := foldr Z.add 0%Z xs.
(** [np.sum] of all the cells. *)
Definition total (t : tensor3) : Z := sumZ (map (fun plane => sumZ (map sumZ plane)) t).
Definition cells (t : tensor3) : list Z := concat (concat t).

Definition get (t : tensor3) (i j k : nat) : Z :=
  nth k (nth j (nth i t []) []) 0%Z.

(** [t[e] += d] for an index triple [e]. *)
Definition add_at (t : tensor3) (e : Z * Z * Z) (d : Z) : option tensor3 :=
  let '(ei, ej, ek) := e in
  i ← np.index (length t) ei;
  plane ← t !! i;
  j ← np.index (length plane) ej;
  row ← plane !! j;
  k ← np.index (length row) ek;
  Some (alter (alter (alter (Z.add d) k) j) i t).

(** [v[i] += d]. *)
Definition add_at1 (v : vector) (ei : Z) (d : Z) : option vector :=
  i ← np.index (length v) ei;
  Some (alter (Z.add d) i v).

(** Elementwise sum of two arrays of one shape. *)
Definition plus (s t : tensor3) : tensor3 :=
  zip_with (zip_with (zip_with Z.add)) s t.

(** [np.sum(np.sum(t, 2), 0)]: the marginal over rooms (axis 1). *)
Definition by_room (t : tensor3) : vector :=
  map (fun j => sumZ (map (fun plane => sumZ (nth j plane [])) t))
      (seq 0 game.NROOMS).

End tensor.


(* ################################################################# *)
(** * Hypotheses *)

(** One candidate deal: the Python list [[hand_0, ..., hand_{n-1}, env]]
    whose last element is the murder envelope as a triple of indices
    [(ixChar, ixRoom, ixWeap)] (a list [[-1,-1,-1]] while the exact
    enumeration is still filling it in). *)
Record hypothesis : Type := mkHypothesis {
  hands : list (gset nat);
  envelope : Z * Z * Z
}.

(** What [hypothesis[ix]] evaluates to. *)
Inductive pyitem : Type :=
  | ItemHand (s : gset nat)
  | ItemEnvelope (e : Z * Z * Z).

Definition getitem (h : hypothesis) (ix : nat) : option pyitem :=
  match hands h !! ix with
  | Some s => Some (ItemHand s)
  | None => if ix =? length (hands h) then Some (ItemEnvelope (envelope h)) else None
  end.

(** [card in hypothesis[ix]]: membership in a hand, or equality with one
    of the three integers of the envelope tuple. *)
Definition contains (card : nat) (it : pyitem) : bool :=
  match it with
  | ItemHand s => bool_decide (card ∈ s)
  | ItemEnvelope (a, b, c) =>
      (Z.of_nat card =? a)%Z || (Z.of_nat card =? b)%Z || (Z.of_nat card =? c)%Z
  end.

(** The cards an envelope stands for. *)
Definition envelope_cards (e : Z * Z * Z) : gset nat :=
  let '(a, b, c) := e in
  {[ Z.to_nat a; game.NCHARS + Z.to_nat b; game.NROOMS + game.NCHARS + Z.to_nat c ]}.

(* ################################################################# *)
(** * Scenario statistics and the suggestion evaluator *)

Record posteriors : Type := Posteriors {
  expEntropy : npfloat;
  expRoomDist : list npfloat
}.

Record stats : Type := Stats {
  stats_p : list (list (list npfloat));
  stats_entropy : npfloat
}.

Module posterior.

(** One cell of [-p*np.log(p)] after [ents[np.isnan(ents)] = 0.]. *)
Definition xlogx (p : npfloat) : npfloat :=
  let e := np.mul (np.neg p) (np.log p) in
  if np.isnan e then Fin 0 else e.

(** [np.sum(np.sum(np.sum(ents, 4), 3), 2)] for one count array divided by
    [countSum]: weapons are summed first, then rooms, then characters. *)
Definition entropy (t : tensor3) (countSum : npfloat) : npfloat :=
  np.sum (map (fun plane =>
    np.sum (map (fun row =>
      np.sum (map (fun c => xlogx (np.div (np.of_Z c) countSum)) row)) plane)) t).

Definition zeros : tensor3 := tensor.zeros3 game.NCHARS game.NROOMS game.NWEAPS.

(** [hypCountsSorted[player][bin]] and [hypCountsNoAnswer]. *)
Definition sorted_counts : Type := (list (list tensor3) * tensor3)%type.

Definition answer_bits (it : pyitem) (character room weapon : nat) : nat :=
  Nat.lor (Nat.lor (if contains character it then 1 else 0)
                   (if contains room it then 2 else 0))
          (if contains weapon it then 4 else 0).

(** The inner [for ixPlayer in range(1,nPlayers)] with its [break]: the
    first player holding a suggested card, with the answer bin. *)
Fixpoint first_answer (h : hypothesis) (players : list nat)
    (character room weapon : nat) : result (option (nat * nat)) :=
  match players with
  | [] => Ok None
  | ixPlayer :: rest =>
      match getitem h ixPlayer with
      | None => Raise IndexError
      | Some it =>
          let ixAnswer := answer_bits it character room weapon in
          if 0 <? ixAnswer then Ok (Some (ixPlayer, ixAnswer))
          else first_answer h rest character room weapon
      end
  end.

(** Phase 1, one hypothesis. *)
Definition sort_hypothesis (players : list nat) (character room weapon : nat)
    (acc : sorted_counts) (h : hypothesis) : result sorted_counts :=
  let '(hypCountsSorted, hypCountsNoAnswer) := acc in
  match first_answer h players character room weapon with
  | Raise e => Raise e
  | OutOfFuel => OutOfFuel
  | Ok (Some (ixPlayer, ixAnswer)) =>
      match
        bins ← hypCountsSorted !! (ixPlayer - 1);
        t ← bins !! (ixAnswer - 1);
        t' ← tensor.add_at t (envelope h) 1;
        Some (<[ixPlayer - 1 := <[ixAnswer - 1 := t']> bins]> hypCountsSorted)
      with
      | Some sorted' => Ok (sorted', hypCountsNoAnswer)
      | None => Raise IndexError
      end
  | Ok None =>
      match tensor.add_at hypCountsNoAnswer (envelope h) 1 with
      | Some t' => Ok (hypCountsSorted, t')
      | None => Raise IndexError
      end
  end.

Fixpoint sort_hypotheses (players : list nat) (character room weapon : nat)
    (acc : sorted_counts) (hs : list hypothesis) : result sorted_counts :=
  match hs with
  | [] => Ok acc
  | h :: rest =>
      match sort_hypothesis players character room weapon acc h with
      | Ok acc' => sort_hypotheses players character room weapon acc' rest
      | Raise e => Raise e
      | OutOfFuel => OutOfFuel
      end
  end.

(** [hypCountsSorted[p,(b0,b1,b2),:,:,:]]. *)
Definition take_bins (bins : list tensor3) (ixs : list nat) : list tensor3 :=
  map (fun b => nth b bins zeros) ixs.

(** Phase 2: the counts left after each of the three answers of a player. *)
Definition after_answer (bins : list tensor3) : list tensor3 :=
  zip_with tensor.plus
    (zip_with tensor.plus
      (zip_with tensor.plus (take_bins bins [0; 1; 3]) (take_bins bins [2; 2; 4]))
      (take_bins bins [4; 5; 5]))
    (take_bins bins [6; 6; 6]).

(** Phase 3: the counts of hypotheses in which a player gives each answer,
    when it prefers the answers in the order [decisions]. *)
Definition received (bins : list tensor3) (decisions : list nat) : list tensor3 :=
  let d0 := nth 0 decisions 0 in
  let d1 := nth 1 decisions 0 in
  let start := alter (fun t => tensor.plus t (nth 6 bins zeros)) d0
                     (take_bins bins [0; 1; 3]) in
  let mostPreferredBit := 2 ^ d0 in
  fold_left (fun rcv thisBin =>
      if negb (Nat.land thisBin mostPreferredBit =? 0)
      then alter (fun t => tensor.plus t (nth (thisBin - 1) bins zeros)) d0 rcv
      else alter (fun t => tensor.plus t (nth (thisBin - 1) bins zeros)) d1 rcv)
    [3; 5; 6] start.

Definition dot (xs ys : list Z) : Z := tensor.sumZ (zip_with Z.mul xs ys).

(** Phases 2 and 3 for given sorted counts over [totalHypCount] hypotheses. *)
Definition evaluate (acc : sorted_counts) (totalHypCount : nat) : result posteriors :=
  let '(hypCountsSorted, hypCountsNoAnswer) := acc in
  let hypCountsAfterAnswer := map after_answer hypCountsSorted in
  let hypCountsByRoomAfterAnswer := map (map tensor.by_room) hypCountsAfterAnswer in
  let hypCountSumsAfterAnswer := map (map tensor.sumZ) hypCountsByRoomAfterAnswer in
  let entAfterAnswer :=
    zip_with (zip_with (fun t s => entropy t (np.of_Z s)))
             hypCountsAfterAnswer hypCountSumsAfterAnswer in
  let hypCountsByRoomNoAnswer := tensor.by_room hypCountsNoAnswer in
  let hypCountSumNoAnswer := tensor.sumZ hypCountsByRoomNoAnswer in
  let entNoAnswer :=
    if (0 <? hypCountSumNoAnswer)%Z
    then entropy hypCountsNoAnswer (np.of_Z hypCountSumNoAnswer)
    else Fin 0 in
  let playerDecisions := map (fun ents => rev (np.argsort ents)) entAfterAnswer in
  let receivedHypCounts := zip_with received hypCountsSorted playerDecisions in
  let totalReceivedCounts := map (map tensor.total) receivedHypCounts in
  if negb (Z.of_nat totalHypCount =?
           tensor.sumZ (map tensor.sumZ totalReceivedCounts) + hypCountSumNoAnswer)%Z
  then Raise AssertionError
  else
    let expEntropy :=
      np.div
        (np.add (np.mul entNoAnswer (np.of_Z hypCountSumNoAnswer))
                (np.sum (zip_with (fun ents cnts =>
                           np.sum (zip_with (fun e c => np.mul e (np.of_Z c)) ents cnts))
                         entAfterAnswer totalReceivedCounts)))
        (np.of_Z (Z.of_nat totalHypCount)) in
    let expRoomDist :=
      map (fun ixRoom =>
             (nth ixRoom hypCountsByRoomNoAnswer 0 * hypCountSumNoAnswer +
              tensor.sumZ (zip_with (fun byRoom cnts =>
                  dot (map (fun v => nth ixRoom v 0%Z) byRoom) cnts)
                hypCountsByRoomAfterAnswer totalReceivedCounts))%Z)
          (seq 0 game.NROOMS) in
    let norm := tensor.sumZ expRoomDist in
    Ok {| expEntropy := expEntropy;
          expRoomDist := map (fun x => np.div (np.of_Z x) (np.of_Z norm)) expRoomDist |}.

(** The body shared, word for word, by [Detective.suggestionexpposteriors]
    (with [self.nPlayers], [self.hypotheses]) and
    [parcore.suggestionexpposteriors] (with its own [nPlayers]). A negative
    first dimension makes [np.zeros] raise [ValueError]. *)
Definition suggestionexpposteriors (nPlayers : Z) (hypotheses : list hypothesis)
    (character room weapon : nat) : result posteriors :=
  if (nPlayers - 1 <? 0)%Z then Raise ValueError
  else
    let others := Z.to_nat (nPlayers - 1) in
    let hypCountsSorted := repeat (repeat zeros 7) others in
    let hypCountsNoAnswer := zeros in
    match sort_hypotheses (seq 1 others) character room weapon
            (hypCountsSorted, hypCountsNoAnswer) hypotheses with
    | Ok acc => evaluate acc (length hypotheses)
    | Raise e => Raise e
    | OutOfFuel => OutOfFuel
    end.

End posterior.

(** [Detective.statsfromcounts] (it reads nothing of [self]). *)
Definition statsfromcounts (countMatrix : tensor3) : stats :=
  let countSum := tensor.total countMatrix in
  if (0 <? countSum)%Z then
    {| stats_p := map (map (map (fun c => np.div (np.of_Z c) (np.of_Z countSum)))) countMatrix;
       stats_entropy := posterior.entropy countMatrix (np.of_Z countSum) |}
  else
    {| stats_p := map (map (map (fun _ => Fin 0))) countMatrix;
       stats_entropy := Fin 0 |}.


(* ################################################################# *)
(** * velma/parcore.py *)

Module parcore.

(** [nPlayers = len(hypotheses)-1], then the shared body. *)
Definition suggestionexpposteriors (hypotheses : list hypothesis)
    (character room weapon : nat) : result posteriors :=
  let nPlayers := (Z.of_nat (length hypotheses) - 1)%Z in
  posterior.suggestionexpposteriors nPlayers hypotheses character room weapon.

End parcore.


(* ################################################################# *)
(** * velma/core.py: event records and the Detective *)

Record EventMove : Type := mkEventMove {
  move_turn : nat; move_actor : nat; move_nodeStart : nat; move_nodeStop : nat }.
Record EventSuggestion : Type := mkEventSuggestion {
  sug_turn : nat; sug_actor : nat; sug_character : nat; sug_room : nat;
  sug_weapon : nat }.
Record EventPass : Type := mkEventPass {
  pass_turn : nat; pass_actor : nat; pass_character : nat; pass_room : nat;
  pass_weapon : nat }.
Record EventAccusation : Type := mkEventAccusation {
  acc_turn : nat; acc_actor : nat; acc_character : nat; acc_room : nat;
  acc_weapon : nat }.
Record EventUnseenAnswer : Type := mkEventUnseenAnswer {
  unseen_turn : nat; unseen_actor : nat; unseen_consumer : nat;
  unseen_character : nat; unseen_room : nat; unseen_weapon : nat }.
Record EventSeenAnswer : Type := mkEventSeenAnswer {
  seen_turn : nat; seen_actor : nat; seen_consumer : nat; seen_card : nat }.

Record Detective : Type := mkDetective {
  HYPSAMPLECOUNT : Z;  (* sampled hypotheses to maintain *)
  THRESHAPPROXHYPCOUNT : Z;  (* below this estimate, enumerate *)
  DBGSCENARIO : option (list (gset nat));  (* the synthetic deal, if any *)
  DBGSCENARIOREMINDER : bool;  (* truth value of the reminder text *)
  isGameOver : bool;
  isInitialised : bool;
  playersOusted : list bool;
  nPlayers : nat;
  ixDealer : nat;
  nCardsHeld : list nat;
  playerCharIxs : list Z;
  myCardSet : gset nat;
  myCards : list nat;
  myCardsShownTo : list (list bool);  (* [suggester-1][position in myCards] *)
  myCardsShownCounts : list Z;
  charLocations : list nat;
  forbidden : list (list bool);  (* nPlayers+1 rows of NCARDS flags *)
  forbiddenSets : list (gset nat);
  hypotheses : list hypothesis;
  areHypothesesEnumerable : bool;
  hasEnteredRoomYet : bool;
  canSuggestInCurrentRoom : bool;
  ixTurn : nat;
  ixHotSeat : nat;
  logMoves : list EventMove;
  logSuggestions : list EventSuggestion;
  logPasses : list EventPass;
  logUnseenAnswers : list EventUnseenAnswer;
  logSeenAnswers : list EventSeenAnswer;
  logIncorrectAccusations : list EventAccusation;
  hypCountByCharacter : vector;
  hypCountByRoom : vector;
  hypCountByWeapon : vector;
  hypCountByScenario : tensor3;
  pScenario : list (list (list npfloat));
  scenarioEntropy : npfloat
}.

(** The record rebuilt from its own fields: the shape every assignment
    [self.field = v] specialises. *)
Definition rebuilt (s : Detective) : Detective :=
  mkDetective (s.(HYPSAMPLECOUNT)) (s.(THRESHAPPROXHYPCOUNT))
  (s.(DBGSCENARIO)) (s.(DBGSCENARIOREMINDER)) (s.(isGameOver))
  (s.(isInitialised)) (s.(playersOusted)) (s.(nPlayers)) (s.(ixDealer))
  (s.(nCardsHeld)) (s.(playerCharIxs)) (s.(myCardSet)) (s.(myCards))
  (s.(myCardsShownTo)) (s.(myCardsShownCounts)) (s.(charLocations))
  (s.(forbidden)) (s.(forbiddenSets)) (s.(hypotheses))
  (s.(areHypothesesEnumerable)) (s.(hasEnteredRoomYet))
  (s.(canSuggestInCurrentRoom)) (s.(ixTurn)) (s.(ixHotSeat)) (s.(logMoves))
  (s.(logSuggestions)) (s.(logPasses)) (s.(logUnseenAnswers))
  (s.(logSeenAnswers)) (s.(logIncorrectAccusations))
  (s.(hypCountByCharacter)) (s.(hypCountByRoom)) (s.(hypCountByWeapon))
  (s.(hypCountByScenario)) (s.(pScenario)) (s.(scenarioEntropy)).

(** [assign proj] builds [fun v s => rebuilt s] with the field [proj s]
    replaced by [v]. *)
Ltac assign proj :=
  let v := fresh "v" in let s := fresh "s" in
  intros v s;
  let t := eval cbv delta [rebuilt] beta in (rebuilt s) in
  match eval pattern (proj s) in t with
  | ?f _ => let r := eval cbv beta in (f v) in exact r
  end.

Definition set_HYPSAMPLECOUNT : Z -> Detective -> Detective :=
  ltac:(assign HYPSAMPLECOUNT).
Definition set_THRESHAPPROXHYPCOUNT : Z -> Detective -> Detective :=
  ltac:(assign THRESHAPPROXHYPCOUNT).
Definition set_DBGSCENARIO : option (list (gset nat)) -> Detective -> Detective :=
  ltac:(assign DBGSCENARIO).
Definition set_DBGSCENARIOREMINDER : bool -> Detective -> Detective :=
  ltac:(assign DBGSCENARIOREMINDER).
Definition set_isGameOver : bool -> Detective -> Detective :=
  ltac:(assign isGameOver).
Definition set_isInitialised : bool -> Detective -> Detective :=
  ltac:(assign isInitialised).
Definition set_playersOusted : list bool -> Detective -> Detective :=
  ltac:(assign playersOusted).
Definition set_nPlayers : nat -> Detective -> Detective :=
  ltac:(assign nPlayers).
Definition set_ixDealer : nat -> Detective -> Detective :=
  ltac:(assign ixDealer).
Definition set_nCardsHeld : list nat -> Detective -> Detective :=
  ltac:(assign nCardsHeld).
Definition set_playerCharIxs : list Z -> Detective -> Detective :=
  ltac:(assign playerCharIxs).
Definition set_myCardSet : gset nat -> Detective -> Detective :=
  ltac:(assign myCardSet).
Definition set_myCards : list nat -> Detective -> Detective :=
  ltac:(assign myCards).
Definition set_myCardsShownTo : list (list bool) -> Detective -> Detective :=
  ltac:(assign myCardsShownTo).
Definition set_myCardsShownCounts : list Z -> Detective -> Detective :=
  ltac:(assign myCardsShownCounts).
Definition set_charLocations : list nat -> Detective -> Detective :=
  ltac:(assign charLocations).
Definition set_forbidden : list (list bool) -> Detective -> Detective :=
  ltac:(assign forbidden).
Definition set_forbiddenSets : list (gset nat) -> Detective -> Detective :=
  ltac:(assign forbiddenSets).
Definition set_hypotheses : list hypothesis -> Detective -> Detective :=
  ltac:(assign hypotheses).
Definition set_areHypothesesEnumerable : bool -> Detective -> Detective :=
  ltac:(assign areHypothesesEnumerable).
Definition set_hasEnteredRoomYet : bool -> Detective -> Detective :=
  ltac:(assign hasEnteredRoomYet).
Definition set_canSuggestInCurrentRoom : bool -> Detective -> Detective :=
  ltac:(assign canSuggestInCurrentRoom).
Definition set_ixTurn : nat -> Detective -> Detective :=
  ltac:(assign ixTurn).
Definition set_ixHotSeat : nat -> Detective -> Detective :=
  ltac:(assign ixHotSeat).
Definition set_logMoves : list EventMove -> Detective -> Detective :=
  ltac:(assign logMoves).
Definition set_logSuggestions : list EventSuggestion -> Detective -> Detective :=
  ltac:(assign logSuggestions).
Definition set_logPasses : list EventPass -> Detective -> Detective :=
  ltac:(assign logPasses).
Definition set_logUnseenAnswers : list EventUnseenAnswer -> Detective -> Detective :=
  ltac:(assign logUnseenAnswers).
Definition set_logSeenAnswers : list EventSeenAnswer -> Detective -> Detective :=
  ltac:(assign logSeenAnswers).
Definition set_logIncorrectAccusations : list EventAccusation -> Detective -> Detective :=
  ltac:(assign logIncorrectAccusations).
Definition set_hypCountByCharacter : vector -> Detective -> Detective :=
  ltac:(assign hypCountByCharacter).
Definition set_hypCountByRoom : vector -> Detective -> Detective :=
  ltac:(assign hypCountByRoom).
Definition set_hypCountByWeapon : vector -> Detective -> Detective :=
  ltac:(assign hypCountByWeapon).
Definition set_hypCountByScenario : tensor3 -> Detective -> Detective :=
  ltac:(assign hypCountByScenario).
Definition set_pScenario : list (list (list npfloat)) -> Detective -> Detective :=
  ltac:(assign pScenario).
Definition set_scenarioEntropy : npfloat -> Detective -> Detective :=
  ltac:(assign scenarioEntropy).

(** The class-level defaults of [Detective], before [initialise]. The
    fields that start as [None] are empty here. *)
Definition Detective_defaults : Detective :=
  {| HYPSAMPLECOUNT := 100000;
     THRESHAPPROXHYPCOUNT := 500000;
     DBGSCENARIO := None;
     DBGSCENARIOREMINDER := true;
     isGameOver := false;
     isInitialised := false;
     playersOusted := [];
     nPlayers := 0;
     ixDealer := 0;
     nCardsHeld := [];
     playerCharIxs := [];
     myCardSet := ∅;
     myCards := [];
     myCardsShownTo := [];
     myCardsShownCounts := [];
     charLocations := game.CHARSTARTNODES;
     forbidden := [];
     forbiddenSets := [];
     hypotheses := [];
     areHypothesesEnumerable := false;
     hasEnteredRoomYet := false;
     canSuggestInCurrentRoom := true;
     ixTurn := 0;
     ixHotSeat := 0;
     logMoves := [];
     logSuggestions := [];
     logPasses := [];
     logUnseenAnswers := [];
     logSeenAnswers := [];
     logIncorrectAccusations := [];
     hypCountByCharacter := tensor.zeros1 game.NCHARS;
     hypCountByRoom := tensor.zeros1 game.NROOMS;
     hypCountByWeapon := tensor.zeros1 game.NWEAPS;
     hypCountByScenario := posterior.zeros;
     pScenario := map (map (map (fun _ => Fin 0))) posterior.zeros;
     scenarioEntropy := Fin 0 |}.

(** The state a method runs in: the Detective object and the state of the
    [random] module, a tape of draws. *)
Definition World : Type := (Detective * list nat)%type.

Definition get {A} (f : Detective -> A) : M World A := gets (fun w => f (fst w)).
Definition put {A} (setter : A -> Detective -> Detective) (v : A) : M World unit :=
  modify (fun w => (setter v (fst w), snd w)).
(** The next draw of the random tape ([0] once it is used up). *)
Definition draw : M World nat :=
  fun w => (Ok (hd 0 (snd w)), (fst w, tl (snd w))).
Definition lift {A} (r : result A) : M World A := fun w => (r, w).

(** [foldM f b xs]: a loop over [xs] that threads the local value [b]. *)
Fixpoint foldM {S A B} (f : B -> A -> M S B) (b : B) (xs : list A) : M S B :=
  match xs with
  | [] => ret b
  | x :: xs' => bind (f b x) (fun b' => foldM f b' xs')
  end.


#[local] Open Scope monad_scope.

(* ################################################################# *)
(** * Counts, statistics and the suggestion evaluator as methods *)

(** [self.hypCountByScenario[h[-1]] += d] and the three marginals, in the
    order of the source. *)
Definition count_hypothesis (h : hypothesis) (d : Z) : M World unit :=
  let '(ixChar, ixRoom, ixWeap) := envelope h in
  byScenario <- get hypCountByScenario ;;
  byScenario' <- orraise IndexError (tensor.add_at byScenario (envelope h) d) ;;
  put set_hypCountByScenario byScenario' ;;;
  byCharacter <- get hypCountByCharacter ;;
  byCharacter' <- orraise IndexError (tensor.add_at1 byCharacter ixChar d) ;;
  put set_hypCountByCharacter byCharacter' ;;;
  byRoom <- get hypCountByRoom ;;
  byRoom' <- orraise IndexError (tensor.add_at1 byRoom ixRoom d) ;;
  put set_hypCountByRoom byRoom' ;;;
  byWeapon <- get hypCountByWeapon ;;
  byWeapon' <- orraise IndexError (tensor.add_at1 byWeapon ixWeap d) ;;
  put set_hypCountByWeapon byWeapon'.

(** [Detective.removehypfromcounts]. *)
Definition removehypfromcounts (ixHyp : nat) : M World unit :=
  hyps <- get hypotheses ;;
  h <- orraise IndexError (hyps !! ixHyp) ;;
  count_hypothesis h (-1).

(** [Detective.updatestats]. *)
Definition updatestats : M World unit :=
  counts <- get hypCountByScenario ;;
  let result := statsfromcounts counts in
  put set_pScenario (stats_p result) ;;;
  put set_scenarioEntropy (stats_entropy result).

(** [Detective.suggestionexpposteriors]: the shared body run on
    [self.nPlayers] and [self.hypotheses]. *)
Definition suggestionexpposteriors (character room weapon : nat)
    : M Detective posteriors :=
  n <- gets nPlayers ;;
  hyps <- gets hypotheses ;;
  (fun s => (posterior.suggestionexpposteriors (Z.of_nat n) hyps
               character room weapon, s)).

(* ################################################################# *)
(** * The forbidden matrix and the forbidden sets *)

(** [self.forbidden[ixPlayer,card] = flag]. *)
Definition forbidden_set (ixPlayer card : nat) (flag : bool) : M World unit :=
  f <- get forbidden ;;
  row <- orraise IndexError (f !! ixPlayer) ;;
  if card <? length row
  then put set_forbidden (<[ixPlayer := <[card := flag]> row]> f)
  else raise IndexError.

(** [self.forbidden[ixPlayer,card]]. *)
Definition forbidden_at (f : list (list bool)) (ixPlayer card : nat) : option bool :=
  row ← f !! ixPlayer; row !! card.

(** [self.forbiddenSets[ixPlayer].add(card)]. *)
Definition forbiddenSets_add (ixPlayer card : nat) : M World unit :=
  fs <- get forbiddenSets ;;
  s <- orraise IndexError (fs !! ixPlayer) ;;
  put set_forbiddenSets (<[ixPlayer := s ∪ {[card]}]> fs).

(** [try: self.forbiddenSets[ixPlayer].remove(card) except: pass]. *)
Definition forbiddenSets_discard (ixPlayer card : nat) : M World unit :=
  fs <- get forbiddenSets ;;
  match fs !! ixPlayer with
  | Some s => put set_forbiddenSets (<[ixPlayer := s ∖ {[card]}]> fs)
  | None => ret tt
  end.

(** The column [self.forbidden[0:n,card]] (a slice stops at the last row). *)
Definition column (f : list (list bool)) (n card : nat) : list bool :=
  map (fun row => default false (row !! card)) (take n f).

(** [np.sum] of a vector of flags. *)
Definition count_true (flags : list bool) : nat :=
  foldr (fun (b : bool) k => if b then S k else k) 0 flags.

(** In [event_pass], after a card has been forbidden to the actor: when no
    player can hold it, the envelope holds it, so every other card of its
    family is forbidden to the envelope. *)
Definition close_family (card : nat) (family : gset nat) : M World unit :=
  n <- get nPlayers ;;
  f <- get forbidden ;;
  if forallb (fun flag => flag) (column f n card) then
    (if bool_decide (card ∈ family) then ret tt else raise KeyError) ;;;
    forM_ (elements (family ∖ {[card]}))
      (fun other => forbidden_set n other true ;;; forbiddenSets_add n other)
  else ret tt.

(* ################################################################# *)
(** * Removing invalidated hypotheses *)

(** [self.hypotheses[ixHyp][ix]] where a set of cards is needed:
    intersecting a set with the envelope tuple is a [TypeError]. *)
Definition hand_of (h : hypothesis) (ix : nat) : result (gset nat) :=
  match getitem h ix with
  | Some (ItemHand s) => Ok s
  | Some (ItemEnvelope _) => Raise TypeError
  | None => Raise IndexError
  end.

(** The loop every event runs over [range(len(self.hypotheses))]: a
    hypothesis is kept in [hypsNew], or its counts are taken off; then
    [self.hypotheses = hypsNew]. *)
Definition reduce_hypotheses (keep : hypothesis -> result bool) : M World unit :=
  hyps <- get hypotheses ;;
  hypsNew <- foldM (fun hypsNew ixHyp =>
      h <- orraise IndexError (hyps !! ixHyp) ;;
      k <- lift (keep h) ;;
      if k : bool then ret (hypsNew ++ [h])
      else (removehypfromcounts ixHyp ;;; ret hypsNew))
    [] (seq 0 (length hyps)) ;;
  put set_hypotheses hypsNew.


#[local] Open Scope monad_scope.

(* ################################################################# *)
(** * The random module *)

(** [random.sample(population,1)[0]]: [ValueError] on an empty population. *)
Definition sample (population : gset nat) : M World nat :=
  let candidates := elements population in
  match candidates with
  | [] => raise ValueError
  | _ :: _ =>
      x <- draw ;;
      orraise ValueError (candidates !! (x mod length candidates))
  end.

(** [random.shuffle]: each position is filled with a drawn element of what
    is left. *)
Fixpoint shuffle_from (n : nat) (left : list nat) : M World (list nat) :=
  match n, left with
  | S n', _ :: _ =>
      x <- draw ;;
      let i := x mod length left in
      card <- orraise IndexError (left !! i) ;;
      rest <- shuffle_from n' (delete i left) ;;
      ret (card :: rest)
  | _, _ => ret []
  end.
Definition shuffle (deck : list nat) : M World (list nat) :=
  shuffle_from (length deck) deck.

(* ################################################################# *)
(** * Detective.genfeasiblehypothesis *)

(** A hypothesis under construction: [nPlayers+1] sets, with the cards
    dealt so far; [None] once [hypValid] is false. *)
Definition draft : Type := (list (gset nat) * gset nat)%type.

(** Step 2: deal the card of a seen answer to the player who showed it. *)
Definition deal_seen (d : draft) (constraint : EventSeenAnswer) : M World draft :=
  let '(hypothesis, dealt) := d in
  hand <- orraise IndexError (hypothesis !! seen_actor constraint) ;;
  if bool_decide (seen_card constraint ∈ hand) then ret (hypothesis, dealt)
  else ret (<[seen_actor constraint := hand ∪ {[seen_card constraint]}]> hypothesis,
            dealt ∪ {[seen_card constraint]}).

(** Step 3: satisfy an unseen answer by one random card of its triple.
    After a [break] ([None]) the remaining constraints are skipped. *)
Definition deal_unseen (d : option draft) (constraint : EventUnseenAnswer)
    : M World (option draft) :=
  match d with
  | None => ret None
  | Some (hypothesis, dealt) =>
      let constraintset : gset nat :=
        {[ unseen_character constraint; unseen_room constraint;
           unseen_weapon constraint ]} in
      let actor := unseen_actor constraint in
      hand <- orraise IndexError (hypothesis !! actor) ;;
      if negb (size (constraintset ∩ hand) =? 0) then ret (Some (hypothesis, dealt))
      else
        held <- get nCardsHeld ;;
        capacity <- orraise IndexError (held !! actor) ;;
        if size hand <? capacity then
          fs <- get forbiddenSets ;;
          forbiddenHere <- orraise IndexError (fs !! actor) ;;
          let allowedCards := constraintset ∖ dealt ∖ forbiddenHere in
          if negb (size allowedCards =? 0) then
            chosenCard <- sample allowedCards ;;
            ret (Some (<[actor := hand ∪ {[chosenCard]}]> hypothesis,
                       dealt ∪ {[chosenCard]}))
          else ret None
        else ret None
  end.

(** [try: ... random.sample(...) ... except ValueError]: the handler of
    step 4 turns a [ValueError] into an invalid hypothesis. *)
Definition catch_ValueError {A} (m : M World A) : M World (option A) :=
  fun w => match m w with
           | (Ok a, w') => (Ok (Some a), w')
           | (Raise ValueError, w') => (Ok None, w')
           | (Raise e, w') => (Raise e, w')
           | (OutOfFuel, w') => (OutOfFuel, w')
           end.

(** Step 4: the murder scenario, one family after the other. *)
Definition choose_murder (dealt : gset nat)
    : M World ((nat * nat * nat) * (Z * Z * Z) * gset nat) :=
  fs <- get forbiddenSets ;;
  forbiddenEnv <- orraise IndexError (last fs) ;;
  murderer <- sample ((game.ALLOWEDCHARS ∖ dealt) ∖ forbiddenEnv) ;;
  let dealt := dealt ∪ {[murderer]} in
  ixChar <- orraise KeyError (game.CHARINDEX !! murderer) ;;
  murderRoom <- sample ((game.ALLOWEDROOMS ∖ dealt) ∖ forbiddenEnv) ;;
  let dealt := dealt ∪ {[murderRoom]} in
  ixRoom <- orraise KeyError (game.ROOMINDEX !! murderRoom) ;;
  murderWeap <- sample ((game.ALLOWEDWEAPS ∖ dealt) ∖ forbiddenEnv) ;;
  let dealt := dealt ∪ {[murderWeap]} in
  ixWeap <- orraise KeyError (game.WEAPINDEX !! murderWeap) ;;
  ret ((murderer, murderRoom, murderWeap), (ixChar, ixRoom, ixWeap), dealt).

(** Step 5, the recipient of one card: the first player who is not
    forbidden the card and has room for it. *)
Fixpoint recipient_of (f : list (list bool)) (held : list nat)
    (hypothesis : list (gset nat)) (card : nat) (players : list nat)
    : result (option nat) :=
  match players with
  | [] => Ok None
  | ix :: rest =>
      match forbidden_at f ix card with
      | None => Raise IndexError
      | Some true => recipient_of f held hypothesis card rest
      | Some false =>
          match hypothesis !! ix, held !! ix with
          | Some hand, Some capacity =>
              if size hand <? capacity then Ok (Some ix)
              else recipient_of f held hypothesis card rest
          | _, _ => Raise IndexError
          end
      end
  end.

Definition deal_card (d : option draft) (card : nat) : M World (option draft) :=
  match d with
  | None => ret None
  | Some (hypothesis, dealt) =>
      n <- get nPlayers ;;
      f <- get forbidden ;;
      held <- get nCardsHeld ;;
      recipient <- lift (recipient_of f held hypothesis card (seq 0 n)) ;;
      match recipient with
      | None => ret None
      | Some ix =>
          hand <- orraise IndexError (hypothesis !! ix) ;;
          ret (Some (<[ix := hand ∪ {[card]}]> hypothesis, dealt ∪ {[card]}))
      end
  end.

(** Step 6: is the chosen scenario one of the accusations proved wrong? *)
Definition accused_wrongly (murder : nat * nat * nat)
    (log : list EventAccusation) : bool :=
  existsb (fun wrongAcc =>
      let '(murderer, murderRoom, murderWeap) := murder in
      (murderer =? acc_character wrongAcc) && (murderRoom =? acc_room wrongAcc)
        && (murderWeap =? acc_weapon wrongAcc))
    log.

(** One pass through the body of [while hypValid == False]. The result is
    [None] when the pass ends with [hypValid == False]. *)
Definition generation_attempt : M World (option (hypothesis * gset nat)) :=
  n <- get nPlayers ;;
  mine <- get myCardSet ;;
  seen <- get logSeenAnswers ;;
  unseen <- get logUnseenAnswers ;;
  d <- foldM deal_seen (<[0 := mine]> (repeat ∅ (n + 1)), mine) seen ;;
  d <- foldM deal_unseen (Some d) unseen ;;
  match d with
  | None => ret None
  | Some (hypothesis, dealt) =>
      chosen <- catch_ValueError (choose_murder dealt) ;;
      match chosen with
      | None => ret None
      | Some (murder, ixs, dealt) =>
          shuffledDeck <- shuffle (elements (game.ALLOWEDCARDS ∖ dealt)) ;;
          d <- foldM deal_card (Some (hypothesis, dealt)) shuffledDeck ;;
          wrong <- get logIncorrectAccusations ;;
          match d with
          | Some (hypothesis, dealt) =>
              if accused_wrongly murder wrong then ret None
              else ret (Some ({| hands := removelast hypothesis; envelope := ixs |},
                              dealt))
          | None => ret None
          end
      end
  end.

(** [Detective.genfeasiblehypothesis]: attempts are repeated until one is
    valid; [fuel] bounds the attempts the model follows. *)
Fixpoint genfeasiblehypothesis_from (fuel : nat) (genAttempts : nat)
    : M World (hypothesis * nat) :=
  match fuel with
  | 0 => fun w => (OutOfFuel, w)
  | S fuel' =>
      r <- generation_attempt ;;
      match r with
      | None => genfeasiblehypothesis_from fuel' (S genAttempts)
      | Some (hypothesis, dealt) =>
          if bool_decide (dealt = game.ALLOWEDCARDS)
          then ret (hypothesis, S genAttempts)
          else raise AssertionError
      end
  end.
Definition genfeasiblehypothesis (fuel : nat) : M World (hypothesis * nat) :=
  genfeasiblehypothesis_from fuel 0.


#[local] Open Scope monad_scope.

(* ################################################################# *)
(** * Detective.rebuildhypotheses: the estimate of feasible deals *)

(** [scipy.misc.comb(N,k,exact=True)], a library function: zero outside
    [0 <= k <= N], else the running product
    [val = (val*(N-j))//(j+1) for j in range(min(k,N-k))]. *)
Definition nCr (N k : Z) : Z :=
  if (N <? k)%Z || (N <? 0)%Z || (k <? 0)%Z then 0%Z
  else fold_left (fun val j => ((val * (N - Z.of_nat j)) / (Z.of_nat j + 1))%Z)
                 (seq 0 (Z.to_nat (Z.min k (N - k)))) 1%Z.

(** The first holder slot of [range(slots)] not forbidden [card]. *)
Definition first_allowed (f : list (list bool)) (slots card : nat) : result (option nat) :=
  (fix scan (ixs : list nat) : result (option nat) :=
     match ixs with
     | [] => Ok None
     | ix :: rest =>
         match forbidden_at f ix card with
         | None => Raise IndexError
         | Some false => Ok (Some ix)
         | Some true => scan rest
         end
     end) (seq 0 slots).

(** [np.sum(self.forbidden[:,card])]. *)
Definition column_sum (f : list (list bool)) (card : nat) : nat :=
  count_true (column f (length f) card).

(** A card is known when all holder slots but one are forbidden it. The
    loop over the cards: a known card outside the envelope takes one
    dealing space of its holder. *)
Definition claim_known (acc : list Z * Z) (card : nat) : M World (list Z * Z) :=
  let '(dealSpaces, cardsLeft) := acc in
  n <- get nPlayers ;;
  f <- get forbidden ;;
  if column_sum f card =? n then
    found <- lift (first_allowed f (n + 1) card) ;;
    ixAllowed <- orraise StopIteration found ;;
    if negb (ixAllowed =? n) then
      space <- orraise IndexError (dealSpaces !! ixAllowed) ;;
      ret (<[ixAllowed := (space - 1)%Z]> dealSpaces, (cardsLeft - 1)%Z)
    else ret (dealSpaces, cardsLeft)
  else ret (dealSpaces, cardsLeft).

(** [NFAMILY - np.sum(self.forbidden[self.nPlayers,list(family)])]. *)
Definition feasible_in (row : list bool) (family : gset nat) (size : nat) : M World Z :=
  flags <- foldM (fun flags card =>
      flag <- orraise IndexError (row !! card) ;; ret (flags ++ [flag]))
    [] (elements family) ;;
  ret (Z.of_nat size - Z.of_nat (count_true flags))%Z.

Definition claim_hand (f : list (list bool)) (dealSpaces : list Z)
    (acc : Z * Z) (ixPlayer : nat) : M World (Z * Z) :=
  let '(nHypsApprox, cardsLeft) := acc in
  row <- orraise IndexError (f !! ixPlayer) ;;
  space <- orraise IndexError (dealSpaces !! ixPlayer) ;;
  ret ((nHypsApprox *
          nCr (Z.min cardsLeft (Z.of_nat game.NCARDS - Z.of_nat (count_true row))) space)%Z,
       (cardsLeft - space)%Z).

Definition estimate_hypotheses : M World Z :=
  n <- get nPlayers ;;
  f <- get forbidden ;;
  held <- get nCardsHeld ;;
  dealer <- get ixDealer ;;
  acc <- foldM claim_known (map Z.of_nat held, (Z.of_nat game.NCARDS - 3)%Z)
               (elements game.ALLOWEDCARDS) ;;
  let '(dealSpaces, cardsLeft) := acc in
  envRow <- orraise IndexError (f !! n) ;;
  nc <- feasible_in envRow game.ALLOWEDCHARS game.NCHARS ;;
  nr <- feasible_in envRow game.ALLOWEDROOMS game.NROOMS ;;
  nw <- feasible_in envRow game.ALLOWEDWEAPS game.NWEAPS ;;
  acc <- foldM (claim_hand f dealSpaces) ((nc * nr * nw)%Z, cardsLeft)
               (map (fun i => i mod n) (seq dealer n)) ;;
  ret (fst acc).

(* ################################################################# *)
(** * Detective.rebuildhypotheses: the exact enumeration *)

(** The working lists [self.hypotheses] and [dealt], side by side. *)
Definition working : Type := list (hypothesis * gset nat).

Definition set_hand (h : hypothesis) (ix : nat) (hand : gset nat) : hypothesis :=
  {| hands := <[ix := hand]> (hands h); envelope := envelope h |}.
Definition set_envelope (h : hypothesis) (e : Z * Z * Z) : hypothesis :=
  {| hands := hands h; envelope := e |}.

(** Step 1, one card: a card with a single possible holder is dealt to it,
    in place, in [self.hypotheses[0]]. *)
Definition deal_known (dealt : gset nat) (card : nat) : M World (gset nat) :=
  n <- get nPlayers ;;
  f <- get forbidden ;;
  if column_sum f card =? n then
    found <- lift (first_allowed f (n + 1) card) ;;
    ixHolder <- orraise IndexError found ;;
    hyps <- get hypotheses ;;
    h <- orraise IndexError (hyps !! 0) ;;
    (if ixHolder <? n then
       hand <- orraise IndexError (hands h !! ixHolder) ;;
       put set_hypotheses (<[0 := set_hand h ixHolder (hand ∪ {[card]})]> hyps)
     else
       let '(ixChar, ixRoom, ixWeap) := envelope h in
       let e :=
         match game.CHARINDEX !! card with
         | Some ix => (ix, ixRoom, ixWeap)
         | None =>
             match game.ROOMINDEX !! card with
             | Some ix => (ixChar, ix, ixWeap)
             | None => (ixChar, ixRoom, default (-1)%Z (game.WEAPINDEX !! card))
             end
         end in
       put set_hypotheses (<[0 := set_envelope h e]> hyps)) ;;;
    ret (dealt ∪ {[card]})
  else ret dealt.

(** [constraint.shower]: an [EventUnseenAnswer] has the fields turn, actor,
    consumer, character, room and weapon, and no field [shower]. *)
Definition unseen_shower (constraint : EventUnseenAnswer) : M World nat :=
  raise AttributeError.

(** Step 2, one hypothesis against one unseen answer. *)
Definition branch_unseen (constraint : EventUnseenAnswer)
    (acc : working) (item : hypothesis * gset nat) : M World working :=
  let '(h, dealt) := item in
  let constraintset : gset nat :=
    {[ unseen_character constraint; unseen_room constraint;
       unseen_weapon constraint ]} in
  shower <- unseen_shower constraint ;;
  hand <- lift (hand_of h shower) ;;
  if negb (size (constraintset ∩ hand) =? 0) then ret (acc ++ [item])
  else
    held <- get nCardsHeld ;;
    capacity <- orraise IndexError (held !! shower) ;;
    if size hand <? capacity then
      fs <- get forbiddenSets ;;
      forbiddenHere <- orraise IndexError (fs !! shower) ;;
      let allowedCards := constraintset ∖ dealt ∖ forbiddenHere in
      ret (acc ++ map (fun chosenCard =>
                         (set_hand h shower (hand ∪ {[chosenCard]}),
                          dealt ∪ {[chosenCard]}))
                      (elements allowedCards))
    else ret acc.

Definition branch_unseen_all (items : working) (constraint : EventUnseenAnswer)
    : M World working :=
  newItems <- foldM (branch_unseen constraint) [] items ;;
  put set_hypotheses (map fst newItems) ;;;
  ret newItems.

(** The values the loop variables [murderer], [murderRoom], [murderWeap] of
    step 3 are left with ([None]: never bound). *)
Definition leftovers : Type := (option nat * option nat * option nat)%type.

Definition rebind (xs : list nat) (old : option nat) : option nat :=
  match last xs with Some x => Some x | None => old end.

(** Step 3, one hypothesis: every murder scenario still open to it. *)
Definition branch_murder (acc : working * leftovers)
    (item : hypothesis * gset nat) : M World (working * leftovers) :=
  let '(newItems, (murderer, murderRoom, murderWeap)) := acc in
  let '(h, dealt) := item in
  let '(ixChar, ixRoom, ixWeap) := envelope h in
  fs <- get forbiddenSets ;;
  charSet <-
    (if (0 <=? ixChar)%Z
     then c <- orraise IndexError (game.CHARS !! Z.to_nat ixChar) ;; ret [c]
     else forbiddenEnv <- orraise IndexError (last fs) ;;
          ret (elements (game.ALLOWEDCHARS ∖ dealt ∖ forbiddenEnv))) ;;
  roomSet <-
    (if (0 <=? ixRoom)%Z
     then c <- orraise IndexError (game.ROOMS !! Z.to_nat ixRoom) ;; ret [c]
     else forbiddenEnv <- orraise IndexError (last fs) ;;
          ret (elements (game.ALLOWEDROOMS ∖ dealt ∖ forbiddenEnv))) ;;
  weapSet <-
    (if (0 <=? ixWeap)%Z
     then c <- orraise IndexError (game.WEAPS !! Z.to_nat ixWeap) ;; ret [c]
     else forbiddenEnv <- orraise IndexError (last fs) ;;
          ret (elements (game.ALLOWEDWEAPS ∖ dealt ∖ forbiddenEnv))) ;;
  branches <- foldM (fun out triple =>
      let '(m, r, w) := triple in
      im <- orraise KeyError (game.CHARINDEX !! m) ;;
      ir <- orraise KeyError (game.ROOMINDEX !! r) ;;
      iw <- orraise KeyError (game.WEAPINDEX !! w) ;;
      ret (out ++ [(set_envelope h (im, ir, iw), dealt ∪ {[m; r; w]})]))
    []
    (m ← charSet; r ← roomSet; w ← weapSet; [(m, r, w)]) ;;
  let murderer' := rebind charSet murderer in
  let murderRoom' := if charSet is [] then murderRoom else rebind roomSet murderRoom in
  let murderWeap' :=
    if charSet is [] then murderWeap
    else if roomSet is [] then murderWeap else rebind weapSet murderWeap in
  ret (newItems ++ branches, (murderer', murderRoom', murderWeap')).

(** Step 4, one hypothesis in one round: a complete deal is kept; else one
    undealt card goes to every player of [range(1,nPlayers)] who has room
    for it and is not forbidden it. *)
Definition branch_card (acc : working * nat) (item : hypothesis * gset nat)
    : M World (working * nat) :=
  let '(newItems, hypsComplete) := acc in
  let '(h, dealt) := item in
  if bool_decide (dealt = game.ALLOWEDCARDS) then
    ret (newItems ++ [item], S hypsComplete)
  else
    dealtCard <- orraise KeyError (head (elements (game.ALLOWEDCARDS ∖ dealt))) ;;
    n <- get nPlayers ;;
    held <- get nCardsHeld ;;
    fs <- get forbiddenSets ;;
    destinations <- foldM (fun dests ixPlayer =>
        hand <- lift (hand_of h ixPlayer) ;;
        capacity <- orraise IndexError (held !! ixPlayer) ;;
        if size hand <? capacity then
          forbiddenHere <- orraise IndexError (fs !! ixPlayer) ;;
          if bool_decide (dealtCard ∈ forbiddenHere) then ret dests
          else ret (dests ++ [ixPlayer])
        else ret dests)
      [] (seq 1 (n - 1)) ;;
    branches <- foldM (fun out ixPlayer =>
        hand <- lift (hand_of h ixPlayer) ;;
        ret (out ++ [(set_hand h ixPlayer (hand ∪ {[dealtCard]}),
                      dealt ∪ {[dealtCard]})]))
      [] destinations ;;
    ret (newItems ++ branches, hypsComplete).

(** [while hypsComplete < len(self.hypotheses)]. *)
Fixpoint deal_remaining (fuel : nat) (hypsComplete : nat) (items : working)
    : M World working :=
  if hypsComplete <? length items then
    match fuel with
    | 0 => fun w => (OutOfFuel, w)
    | S fuel' =>
        r <- foldM branch_card ([], 0) items ;;
        put set_hypotheses (map fst (fst r)) ;;;
        deal_remaining fuel' (snd r) (fst r)
    end
  else ret items.

(** The closing [filter] against the wrong accusations compares an envelope
    (a triple of indices) with the leftover loop variables of step 3 (card
    identifiers); an unbound variable is a [NameError] at the first
    hypothesis tested. *)
Definition trim_wrong (left : leftovers) (wrongAcc : EventAccusation) : M World unit :=
  hyps <- get hypotheses ;;
  match hyps with
  | [] => ret tt
  | _ :: _ =>
      match left with
      | (Some murderer, Some murderRoom, Some murderWeap) =>
          put set_hypotheses
            (List.filter (fun x =>
               negb (bool_decide (envelope x =
                 (Z.of_nat murderer, Z.of_nat murderRoom, Z.of_nat murderWeap))))
               hyps)
      | _ => raise NameError
      end
  end.

Definition enumerate_hypotheses (fuel : nat) : M World unit :=
  n <- get nPlayers ;;
  put set_hypotheses [ {| hands := repeat ∅ n; envelope := (-1, -1, -1)%Z |} ] ;;;
  dealt <- foldM deal_known ∅ (elements game.ALLOWEDCARDS) ;;
  hyps <- get hypotheses ;;
  unseen <- get logUnseenAnswers ;;
  items <- foldM branch_unseen_all (map (fun h => (h, dealt)) hyps) unseen ;;
  r <- foldM branch_murder ([], (None, None, None)) items ;;
  put set_hypotheses (map fst (fst r)) ;;;
  items <- deal_remaining fuel 0 (fst r) ;;
  wrong <- get logIncorrectAccusations ;;
  forM_ wrong (trim_wrong (snd r)) ;;;
  put set_hypCountByScenario posterior.zeros ;;;
  put set_hypCountByCharacter (tensor.zeros1 game.NCHARS) ;;;
  put set_hypCountByRoom (tensor.zeros1 game.NROOMS) ;;;
  put set_hypCountByWeapon (tensor.zeros1 game.NWEAPS) ;;;
  hyps <- get hypotheses ;;
  forM_ hyps (fun h => count_hypothesis h 1) ;;;
  put set_areHypothesesEnumerable true.

(* ################################################################# *)
(** * Detective.rebuildhypotheses *)

(** The top-up of the sample: [HYPSAMPLECOUNT - len(self.hypotheses)]
    generated hypotheses are appended and counted. ([np.zeros] of a
    negative length, for the attempts, is a [ValueError].) *)
Definition resample_hypotheses (fuel : nat) : M World unit :=
  target <- get HYPSAMPLECOUNT ;;
  hyps <- get hypotheses ;;
  (if (target - Z.of_nat (length hyps) <? 0)%Z then raise ValueError else ret tt) ;;;
  forM_ (seq 0 (Z.to_nat (target - Z.of_nat (length hyps))))
    (fun ixGen =>
       result <- genfeasiblehypothesis fuel ;;
       hyps <- get hypotheses ;;
       put set_hypotheses (hyps ++ [fst result]) ;;;
       count_hypothesis (fst result) 1).

Definition rebuildhypotheses (fuel : nat) : M World unit :=
  enumerable <- get areHypothesesEnumerable ;;
  if enumerable : bool then ret tt
  else
    nHypsApprox <- estimate_hypotheses ;;
    thresh <- get THRESHAPPROXHYPCOUNT ;;
    (if (nHypsApprox <? thresh)%Z then enumerate_hypotheses fuel
     else resample_hypotheses fuel) ;;;
    updatestats.


#[local] Open Scope monad_scope.

(* ################################################################# *)
(** * The event functions *)

(** [log[-1]]. *)
Definition most_recent {A} (log : list A) : M World A :=
  orraise IndexError (last log).

(** One card of a pass: forbidden to the actor, in the matrix and in the
    set, then the envelope closure of its family. *)
Definition forbid_passed (actor card : nat) (family : gset nat) : M World unit :=
  forbidden_set actor card true ;;;
  forbiddenSets_add actor card ;;;
  close_family card family.

(** [Detective.event_pass]. *)
Definition event_pass (fuel : nat) (character room weapon player : option nat)
    : M World unit :=
  event <-
    match character, room, weapon with
    | Some c, Some r, Some w =>
        turn <- get ixTurn ;;
        let event := mkEventPass turn (default 0 player) c r w in
        log <- get logPasses ;;
        put set_logPasses (log ++ [event]) ;;;
        ret event
    | _, _, _ => log <- get logPasses ;; most_recent log
    end ;;
  forbid_passed (pass_actor event) (pass_character event) game.ALLOWEDCHARS ;;;
  forbid_passed (pass_actor event) (pass_room event) game.ALLOWEDROOMS ;;;
  forbid_passed (pass_actor event) (pass_weapon event) game.ALLOWEDWEAPS ;;;
  let disallowed : gset nat :=
    {[ pass_character event; pass_room event; pass_weapon event ]} in
  reduce_hypotheses (fun h =>
      match hand_of h (pass_actor event) with
      | Ok hand => Ok (size (disallowed ∩ hand) =? 0)
      | Raise e => Raise e
      | OutOfFuel => OutOfFuel
      end) ;;;
  rebuildhypotheses fuel ;;;
  updatestats.

(** [Detective.event_seenresponse]. Of [shower] and [viewer], the one left
    out is the Detective, player 0. *)
Definition event_seenresponse (fuel : nat) (card shower viewer : option nat)
    : M World unit :=
  event <-
    match card, shower, viewer with
    | None, _, _ | _, None, None => log <- get logSeenAnswers ;; most_recent log
    | Some c, _, _ =>
        turn <- get ixTurn ;;
        let event := mkEventSeenAnswer turn (default 0 shower) (default 0 viewer) c in
        log <- get logSeenAnswers ;;
        put set_logSeenAnswers (log ++ [event]) ;;;
        ret event
    end ;;
  n <- get nPlayers ;;
  forM_ (seq 0 (n + 1)) (fun ixPlayer =>
      if negb (ixPlayer =? seen_actor event) then
        forbidden_set ixPlayer (seen_card event) true ;;;
        forbiddenSets_add ixPlayer (seen_card event)
      else
        forbidden_set ixPlayer (seen_card event) false ;;;
        forbiddenSets_discard ixPlayer (seen_card event)) ;;;
  reduce_hypotheses (fun h =>
      match getitem h (seen_actor event) with
      | Some it => Ok (contains (seen_card event) it)
      | None => Raise IndexError
      end) ;;;
  rebuildhypotheses fuel ;;;
  updatestats.

(** [Detective.event_unseenresponse]. Without arguments the event is taken
    from [self.logPasses]; of the event only the actor and the three cards
    are read afterwards. *)
Definition event_unseenresponse (fuel : nat)
    (character room weapon shower viewer : option nat) : M World unit :=
  event <-
    match character, room, weapon, shower, viewer with
    | Some c, Some r, Some w, Some s, _ =>
        turn <- get ixTurn ;;
        let event := mkEventUnseenAnswer turn s (default 0 viewer) c r w in
        log <- get logUnseenAnswers ;;
        put set_logUnseenAnswers (log ++ [event]) ;;;
        ret (unseen_actor event, unseen_character event, unseen_room event,
             unseen_weapon event)
    | Some c, Some r, Some w, None, Some v =>
        turn <- get ixTurn ;;
        let event := mkEventUnseenAnswer turn 0 v c r w in
        log <- get logUnseenAnswers ;;
        put set_logUnseenAnswers (log ++ [event]) ;;;
        ret (unseen_actor event, unseen_character event, unseen_room event,
             unseen_weapon event)
    | _, _, _, _, _ =>
        log <- get logPasses ;;
        event <- most_recent log ;;
        ret (pass_actor event, pass_character event, pass_room event,
             pass_weapon event)
    end ;;
  let '(actor, character, room, weapon) := event in
  let present : gset nat := {[ character; room; weapon ]} in
  reduce_hypotheses (fun h =>
      match hand_of h actor with
      | Ok hand => Ok (negb (size (present ∩ hand) =? 0))
      | Raise e => Raise e
      | OutOfFuel => OutOfFuel
      end) ;;;
  rebuildhypotheses fuel ;;;
  updatestats.

(** [AccusationRecord(...)]: the module binds the names [EventMove],
    [EventSuggestion], [EventPass], [EventAccusation], [EventUnseenAnswer]
    and [EventSeenAnswer], and no name [AccusationRecord] (nor is it a
    builtin), so evaluating the call raises [NameError]. *)
Definition AccusationRecord (turn character room weapon player : nat)
    : M World EventAccusation :=
  raise NameError.

(** [self.playersOusted[player] = True]; with [player = None] numpy reads
    the index as a new axis and the assignment covers the whole array. *)
Definition oust (player : option nat) : M World unit :=
  ousted <- get playersOusted ;;
  match player with
  | None => put set_playersOusted (map (fun _ => true) ousted)
  | Some p =>
      if p <? length ousted then put set_playersOusted (<[p := true]> ousted)
      else raise IndexError
  end.

(** [game.CHARINDEX[character]] for an argument that may be [None]. *)
Definition index_of (table : gmap nat Z) (card : option nat) : M World Z :=
  orraise KeyError (card ≫= (table !!.)).

(** [Detective.event_accusationwrong]. After the event has been chosen, the
    body goes on with the arguments [player], [character], [room] and
    [weapon], not with the fields of [event]. *)
Definition event_accusationwrong (fuel : nat)
    (character room weapon player : option nat) : M World unit :=
  playerAfter <-
    match character, room, weapon with
    | Some c, Some r, Some w =>
        turn <- get ixTurn ;;
        event <- AccusationRecord turn c r w (default 0 player) ;;
        log <- get logIncorrectAccusations ;;
        put set_logIncorrectAccusations (log ++ [event]) ;;;
        ret (Some (default 0 player))
    | _, _, _ =>
        log <- get logIncorrectAccusations ;;
        event <- most_recent log ;;
        ret player
    end ;;
  oust playerAfter ;;;
  ixChar <- index_of game.CHARINDEX character ;;
  ixRoom <- index_of game.ROOMINDEX room ;;
  ixWeap <- index_of game.WEAPINDEX weapon ;;
  let accusation := (ixChar, ixRoom, ixWeap) in
  reduce_hypotheses (fun thisHyp =>
      Ok (negb (bool_decide (envelope thisHyp = accusation)))) ;;;
  rebuildhypotheses fuel ;;;
  updatestats.

(** The end of a turn in [Detective.run]: the hot seat moves on and skips
    the players knocked out. *)
Fixpoint skip_ousted (fuel : nat) : M World unit :=
  seat <- get ixHotSeat ;;
  ousted <- get playersOusted ;;
  out <- orraise IndexError (ousted !! seat) ;;
  if out : bool then
    match fuel with
    | 0 => fun w => (OutOfFuel, w)
    | S fuel' =>
        n <- get nPlayers ;;
        put set_ixHotSeat ((seat + 1) mod n) ;;;
        skip_ousted fuel'
    end
  else ret tt.

Definition next_turn (fuel : nat) : M World unit :=
  turn <- get ixTurn ;;
  put set_ixTurn (turn + 1) ;;;
  seat <- get ixHotSeat ;;
  n <- get nPlayers ;;
  put set_ixHotSeat ((seat + 1) mod n) ;;;
  skip_ousted fuel.


#[local] Open Scope monad_scope.

(* ################################################################# *)
(** * Detective.answersuggestion *)

(** [cards.index(card)]. *)
Definition index_in (cards : list nat) (card : nat) : option nat :=
  fst <$> list_find (fun c => c = card) cards.

(** [np.argmax]: the first position of the largest entry. *)
Definition argmax (xs : list Z) : nat :=
  match xs with
  | [] => 0
  | x :: rest =>
      fst (fst (fold_left (fun '(best, bestVal, i) v =>
                             if (bestVal <? v)%Z then (i, v, S i) else (best, bestVal, S i))
                          rest (0, x, 1)))
  end.

(** [self.myCardsShownTo[suggester-1,ix]]. *)
Definition shown_to (shownTo : list (list bool)) (suggester ix : nat) : option bool :=
  row ← np.index (length shownTo) (Z.of_nat suggester - 1);
  flags ← shownTo !! row;
  flags !! ix.

(** The card shown: one already shown to this suggester if there is one,
    and of the candidates the one shown most often so far. Then the event
    of having shown it is recorded. *)
Definition show_card (fuel : nat) (candidates : list nat) (mark : bool)
    (suggester : nat) : M World nat :=
  counts <- get myCardsShownCounts ;;
  candidateCounts <- foldM (fun out ix =>
      c <- orraise IndexError (counts !! ix) ;; ret (out ++ [c])) [] candidates ;;
  ixCard <- orraise IndexError (candidates !! argmax candidateCounts) ;;
  (if mark : bool then
     shownTo <- get myCardsShownTo ;;
     row <- orraise IndexError (np.index (length shownTo) (Z.of_nat suggester - 1)) ;;
     flags <- orraise IndexError (shownTo !! row) ;;
     if ixCard <? length flags
     then put set_myCardsShownTo (<[row := <[ixCard := true]> flags]> shownTo)
     else raise IndexError
   else ret tt) ;;;
  counts <- get myCardsShownCounts ;;
  c <- orraise IndexError (counts !! ixCard) ;;
  put set_myCardsShownCounts (<[ixCard := (c + 1)%Z]> counts) ;;;
  cards <- get myCards ;;
  card <- orraise IndexError (cards !! ixCard) ;;
  event_seenresponse fuel (Some card) (Some 0) (Some suggester) ;;;
  cards <- get myCards ;;
  orraise IndexError (cards !! ixCard).

Definition answersuggestion (fuel : nat) (character room weapon suggester : nat)
    : M World nat :=
  mine <- get myCardSet ;;
  cards <- get myCards ;;
  shownTo <- get myCardsShownTo ;;
  let setShowables : gset nat := mine ∩ {[ character; room; weapon ]} in
  let showables := elements setShowables in
  ixShowables <- foldM (fun out card =>
      ix <- orraise ValueError (index_in cards card) ;; ret (out ++ [ix]))
    [] showables ;;
  ixShownShowables <- foldM (fun out ix =>
      shown <- orraise IndexError (shown_to shownTo suggester ix) ;;
      if shown : bool then ret (out ++ [ix]) else ret out)
    [] ixShowables ;;
  if negb (length ixShowables =? 0) then
    if negb (length ixShownShowables =? 0)
    then show_card fuel ixShownShowables false suggester
    else show_card fuel ixShowables true suggester
  else
    event_pass fuel (Some character) (Some room) (Some weapon) (Some 0) ;;;
    ret game.NULLCARD.

(* ################################################################# *)
(** * Detective.initialise *)

(** What [hook_collectgamesetup] returns. *)
Record gamesetup : Type := mkGamesetup {
  setup_nPlayers : nat;
  setup_ixDealer : nat;
  setup_playerCharCards : list nat;
  setup_playerCardHeldCounts : list nat;
  setup_myCards : list nat
}.

(** [tuple(game.CHARINDEX[card] for card in playerCharCards)], stored
    before its length is compared with [nPlayers]; [TypeError] when the
    argument is [None] or of another length, [KeyError] for a card that
    is no character. *)
Definition parse_playerCharCards (playerCharCards : option (list nat)) : M World unit :=
  cards <- orraise TypeError playerCharCards ;;
  ixs <- foldM (fun out card =>
      ix <- orraise KeyError (game.CHARINDEX !! card) ;; ret (out ++ [ix])) [] cards ;;
  put set_playerCharIxs ixs ;;;
  n <- get nPlayers ;;
  if length ixs =? n then ret tt else raise TypeError.

(** [self.ixDealer = int(ixDealer)], then the range check. *)
Definition parse_ixDealer (ixDealer : option nat) : M World unit :=
  dealer <- orraise TypeError ixDealer ;;
  put set_ixDealer dealer ;;;
  n <- get nPlayers ;;
  if n <=? dealer then raise ValueError else ret tt.

(** The branch taken when a synthetic deal is given. *)
Definition parse_scenario (scenario : list (list nat))
    (playerCharCards : option (list nat)) (ixDealer : option nat) : M World unit :=
  put set_DBGSCENARIO (Some (map list_to_set scenario)) ;;;
  (if forallb (forallb (fun card => card <? game.NCARDS)) scenario
   then put set_DBGSCENARIOREMINDER true
   else raise ValueError) ;;;
  let dealt : gset nat := ⋃ (map list_to_set scenario) in
  (if bool_decide (dealt = game.ALLOWEDCARDS) then ret tt else raise ValueError) ;;;
  murder <- orraise IndexError (last scenario) ;;
  (if size (list_to_set murder : gset nat) =? 3 then ret tt else raise TypeError) ;;;
  let murderChars := length (List.filter (fun card => bool_decide (card ∈ game.ALLOWEDCHARS)) murder) in
  let murderRooms := length (List.filter (fun card => bool_decide (card ∈ game.ALLOWEDROOMS)) murder) in
  let murderWeaps := length (List.filter (fun card => bool_decide (card ∈ game.ALLOWEDWEAPS)) murder) in
  (if (murderChars =? 1) && (murderRooms =? 1) && (murderWeaps =? 1)
   then ret tt else raise ValueError) ;;;
  let n := length scenario - 1 in
  put set_nPlayers n ;;;
  (if (n <? 2) || (6 <? n) then raise ValueError else ret tt) ;;;
  put set_nCardsHeld (map length (removelast scenario)) ;;;
  put set_myCards (default [] (head scenario)) ;;;
  put set_myCardSet (list_to_set (default [] (head scenario))) ;;;
  parse_playerCharCards playerCharCards ;;;
  parse_ixDealer ixDealer.

(** The branch taken when the setup is given as arguments. *)
Definition parse_arguments (nPlayersArg : nat) (playerCharCards : option (list nat))
    (ixDealer : option nat) (playerCardHeldCounts myCardsArg : option (list nat))
    : M World unit :=
  put set_DBGSCENARIO None ;;;
  put set_DBGSCENARIOREMINDER false ;;;
  put set_nPlayers nPlayersArg ;;;
  (if (nPlayersArg <? 2) || (6 <? nPlayersArg) then raise ValueError else ret tt) ;;;
  counts <- orraise TypeError playerCardHeldCounts ;;
  put set_nCardsHeld counts ;;;
  (if length counts =? nPlayersArg then ret tt else raise TypeError) ;;;
  (if forallb (fun entry => 0 <? entry) counts then ret tt else raise ValueError) ;;;
  mine <- orraise TypeError myCardsArg ;;
  put set_myCards mine ;;;
  put set_myCardSet (list_to_set mine) ;;;
  first <- orraise IndexError (head counts) ;;
  (if size (list_to_set mine : gset nat) =? first then ret tt else raise TypeError) ;;;
  (if forallb (fun card => bool_decide (card ∈ game.ALLOWEDCARDS))
              (elements (list_to_set mine : gset nat))
   then ret tt else raise ValueError) ;;;
  parse_playerCharCards playerCharCards ;;;
  parse_ixDealer ixDealer.

(** The branch taken without arguments: the setup is what the user
    interface collected, stored unchecked. *)
Definition parse_collected (collected : gamesetup) : M World unit :=
  put set_DBGSCENARIO None ;;;
  put set_DBGSCENARIOREMINDER false ;;;
  put set_nPlayers (setup_nPlayers collected) ;;;
  put set_ixDealer (setup_ixDealer collected) ;;;
  ixs <- foldM (fun out card =>
      ix <- orraise KeyError (game.CHARINDEX !! card) ;; ret (out ++ [ix]))
    [] (setup_playerCharCards collected) ;;
  put set_playerCharIxs ixs ;;;
  put set_nCardsHeld (setup_playerCardHeldCounts collected) ;;;
  put set_myCards (setup_myCards collected) ;;;
  put set_myCardSet (list_to_set (setup_myCards collected)).

(** The first mover: the first character of the start order that some
    player plays. *)
Definition first_mover (ixs : list Z) (old : nat) : nat :=
  default old
    (head (omap (fun ixChar => fst <$> list_find (fun i => i = Z.of_nat ixChar) ixs)
                game.CHARIXSTARTORDER)).

(** The part of [initialise] below the three branches: the per-game state
    is reset and the hypotheses are built. *)
Definition start_game (fuel : nat) : M World unit :=
  put set_charLocations game.CHARSTARTNODES ;;;
  put set_hypotheses [] ;;;
  put set_areHypothesesEnumerable false ;;;
  put set_hasEnteredRoomYet false ;;;
  put set_canSuggestInCurrentRoom true ;;;
  put set_ixTurn 0 ;;;
  put set_logMoves [] ;;;
  put set_logSuggestions [] ;;;
  put set_logPasses [] ;;;
  put set_logUnseenAnswers [] ;;;
  put set_logSeenAnswers [] ;;;
  put set_logIncorrectAccusations [] ;;;
  put set_hypCountByCharacter (tensor.zeros1 game.NCHARS) ;;;
  put set_hypCountByRoom (tensor.zeros1 game.NROOMS) ;;;
  put set_hypCountByWeapon (tensor.zeros1 game.NWEAPS) ;;;
  put set_hypCountByScenario posterior.zeros ;;;
  put set_isGameOver false ;;;
  n <- get nPlayers ;;
  cards <- get myCards ;;
  mine <- get myCardSet ;;
  put set_playersOusted (repeat false n) ;;;
  put set_charLocations game.CHARSTARTNODES ;;;
  (if n =? 0 then raise ValueError else ret tt) ;;;
  put set_myCardsShownTo (repeat (repeat false (length cards)) (n - 1)) ;;;
  put set_myCardsShownCounts (repeat 0%Z (length cards)) ;;;
  ixs <- get playerCharIxs ;;
  seat <- get ixHotSeat ;;
  put set_ixHotSeat (first_mover ixs seat) ;;;
  put set_forbidden (repeat (repeat false game.NCARDS) (n + 1)) ;;;
  put set_forbiddenSets (repeat ∅ (n + 1)) ;;;
  forM_ (elements mine) (fun cardid =>
      forM_ (seq 1 n) (fun ixPlayer => forbidden_set ixPlayer cardid true) ;;;
      forM_ (seq 1 n) (fun ixPlayer => forbiddenSets_add ixPlayer cardid)) ;;;
  forM_ (elements game.ALLOWEDCARDS) (fun cardid =>
      if bool_decide (cardid ∈ mine) then forbidden_set 0 cardid false
      else forbidden_set 0 cardid true ;;; forbiddenSets_add 0 cardid) ;;;
  rebuildhypotheses fuel ;;;
  put set_isInitialised true.

Definition initialise (fuel : nat) (collected : gamesetup)
    (nPlayersArg : option nat) (playerCharCards : option (list nat))
    (ixDealer : option nat) (playerCardHeldCounts myCardsArg : option (list nat))
    (scenario : option (list (list nat))) : M World unit :=
  match scenario, nPlayersArg, playerCharCards with
  | Some sc, _, _ => parse_scenario sc playerCharCards ixDealer
  | None, Some n, Some _ =>
      parse_arguments n playerCharCards ixDealer playerCardHeldCounts myCardsArg
  | None, _, _ => parse_collected collected
  end ;;;
  start_game fuel.


(* ################################################################# *)
(** * Specification vocabulary *)

(** The integer that a binary64 float stands for, when it stands for one. *)
Definition integer_value (x : float) : option Z :=
  match Prim2SF x with
  | S754_zero _ => Some 0%Z
  | S754_finite s m e =>
      let z := if s then Zneg m else Zpos m in
      if (0 <=? e)%Z then Some (z * 2 ^ e)%Z
      else if (Zpos m mod 2 ^ (- e) =? 0)%Z then Some (z / 2 ^ (- e))%Z
      else None
  | _ => None
  end.

(** An array of shape [a x b x c]. *)
Definition shaped (a b c : nat) (t : tensor3) : Prop :=
  length t = a ∧
  Forall (fun plane => length plane = b ∧ Forall (fun row => length row = c) plane) t.

(** The shape of the scenario counts. *)
Abbreviation cube := (shaped game.NCHARS game.NROOMS game.NWEAPS).

(** The real value of one cell of [-p*log(p)] for the count [c] out of
    [N], with [0*log(0) = 0]. *)
Definition xlogx_real (N c : Z) : R :=
  if (0 <? c)%Z then (- (IZR c / IZR N) * ln (IZR c / IZR N))%R else 0%R.

Definition Rsum (xs : list R) : R := foldr Rplus 0%R xs.

Definition entropy_real (t : tensor3) (N : Z) : R :=
  Rsum (map (fun plane =>
    Rsum (map (fun row => Rsum (map (xlogx_real N) row)) plane)) t).


(** The indices of an envelope lie inside the count arrays. *)
Definition envelope_in_range (e : Z * Z * Z) : Prop :=
  let '(ixChar, ixRoom, ixWeap) := e in
  (0 <= ixChar < Z.of_nat game.NCHARS)%Z ∧
  (0 <= ixRoom < Z.of_nat game.NROOMS)%Z ∧
  (0 <= ixWeap < Z.of_nat game.NWEAPS)%Z.

(** A hypothesis of a game of [n] players. *)
Definition hypothesis_of (n : nat) (h : hypothesis) : Prop :=
  length (hands h) = n ∧ envelope_in_range (envelope h).

(** No card is in two hands. *)
Definition hands_disjoint (hs : list (gset nat)) : Prop :=
  ∀ i j s t, i ≠ j → hs !! i = Some s → hs !! j = Some t → s ## t.

(** The hands and the envelope of a hypothesis partition the card set:
    no card is in two hands, none of the three envelope cards is in a
    hand, and every card is in a hand or in the envelope. The envelope,
    a triple of in-range indices, is one character, one room and one
    weapon. *)
Definition is_partition (h : hypothesis) : Prop :=
  envelope_in_range (envelope h) ∧
  hands_disjoint (hands h) ∧
  (∀ s, s ∈ hands h → s ## envelope_cards (envelope h)) ∧
  ⋃ (hands h) ∪ envelope_cards (envelope h) = game.ALLOWEDCARDS.

(** ** Decision procedures, for concrete pools *)

#[global] Instance envelope_in_range_dec e : Decision (envelope_in_range e).
Proof. destruct e as [[a b] c]. unfold envelope_in_range. apply _. Defined.

#[global] Instance hypothesis_of_dec n h : Decision (hypothesis_of n h).
Proof. unfold hypothesis_of. apply _. Defined.

Definition hands_disjointb (hs : list (gset nat)) : bool :=
  forallb (fun i =>
    forallb (fun j =>
      (i =? j) ||
      match hs !! i, hs !! j with
      | Some s, Some t => bool_decide (s ## t)
      | _, _ => true
      end) (seq 0 (length hs))) (seq 0 (length hs)).

(** ** Setup arguments of [initialise] *)










(** ** Total correctness of the methods *)

(** From every state of [P] the computation returns, with a value and a
    state of [Q]. *)
Definition total {A} (P : World → Prop) (m : M World A) (Q : A → World → Prop) : Prop :=
  ∀ w, P w → ∃ a w', m w = (Ok a, w') ∧ Q a w'.

(** From every state of [P] the computation comes, without raising, to
    run [rest] from a state of [R]; its outcome is that of [rest] there. *)
Definition leads {A} (P : World → Prop) (m rest : M World A) (R : World → Prop) : Prop :=
  ∀ w, P w → ∃ w1, m w = rest w1 ∧ R w1.

(** The constraints of [d] already say that the Detective holds [card]:
    the card is forbidden to every other player and to the envelope, in the
    matrix and in the sets, and not to the Detective. *)
Definition knows_own (d : Detective) (card : nat) : Prop :=
  ∀ p, p < nPlayers d + 1 →
    forbidden_at (forbidden d) p card = Some (negb (p =? 0)) ∧
    ∃ s, forbiddenSets d !! p = Some s ∧ (card ∈ s ↔ p ≠ 0).

(** [knows_own], decided. *)
Definition knows_ownb (d : Detective) (card : nat) : bool :=
  forallb (fun p =>
      bool_decide (forbidden_at (forbidden d) p card = Some (negb (p =? 0))) &&
      match forbiddenSets d !! p with
      | Some s => bool_decide (card ∈ s ↔ p ≠ 0)
      | None => false
      end)
    (seq 0 (nPlayers d + 1)).

(** The constraints of [d] already say that the Detective does not hold
    [card], and, if no player can hold it, that the envelope holds no
    other card of its family. *)
Definition knows_absent (d : Detective) (card : nat) (family : gset nat) : Prop :=
  forbidden_at (forbidden d) 0 card = Some true ∧
  (∃ s, forbiddenSets d !! 0 = Some s ∧ card ∈ s) ∧
  (forallb (fun flag : bool => flag) (column (forbidden d) (nPlayers d) card) = true →
   ∀ other, other ∈ family → other ≠ card →
     forbidden_at (forbidden d) (nPlayers d) other = Some true ∧
     ∃ s, forbiddenSets d !! nPlayers d = Some s ∧ other ∈ s).

(** The Detective's answer to the suggestion tells its constraints nothing
    new. *)
Definition settled (d : Detective) (character room weapon : nat) : Prop :=
  (∀ card, card ∈ myCardSet d ∩ {[ character; room; weapon ]} → knows_own d card) ∧
  (myCardSet d ∩ {[ character; room; weapon ]} = ∅ →
   knows_absent d character game.ALLOWEDCHARS ∧
   knows_absent d room game.ALLOWEDROOMS ∧
   knows_absent d weapon game.ALLOWEDWEAPS).

(** What the processing of a pass or of a shown card keeps of the
    Detective [like], up to the rebuild of the pool: the number [n] of
    players, the mode, the random tape, the Detective's cards, the two
    logs, the dimensions of the forbidden matrix and the number of
    forbidden sets, that every hypothesis deals the Detective the cards
    [mine], the pool, the parameters of the rebuild, and, where [pinned],
    the constraints. *)
Record stable (n : nat) (mode : bool) (tape : list nat) (cards : list nat)
    (mine : gset nat) (seen : list EventSeenAnswer) (passes : list EventPass)
    (pinned : Prop) (like : Detective) (w : World) : Prop :=
  mkStable {
    stable_nPlayers : nPlayers (fst w) = n;
    stable_enumerable : areHypothesesEnumerable (fst w) = mode;
    stable_myCards : myCards (fst w) = cards;
    stable_seen : logSeenAnswers (fst w) = seen;
    stable_passes : logPasses (fst w) = passes;
    stable_rows : length (forbidden (fst w)) = n + 1;
    stable_columns : Forall (fun row => length row = game.NCARDS) (forbidden (fst w));
    stable_sets : length (forbiddenSets (fst w)) = n + 1;
    stable_hands : Forall (fun h => head (hands h) = Some mine) (hypotheses (fst w));
    stable_tape : snd w = tape;
    stable_pool : hypotheses (fst w) = hypotheses like;
    stable_static :
      nCardsHeld (fst w) = nCardsHeld like ∧ ixDealer (fst w) = ixDealer like ∧
      HYPSAMPLECOUNT (fst w) = HYPSAMPLECOUNT like ∧
      THRESHAPPROXHYPCOUNT (fst w) = THRESHAPPROXHYPCOUNT like;
    stable_constraints :
      pinned → forbidden (fst w) = forbidden like ∧
               forbiddenSets (fst w) = forbiddenSets like
  }.

(** A Detective that can be asked by player [suggester], in either mode:
    the tuple and the set of its cards agree, the arrays of shown cards
    have one row per opponent and one column per card, the forbidden
    matrix and sets have a row per player and one for the envelope, and
    every hypothesis deals the Detective its own cards. *)
Definition answerable (suggester : nat) (d : Detective) : Prop :=
  list_to_set (myCards d) = myCardSet d ∧
  length (myCardsShownTo d) = nPlayers d - 1 ∧
  Forall (fun flags => length flags = length (myCards d)) (myCardsShownTo d) ∧
  length (myCardsShownCounts d) = length (myCards d) ∧
  length (forbidden d) = nPlayers d + 1 ∧
  Forall (fun row => length row = game.NCARDS) (forbidden d) ∧
  length (forbiddenSets d) = nPlayers d + 1 ∧
  Forall (fun h => head (hands h) = Some (myCardSet d)) (hypotheses d) ∧
  1 <= suggester < nPlayers d.


(* ################################################################# *)
(** * Partial correctness and the invariants of the pool *)

(** When the computation returns from the Detective [d], it has left the
    Detective as it was (the random tape apart) and its value is in [Q]. *)
Definition reads {A} (d : Detective) (m : M World A) (Q : A → Prop) : Prop :=
  ∀ tape a w', m (d, tape) = (Ok a, w') → fst w' = d ∧ Q a.

(** Whatever its outcome, the computation leaves the Detective as it was. *)
Definition keeps_detective {A} (m : M World A) : Prop :=
  ∀ w, fst (snd (m w)) = fst w.

(** When the computation returns from a Detective of [P], its value and
    the Detective it leaves are in [Q]. *)
Definition partial {A} (P : Detective → Prop) (m : M World A)
    (Q : A → Detective → Prop) : Prop :=
  ∀ w a w', P (fst w) → m w = (Ok a, w') → Q a (fst w').

(** The computation, when it returns, has kept the Detective in [P]. *)
Definition preserves {A} (P : Detective → Prop) (m : M World A) : Prop :=
  partial P m (fun _ => P).

(** A Detective with the pool of hypotheses and its statistics blanked:
    two Detectives with the same image agree on every other field. *)
Definition forget_pool (d : Detective) : Detective :=
  set_hypotheses [] (set_areHypothesesEnumerable false
    (set_hypCountByCharacter [] (set_hypCountByRoom [] (set_hypCountByWeapon []
      (set_hypCountByScenario [] (set_pScenario [] (set_scenarioEntropy NaN d))))))).

(** Two Detectives with the same players, hand sizes, dealer and
    forbidden matrix. *)
Definition alike (d d' : Detective) : Prop :=
  nPlayers d = nPlayers d' ∧ forbidden d = forbidden d' ∧
  nCardsHeld d = nCardsHeld d' ∧ ixDealer d = ixDealer d'.

(** The computation assigns nothing and draws nothing, and its outcome
    depends on the Detective through these four fields only. *)
Definition views {A} (m : M World A) : Prop :=
  ∀ w w', alike (fst w) (fst w') →
    fst (m w) = fst (m w') ∧ snd (m w) = w ∧ snd (m w') = w'.

(** ** The evidence and a deal it is true of *)

(** A seen answer is true of the hands [deal]: the player who showed the
    card holds it. *)
Definition seen_sound (deal : list (gset nat)) (c : EventSeenAnswer) : Prop :=
  ∃ hand, deal !! seen_actor c = Some hand ∧ seen_card c ∈ hand.

(** What the stochastic generator needs of the Detective: [deal] has a
    hand for each player, the first of them the Detective's own, every
    seen answer is true of [deal], and the unseen answers were given by
    players. *)
Record evidence (deal : list (gset nat)) (d : Detective) : Prop := mkEvidence {
  evidence_players : length deal = nPlayers d;
  evidence_mine : deal !! 0 = Some (myCardSet d);
  evidence_seen : Forall (seen_sound deal) (logSeenAnswers d);
  evidence_unseen : Forall (fun c => unseen_actor c < nPlayers d) (logUnseenAnswers d)
}.

(** ** A hypothesis under construction *)

(** The [n] hands and the unused last slot of the generator's working
    list, the cards [env] set aside for the envelope, and the cards dealt
    so far. *)
Definition dealing (n : nat) (env : gset nat) (hyp : list (gset nat))
    (dealt : gset nat) : Prop :=
  length hyp = n + 1 ∧ hyp !! n = Some ∅ ∧ hands_disjoint hyp ∧
  ⋃ hyp ## env ∧ ⋃ hyp ∪ env = dealt.

(** Steps 1 and 2 of the generator, for the hands [deal] and [n] players:
    every hand so far is part of the player's hand in [deal]. *)
Definition within (deal : list (gset nat)) (n : nat) (hyp : list (gset nat))
    (dealt : gset nat) : Prop :=
  length hyp = n + 1 ∧ hyp !! n = Some ∅ ∧
  (∀ i s, i < n → hyp !! i = Some s → ∃ t, deal !! i = Some t ∧ s ⊆ t) ∧
  ⋃ hyp = dealt.

(** ** What an event keeps of the pool *)

(** The hand of player [ix] in a hypothesis. *)
Definition hand_at (h : hypothesis) (ix : nat) : gset nat :=
  default ∅ (hands h !! ix).

(** The outcome of the test of one hypothesis, as a truth value. *)
Definition kept_by (keep : hypothesis → result bool) (h : hypothesis) : bool :=
  match keep h with Ok true => true | _ => false end.

(** The sums of the four count arrays. *)
Definition counted_sums (d : Detective) : Z * Z * Z * Z :=
  (tensor.total (hypCountByScenario d), tensor.sumZ (hypCountByCharacter d),
   tensor.sumZ (hypCountByRoom d), tensor.sumZ (hypCountByWeapon d)).

(** The four count arrays against the pool: the sum of each, less the
    number of hypotheses. *)
Definition surplus (d : Detective) : Z * Z * Z * Z :=
  let n := Z.of_nat (length (hypotheses d)) in
  ((tensor.total (hypCountByScenario d) - n)%Z,
   (tensor.sumZ (hypCountByCharacter d) - n)%Z,
   (tensor.sumZ (hypCountByRoom d) - n)%Z,
   (tensor.sumZ (hypCountByWeapon d) - n)%Z).

(** Four sums, each less [z]. *)
Definition less (t : Z * Z * Z * Z) (z : nat) : Z * Z * Z * Z :=
  let '(a, b, c, e) := t in
  ((a - Z.of_nat z)%Z, (b - Z.of_nat z)%Z, (c - Z.of_nat z)%Z, (e - Z.of_nat z)%Z).


(* ################################################################# *)
(** * Concrete games *)

Module example.

(** Nothing collected by the user interface. *)
Definition nothing : gamesetup := mkGamesetup 0 0 [] [] [].

(** The two-player deal of [TestSuggestionPosteriors] in
    [test/test_core.py]: [initialise(ixDealer=1, playerCharCards=(1,4),
    DBGSCENARIO=...)] on a fresh Detective. *)
Definition two_player_deal : list (list nat) :=
  [[0; 1; 4; 8; 10; 11; 15; 18; 20]; [3; 5; 6; 7; 12; 13; 14; 16; 19]; [2; 9; 17]].

Definition two_players_run : result unit * World :=
  initialise 30 nothing None (Some [1; 4]) (Some 1) None None
    (Some two_player_deal) (Detective_defaults, []).

Definition two_players : Detective := fst (snd two_players_run).



(** The two-player game after the Detective has passed on the suggestion
    (2, 9, 17), and then after player 1 has answered the suggestion
    (3, 12, 16) without the Detective seeing the card. *)
Definition after_pass_run : result unit * World :=
  event_pass 30 (Some 2) (Some 9) (Some 17) (Some 0) (snd two_players_run).

Definition after_unseen_run : result unit * World :=
  event_unseenresponse 30 (Some 3) (Some 12) (Some 16) (Some 1) (Some 0)
    (snd after_pass_run).

(** A three-player game late in its course. The Detective holds cards
    1, 2, 7, 8, 15 and 16. Player 1 is known to hold 4, 10, 11 and 19 and
    player 2 to hold 5, 12, 13, 14 and 20; the murderer (3) and the
    murder room (9) are known; player 1 has passed on weapon 17 and
    player 2 on weapon 18. Three deals remain, which differ in who holds
    character 0 and room 6 and in the murder weapon (17 or 18). *)
Definition own_hand : gset nat := {[ 1; 2; 7; 8; 15; 16 ]}.

Definition deal_A : hypothesis :=
  {| hands := [own_hand; {[ 4; 10; 11; 19; 0; 18 ]}; {[ 5; 12; 13; 14; 20; 6 ]}];
     envelope := (3, 3, 2)%Z |}.
Definition deal_B : hypothesis :=
  {| hands := [own_hand; {[ 4; 10; 11; 19; 0; 6 ]}; {[ 5; 12; 13; 14; 20; 17 ]}];
     envelope := (3, 3, 3)%Z |}.
Definition deal_C : hypothesis :=
  {| hands := [own_hand; {[ 4; 10; 11; 19; 6; 18 ]}; {[ 5; 12; 13; 14; 20; 0 ]}];
     envelope := (3, 3, 2)%Z |}.

(** The count arrays of a pool, as [rebuildhypotheses] fills them. *)
Definition counted (hs : list hypothesis) (d : Detective) : Detective :=
  fst (snd (forM_ hs (fun h => count_hypothesis h 1) (d, []))).

Definition three_players : Detective :=
  counted [deal_A; deal_B; deal_C]
    (set_hypotheses [deal_A; deal_B; deal_C]
    (set_areHypothesesEnumerable true
    (set_myCardSet own_hand
    (set_myCards [1; 2; 7; 8; 15; 16]
    (set_nCardsHeld [6; 6; 6]
    (set_playersOusted [false; false; false]
    (set_nPlayers 3
    (set_isInitialised true Detective_defaults)))))))).

End example.

Module stochastic.

(** A four-player game that keeps a sample of three hypotheses
    ([HYPSAMPLECOUNT = 3] set on the object before [initialise]); the
    Detective holds the first hand of the deal. *)
Definition deal : list (list nat) :=
  [[0; 6; 7; 15; 16]; [1; 5; 8; 9; 17]; [2; 10; 11; 18]; [3; 12; 13; 19]; [4; 14; 20]].
Definition hands_dealt : list (gset nat) := map list_to_set (removelast deal).

(** The draws of the random module. *)
Definition tape : list nat :=
  map (fun i => (i * 37 + 11) mod 101) (seq 0 400).

Definition start_run : result unit * World :=
  initialise 30 example.nothing None (Some [0; 1; 2; 3]) (Some 0) None None
    (Some deal) (set_HYPSAMPLECOUNT 3 Detective_defaults, tape).

(** Player 2 then shows card 10 to the Detective. *)
Definition shown_run : result unit * World :=
  event_seenresponse 30 (Some 10) (Some 2) (Some 0) (snd start_run).

Definition shown : Detective := fst (snd shown_run).

End stochastic.


(* ################################################################# *)
(** * Properties of velma/game.py *)

(** ** [float] of an [int]

    The conversion is the rounding of the library's specification of
    binary64, [binary_normalize]; what follows relates its result to the
    integer: it is the integer itself below [2^53], within one unit of the
    53rd bit above, and out of range from [2^1024] on. *)

Section float_of_int.
Local Open Scope Z_scope.

Lemma digits2_pos_bounds (p : positive) :
  2 ^ (Zpos (digits2_pos p) - 1) <= Zpos p < 2 ^ Zpos (digits2_pos p).
Proof.
  induction p as [p IH|p IH|]; cbn [digits2_pos]; [| |by (cbn; lia)].
  all: rewrite Pos2Z.inj_succ;
    replace (Z.succ (Zpos (digits2_pos p)) - 1) with (Z.succ (Zpos (digits2_pos p) - 1)) by lia;
    rewrite !Z.pow_succ_r by lia; lia.
Qed.

Lemma digits2_pos_unique (p : positive) (n : Z) :
  2 ^ (n - 1) <= Zpos p < 2 ^ n -> Zpos (digits2_pos p) = n.
Proof.
  intros [Hlo Hhi]. pose proof (digits2_pos_bounds p) as [Hlo' Hhi'].
  assert (0 < n) as Hn.
  { destruct (Z.lt_trichotomy n 0) as [?|[->|?]]; [|cbn in Hhi; lia|done].
    rewrite Z.pow_neg_r in Hhi by lia. lia. }
  destruct (Z.lt_trichotomy (Zpos (digits2_pos p)) n) as [Hlt|[?|Hlt]]; [|done|].
  - assert (2 ^ Zpos (digits2_pos p) <= 2 ^ (n - 1)) by (apply Z.pow_le_mono_r; lia). lia.
  - assert (2 ^ n <= 2 ^ (Zpos (digits2_pos p) - 1)) by (apply Z.pow_le_mono_r; lia). lia.
Qed.


Lemma shr_1_m (r : shr_record) : 0 <= shr_m r -> shr_m (shr_1 r) = shr_m r / 2.
Proof.
  destruct r as [[|[p|p|]|p] b s]; cbn [shr_m shr_1]; intros H; try done.
  - apply Z.div_unique with (r := 1); lia.
  - apply Z.div_unique with (r := 0); lia.
Qed.

Lemma iter_pos_shr_1 (k : positive) (r : shr_record) :
  0 <= shr_m r -> shr_m (SpecFloat.iter_pos shr_1 k r) = shr_m r / 2 ^ Zpos k.
Proof.
  revert r. induction k as [k IH|k IH|]; intros r Hr; cbn [SpecFloat.iter_pos].
  - assert (0 <= shr_m (shr_1 r)) by (rewrite shr_1_m by done; apply Z.div_pos; lia).
    assert (0 <= shr_m (SpecFloat.iter_pos shr_1 k (shr_1 r)))
      by (rewrite IH by done; apply Z.div_pos; lia).
    rewrite (IH (SpecFloat.iter_pos shr_1 k (shr_1 r))) by done.
    rewrite (IH (shr_1 r)) by done. rewrite shr_1_m by done.
    rewrite !Z.div_div by lia. f_equal.
    rewrite (Pos2Z.inj_xI k), Z.pow_add_r, Z.pow_twice_r, Z.pow_1_r by lia. lia.
  - assert (0 <= shr_m (SpecFloat.iter_pos shr_1 k r))
      by (rewrite IH by done; apply Z.div_pos; lia).
    rewrite (IH (SpecFloat.iter_pos shr_1 k r)) by done.
    rewrite (IH r) by done. rewrite Z.div_div by lia. f_equal.
    rewrite (Pos2Z.inj_xO k), Z.pow_twice_r. lia.
  - rewrite shr_1_m by done. done.
Qed.

Lemma fexp_normal (e : Z) : -1021 <= e -> fexp prec emax e = e - 53.
Proof. intros He. unfold fexp, emin, prec, emax. lia. Qed.

Lemma round_nearest_even_bounds (m : Z) (l : location) :
  m <= round_nearest_even m l <= m + 1.
Proof. destruct l as [|[]]; cbn; try destruct (Z.even m); lia. Qed.



(** A longer integer is rounded to 53 bits, which may overflow. *)
Lemma binary_normalize_rounded (p : positive) :
  2 ^ 53 <= Zpos p ->
  ∃ m e, binary_normalize prec emax (Zpos p) 0 false
         = (if e <=? 971 then S754_finite false m e else S754_infinity false)
         ∧ Zpos (digits2_pos p) - 53 <= e <= Zpos (digits2_pos p) - 52
         ∧ Zpos (digits2_pos m) = 53
         ∧ Z.abs (Zpos m * 2 ^ e - Zpos p) <= 2 ^ (Zpos (digits2_pos p) - 53).
Proof.
  intros Hp. pose proof (digits2_pos_bounds p) as [Hlo Hhi].
  assert (54 <= Zpos (digits2_pos p)) as Hn.
  { destruct (Z.le_gt_cases 54 (Zpos (digits2_pos p))) as [|Hgt]; [done|].
    assert (2 ^ Zpos (digits2_pos p) <= 2 ^ 53) by (apply Z.pow_le_mono_r; lia). lia. }
  unfold binary_normalize, binary_round, shl_align.
  rewrite fexp_normal by lia.
  destruct (Zpos (digits2_pos p) + 0 - 53 - 0) as [|k|k] eqn:Hk; [lia| |lia].
  unfold binary_round_aux at 1. unfold shr_fexp at 1.
  cbn [Zdigits2 shr_record_of_loc]. rewrite fexp_normal by lia.
  rewrite Hk. cbn [shr].
  set (r1 := SpecFloat.iter_pos shr_1 k _).
  assert (shr_m r1 = Zpos p / 2 ^ Zpos k) as Hm1 by (by apply iter_pos_shr_1).
  assert (0 < 2 ^ Zpos k) as Hpow by (apply Z.pow_pos_nonneg; lia).
  assert (2 ^ 52 * 2 ^ Zpos k <= Zpos p < 2 ^ 53 * 2 ^ Zpos k) as [Hlo' Hhi'].
  { rewrite <- !Z.pow_add_r by lia.
    replace (52 + Zpos k) with (Zpos (digits2_pos p) - 1) by lia.
    by replace (53 + Zpos k) with (Zpos (digits2_pos p)) by lia. }
  assert (2 ^ 52 <= shr_m r1 < 2 ^ 53) as [Hlo1 Hhi1].
  { rewrite Hm1. split; [apply Z.div_le_lower_bound; lia|apply Z.div_lt_upper_bound; lia]. }
  assert (shr_m r1 * 2 ^ Zpos k <= Zpos p < (shr_m r1 + 1) * 2 ^ Zpos k) as [Hdown Hup].
  { rewrite Hm1. pose proof (Z.mul_div_le (Zpos p) (2 ^ Zpos k) Hpow).
    pose proof (Z.mul_succ_div_gt (Zpos p) (2 ^ Zpos k) Hpow). lia. }
  pose proof (round_nearest_even_bounds (shr_m r1) (loc_of_shr_record r1)) as [Hr1 Hr2].
  destruct (round_nearest_even (shr_m r1) (loc_of_shr_record r1)) as [|q|q] eqn:Hq; [lia| |lia].
  replace (0 + Zpos k) with (Zpos k) by lia.
  destruct (Z.eq_dec (Zpos q) (2 ^ 53)) as [Hfull|Hless].
  - assert (q = 9007199254740992%positive) as -> by (by injection Hfull).
    exists 4503599627370496%positive, (Zpos k + 1).
    split_and!; try lia; [|done|].
    + assert (Zpos (digits2_pos 9007199254740992) = 54) as Hdigits by reflexivity.
      unfold shr_fexp. cbn [Zdigits2 shr_record_of_loc].
      rewrite Hdigits, fexp_normal by lia.
      by replace (54 + Zpos k - 53 - Zpos k) with 1 by lia.
    + replace (Zpos (digits2_pos p) - 53) with (Zpos k) by lia.
      rewrite Z.pow_add_r by lia.
      change (2 ^ 53) with 9007199254740992 in *. change (2 ^ 1) with 2.
      apply Z.abs_le. nia.
  - assert (Zpos (digits2_pos q) = 53) as Hdigits.
    { apply digits2_pos_unique. change (53 - 1) with 52. lia. }
    exists q, (Zpos k). split_and!; [|lia|lia|done|].
    + unfold shr_fexp. cbn [Zdigits2 shr_record_of_loc].
      rewrite Hdigits, fexp_normal by lia.
      by replace (53 + Zpos k - 53 - Zpos k) with 0 by lia.
    + replace (Zpos (digits2_pos p) - 53) with (Zpos k) by lia.
      apply Z.abs_le. nia.
Qed.

Lemma integer_value_normal (m : positive) (e : Z) :
  Zpos (digits2_pos m) = 53 -> -1074 <= e <= 971 ->
  integer_value (SF2Prim (S754_finite false m e))
  = if 0 <=? e then Some (Zpos m * 2 ^ e)
    else if Zpos m mod 2 ^ (- e) =? 0 then Some (Zpos m / 2 ^ (- e)) else None.
Proof.
  intros Hm He. unfold integer_value. rewrite Prim2SF_SF2Prim; [done|].
  unfold valid_binary, bounded, canonical_mantissa.
  rewrite Hm, fexp_normal by lia. apply andb_true_iff. split.
  - apply Z.eqb_eq. lia.
  - apply Z.leb_le. unfold emax, prec. lia.
Qed.


Lemma float_of_int_rounded (d : Z) :
  2 ^ 53 <= d ->
  (2 ^ 1023 <= d ∧ game.float_of_int d = None)
  ∨ (d < 2 ^ 1024 ∧
     ∃ x v, game.float_of_int d = Some x ∧ integer_value x = Some v
            ∧ Z.abs (v - d) * 2 ^ 52 <= d).
Proof.
  intros Hd. destruct d as [|p|p]; [done| |lia].
  destruct (binary_normalize_rounded p Hd) as (m & e & Hround & He & Hm & Hvalue).
  pose proof (digits2_pos_bounds p) as [Hlo Hhi].
  assert (54 <= Zpos (digits2_pos p)) as Hn.
  { destruct (Z.le_gt_cases 54 (Zpos (digits2_pos p))) as [|Hgt]; [done|].
    assert (2 ^ Zpos (digits2_pos p) <= 2 ^ 53) by (apply Z.pow_le_mono_r; lia). lia. }
  unfold game.float_of_int. rewrite Hround.
  destruct (Z.leb_spec e 971) as [Hfinite|Hover].
  - right. split.
    { assert (2 ^ Zpos (digits2_pos p) <= 2 ^ 1024) by (apply Z.pow_le_mono_r; lia). lia. }
    eexists _, _. split; [done|]. rewrite integer_value_normal by lia.
    destruct (Z.leb_spec 0 e); [|lia]. split; [done|].
    assert (2 ^ (Zpos (digits2_pos p) - 53) * 2 ^ 52 = 2 ^ (Zpos (digits2_pos p) - 1)) as Hpow
      by (rewrite <- Z.pow_add_r by lia; f_equal; lia).
    assert (0 < 2 ^ 52) by done. nia.
  - left. split; [|done].
    assert (2 ^ 1023 <= 2 ^ (Zpos (digits2_pos p) - 1)) by (apply Z.pow_le_mono_r; lia). lia.
Qed.

Lemma float_of_int_finite (d : Z) :
  2 ^ 53 <= d < 2 ^ 1023 -> game.float_of_int d ≠ None.
Proof.
  intros [Hd Hhi]. by destruct (float_of_int_rounded d Hd) as [[? _]|(_ & x & v & -> & _)]; [lia|].
Qed.


End float_of_int.

(* ################################################################# *)
(** ** [dicerollstomove] *)




(* ################################################################# *)
(** * Deciding the specification predicates *)

Lemma hands_disjointb_spec hs : hands_disjointb hs = true ↔ hands_disjoint hs.
Proof.
  unfold hands_disjointb, hands_disjoint. rewrite forallb_forall. split.
  - intros H i j s t Hij Hs Ht.
    specialize (H i). rewrite forallb_forall in H.
    assert (Hi : i < length hs) by (by eapply lookup_lt_Some).
    assert (Hj : j < length hs) by (by eapply lookup_lt_Some).
    specialize (H ltac:(apply in_seq; lia) j ltac:(apply in_seq; lia)).
    rewrite Hs, Ht in H.
    apply orb_true_iff in H as [H%Nat.eqb_eq|H]; [done|].
    by apply bool_decide_eq_true in H.
  - intros H i _. apply forallb_forall. intros j _.
    destruct (Nat.eqb_spec i j) as [|Hne]; [done|]. simpl.
    destruct (hs !! i) as [s|] eqn:Hs; [|done].
    destruct (hs !! j) as [t|] eqn:Ht; [|done].
    apply bool_decide_eq_true. by apply (H i j).
Qed.

#[global] Instance hands_disjoint_dec hs : Decision (hands_disjoint hs).
Proof.
  refine (cast_if (decide (hands_disjointb hs = true)));
    by rewrite <- hands_disjointb_spec.
Defined.


(* ################################################################# *)
(** * Count tensors: shapes, totals and cells *)

Section Tensors.

#[local] Open Scope Z_scope.

Lemma sumZ_app xs ys : tensor.sumZ (xs ++ ys) = tensor.sumZ xs + tensor.sumZ ys.
Proof. induction xs as [|x xs IH]; simpl; [done|]. rewrite IH. lia. Qed.

Lemma sumZ_repeat_0 n : tensor.sumZ (repeat 0 n) = 0.
Proof. induction n; simpl; lia. Qed.

Lemma sumZ_alter {A} (f : A → Z) (g : A → A) i l x :
  l !! i = Some x →
  tensor.sumZ (map f (alter g i l)) = tensor.sumZ (map f l) - f x + f (g x).
Proof.
  revert i. induction l as [|y l IH]; intros [|i] H; simplify_eq/=.
  - lia.
  - rewrite (IH _ H). lia.
Qed.

Lemma sumZ_alter_id g i l x :
  l !! i = Some x →
  tensor.sumZ (alter g i l) = tensor.sumZ l - x + g x.
Proof.
  intros H. pose proof (sumZ_alter (fun z => z) g i l x H) as E.
  by rewrite !map_id in E.
Qed.



Lemma np_index_Some dim i k :
  np.index dim i = Some k → (k < dim)%nat.
Proof.
  unfold np.index. intros H.
  destruct (0 <=? i) eqn:E1, (i <? Z.of_nat dim) eqn:E2; simpl in H;
    try (injection H as <-; lia).
  all: destruct (- Z.of_nat dim <=? i) eqn:E3, (i <? 0) eqn:E4; simpl in H;
    try discriminate; injection H as <-; lia.
Qed.

Lemma np_index_in_range dim i :
  0 <= i < Z.of_nat dim → np.index dim i = Some (Z.to_nat i).
Proof.
  intros [H0 H1]. unfold np.index.
  destruct (Z.leb_spec 0 i); [|lia].
  destruct (Z.ltb_spec i (Z.of_nat dim)); [done|lia].
Qed.

Lemma shaped_zeros a b c : shaped a b c (tensor.zeros3 a b c).
Proof.
  split; [apply repeat_length|].
  apply Forall_forall. intros plane Hp%list_elem_of_In%repeat_spec. subst.
  split; [apply repeat_length|].
  apply Forall_forall. intros row Hr%list_elem_of_In%repeat_spec. subst.
  apply repeat_length.
Qed.

Lemma total_zeros a b c : tensor.total (tensor.zeros3 a b c) = 0.
Proof.
  unfold tensor.total, tensor.zeros3.
  induction a as [|a IH]; simpl; [done|].
  rewrite IH.
  assert (tensor.sumZ (map tensor.sumZ (repeat (repeat 0 c) b)) = 0) as ->; [|lia].
  clear. induction b as [|b IH]; simpl; [done|].
  rewrite IH, sumZ_repeat_0. lia.
Qed.

(** [t[e] += d] succeeds inside the shape, keeps the shape and moves the
    total by [d]. *)
Lemma add_at_shaped a b c t e d t' :
  shaped a b c t → tensor.add_at t e d = Some t' → shaped a b c t'.
Proof.
  intros [Hl Hf] H. destruct e as [[ei ej] ek]. unfold tensor.add_at in H.
  destruct (np.index (length t) ei) as [i|] eqn:Ei; simplify_eq/=.
  destruct (t !! i) as [plane|] eqn:Ep; simplify_eq/=.
  destruct (np.index (length plane) ej) as [j|] eqn:Ej; simplify_eq/=.
  destruct (plane !! j) as [row|] eqn:Er; simplify_eq/=.
  destruct (np.index (length row) ek) as [k|] eqn:Ek; simplify_eq/=.
  split; [by rewrite length_alter|].
  apply Forall_alter; [done|].
  intros plane' Hp' [Hpl Hpf].
  split; [by rewrite length_alter|].
  apply Forall_alter; [done|].
  intros row' Hr' Hrl. by rewrite length_alter.
Qed.

Lemma add_at_total t e d t' :
  tensor.add_at t e d = Some t' → tensor.total t' = tensor.total t + d.
Proof.
  intros H. destruct e as [[ei ej] ek]. unfold tensor.add_at in H.
  destruct (np.index (length t) ei) as [i|] eqn:Ei; simplify_eq/=.
  destruct (t !! i) as [plane|] eqn:Ep; simplify_eq/=.
  destruct (np.index (length plane) ej) as [j|] eqn:Ej; simplify_eq/=.
  destruct (plane !! j) as [row|] eqn:Er; simplify_eq/=.
  destruct (np.index (length row) ek) as [k|] eqn:Ek; simplify_eq/=.
  apply np_index_Some in Ek.
  destruct (lookup_lt_is_Some_2 row k Ek) as [x Hx].
  unfold tensor.total.
  rewrite (sumZ_alter _ _ _ _ _ Ep).
  rewrite (sumZ_alter _ _ _ _ _ Er).
  rewrite (sumZ_alter_id _ _ _ _ Hx). lia.
Qed.

Lemma add_at_in_range a b c t ei ej ek d :
  shaped a b c t →
  0 <= ei < Z.of_nat a → 0 <= ej < Z.of_nat b → 0 <= ek < Z.of_nat c →
  is_Some (tensor.add_at t (ei, ej, ek) d).
Proof.
  intros [Hl Hf] Hi Hj Hk. unfold tensor.add_at.
  rewrite Hl, (np_index_in_range a ei Hi). simpl.
  destruct (lookup_lt_is_Some_2 t (Z.to_nat ei)) as [plane Hp]; [lia|].
  rewrite Hp. simpl.
  pose proof (Forall_lookup_1 _ _ _ _ Hf Hp) as [Hpl Hpf]. simpl in *.
  rewrite Hpl, (np_index_in_range b ej Hj). simpl.
  destruct (lookup_lt_is_Some_2 plane (Z.to_nat ej)) as [row Hr]; [lia|].
  rewrite Hr. simpl.
  pose proof (Forall_lookup_1 _ _ _ _ Hpf Hr) as Hrl. simpl in *.
  rewrite Hrl, (np_index_in_range c ek Hk). simpl. eauto.
Qed.


(** Every cell of a shaped array is one of its indexed cells. *)
Lemma shaped_cells (P : Z → Prop) a b c t :
  shaped a b c t →
  (∀ i j k, (i < a)%nat → (j < b)%nat → (k < c)%nat → P (tensor.get t i j k)) →
  Forall (Forall (Forall P)) t.
Proof.
  intros [Hl Hf] H.
  apply Forall_lookup. intros i plane Hp.
  pose proof (Forall_lookup_1 _ _ _ _ Hf Hp) as [Hpl Hpf]. simpl in *.
  apply Forall_lookup. intros j row Hr.
  pose proof (Forall_lookup_1 _ _ _ _ Hpf Hr) as Hrl. simpl in *.
  apply Forall_lookup. intros k x Hx.
  specialize (H i j k).
  unfold tensor.get in H.
  rewrite (nth_lookup_Some _ _ [] _ Hp), (nth_lookup_Some _ _ [] _ Hr),
    (nth_lookup_Some _ _ 0 _ Hx) in H.
  apply H.
  - apply lookup_lt_Some in Hp. lia.
  - apply lookup_lt_Some in Hr. lia.
  - apply lookup_lt_Some in Hx. lia.
Qed.

Lemma sumZ_zip_with_add xs ys :
  length xs = length ys →
  tensor.sumZ (zip_with Z.add xs ys) = tensor.sumZ xs + tensor.sumZ ys.
Proof.
  revert ys. induction xs as [|x xs IH]; intros [|y ys] H; simplify_eq/=; [done|].
  rewrite IH by done. lia.
Qed.

(** Elementwise sums keep the shape and add the totals. *)
Lemma plus_shaped a b c s t :
  shaped a b c s → shaped a b c t → shaped a b c (tensor.plus s t).
Proof.
  intros [Hls Hfs] [Hlt Hft]. unfold tensor.plus. split.
  - rewrite length_zip_with. lia.
  - apply Forall_lookup. intros i plane Hp.
    apply lookup_zip_with_Some in Hp as (ps & pt & -> & Hps & Hpt).
    pose proof (Forall_lookup_1 _ _ _ _ Hfs Hps) as [Hl1 Hf1].
    pose proof (Forall_lookup_1 _ _ _ _ Hft Hpt) as [Hl2 Hf2]. simpl in *.
    split; [rewrite length_zip_with; lia|].
    apply Forall_lookup. intros j row Hr.
    apply lookup_zip_with_Some in Hr as (rs & rt & -> & Hrs & Hrt).
    pose proof (Forall_lookup_1 _ _ _ _ Hf1 Hrs) as Hl3.
    pose proof (Forall_lookup_1 _ _ _ _ Hf2 Hrt) as Hl4. simpl in *.
    rewrite length_zip_with. lia.
Qed.

Lemma plus_total_plane b c (ps pt : list (list Z)) :
  length ps = b → length pt = b →
  Forall (fun row => length row = c) ps →
  Forall (fun row => length row = c) pt →
  tensor.sumZ (map tensor.sumZ (zip_with (zip_with Z.add) ps pt)) =
  tensor.sumZ (map tensor.sumZ ps) + tensor.sumZ (map tensor.sumZ pt).
Proof.
  revert b pt. induction ps as [|rs ps IH]; intros b [|rt pt] H1 H2 Hf1 Hf2;
    simplify_eq/=; [done|].
  apply Forall_cons in Hf1 as [Hl3 Hf1].
  apply Forall_cons in Hf2 as [Hl4 Hf2].
  rewrite (IH (length ps) pt) by (done || lia).
  rewrite sumZ_zip_with_add by lia. lia.
Qed.

Lemma plus_total a b c s t :
  shaped a b c s → shaped a b c t →
  tensor.total (tensor.plus s t) = tensor.total s + tensor.total t.
Proof.
  intros [Hls Hfs] [Hlt Hft]. unfold tensor.total, tensor.plus.
  revert a t Hls Hlt Hfs Hft.
  induction s as [|ps s IH]; intros a [|pt t] Hls Hlt Hfs Hft;
    simplify_eq/=; [done|].
  apply Forall_cons in Hfs as [[Hl1 Hf1] Hfs].
  apply Forall_cons in Hft as [[Hl2 Hf2] Hft].
  rewrite (IH (length s) t) by (done || lia).
  rewrite (plus_total_plane b c) by done. lia.
Qed.

Lemma sumZ_map_add {A} (f g : A → Z) l :
  tensor.sumZ (map (fun x => f x + g x) l) =
  tensor.sumZ (map f l) + tensor.sumZ (map g l).
Proof. induction l as [|x l IH]; simpl; [done|]. rewrite IH. lia. Qed.

Lemma sumZ_map_zero {A} (f : A → Z) l :
  (∀ x, f x = 0) → tensor.sumZ (map f l) = 0.
Proof. intros H. induction l as [|x l IH]; simpl; [done|]. rewrite H, IH. lia. Qed.

Lemma sumZ_nth_rows (plane : list (list Z)) b :
  tensor.sumZ (map (fun j => tensor.sumZ (nth j plane [])) (seq 0 b)) =
  tensor.sumZ (map tensor.sumZ (take b plane)).
Proof.
  revert plane. induction b as [|b IH]; intros plane; [done|].
  destruct plane as [|row plane].
  - rewrite take_nil. apply sumZ_map_zero. intros j. by destruct j.
  - cbn [seq map take tensor.sumZ foldr nth].
    change (foldr Z.add 0) with tensor.sumZ.
    rewrite <- IH. f_equal. rewrite <- seq_shift, map_map. done.
Qed.

(** [np.sum(np.sum(np.sum(t, 2), 0))] is [np.sum(t)]. *)
Lemma by_room_total a c t :
  shaped a game.NROOMS c t → tensor.sumZ (tensor.by_room t) = tensor.total t.
Proof.
  intros [_ Hf]. unfold tensor.by_room, tensor.total. clear a.
  induction Hf as [|plane t [Hl _] Hf IH].
  - apply sumZ_map_zero. done.
  - cbn [map tensor.sumZ foldr].
    change (foldr Z.add 0) with tensor.sumZ.
    rewrite <- IH.
    rewrite (sumZ_map_add (fun j => tensor.sumZ (nth j plane []))
               (fun j => tensor.sumZ (map (fun plane0 => tensor.sumZ (nth j plane0 [])) t))).
    f_equal. rewrite sumZ_nth_rows. by rewrite <- Hl, firstn_all.
Qed.

End Tensors.


(* ################################################################# *)
(** * Entropies as real numbers *)

Section Floats.

#[local] Open Scope R_scope.

Lemma np_sum_Fin (rs : list R) : np.sum (map Fin rs) = Fin (Rsum rs).
Proof.
  induction rs as [|r rs IH]; [done|].
  change (np.sum (map Fin (r :: rs))) with (np.add (Fin r) (np.sum (map Fin rs))).
  by rewrite IH.
Qed.

Lemma np_sum_map_Fin {A} (f : A → npfloat) (g : A → R) (l : list A) :
  Forall (fun x => f x = Fin (g x)) l →
  np.sum (map f l) = Fin (Rsum (map g l)).
Proof.
  intros H. rewrite <- np_sum_Fin, map_map. f_equal.
  induction H as [|x l Hx H IH]; simpl; [done|]. by rewrite Hx, IH.
Qed.

Lemma Rsum_zero {A} (g : A → R) (l : list A) :
  (∀ x, g x = 0) → Rsum (map g l) = 0.
Proof. intros H. induction l as [|x l IH]; simpl; [done|]. rewrite H, IH. lra. Qed.

Lemma Rsum_scale {A} (g : A → R) (h : A → Z) (K : R) (l : list A) :
  Forall (fun x => g x = IZR (h x) * K) l →
  Rsum (map g l) = IZR (tensor.sumZ (map h l)) * K.
Proof.
  induction 1 as [|x l Hx H IH]; simpl; [lra|].
  rewrite Hx, IH, plus_IZR. lra.
Qed.

Lemma mul_inf_zero pos : np.mul_inf 0 pos = NaN.
Proof.
  unfold np.mul_inf.
  destruct (Rlt_dec 0 0) as [H|_]; [lra|].
  destruct (Rlt_dec 0 0) as [H|_]; [lra|done].
Qed.

(** A cell with a positive sum of counts. *)
Lemma xlogx_div (N c : Z) :
  (0 < N)%Z →
  posterior.xlogx (np.div (np.of_Z c) (np.of_Z N)) = Fin (xlogx_real N c).
Proof.
  intros HN. unfold posterior.xlogx, np.div, np.of_Z, xlogx_real.
  assert (0 < IZR N) by (by apply IZR_lt).
  destruct (Req_dec_T (IZR N) 0) as [E|_]; [lra|].
  destruct (Z.ltb_spec 0 c) as [Hc|Hc].
  - assert (0 < IZR c / IZR N).
    { apply Rdiv_lt_0_compat; [by apply IZR_lt|done]. }
    simpl. destruct (Rlt_dec 0 (IZR c / IZR N)) as [_|Hn]; [done|lra].
  - assert (IZR c / IZR N <= 0).
    { apply IZR_le in Hc. unfold Rdiv.
      assert (0 < / IZR N) by (by apply Rinv_0_lt_compat). nra. }
    simpl. destruct (Rlt_dec 0 (IZR c / IZR N)) as [Hp|_]; [lra|].
    destruct (Rlt_dec (IZR c / IZR N) 0) as [Hn|Hz]; [done|].
    simpl. unfold np.mul_inf.
    destruct (Rlt_dec 0 (- (IZR c / IZR N))) as [Hp|_]; [lra|].
    destruct (Rlt_dec (- (IZR c / IZR N)) 0) as [Hp|_]; [lra|done].
Qed.

(** A cell of an array that is zero everywhere: [0/0] is NaN, and the NaN
    entropy is replaced by zero. *)
Lemma xlogx_zero_zero :
  posterior.xlogx (np.div (np.of_Z 0) (np.of_Z 0)) = Fin 0.
Proof.
  unfold posterior.xlogx, np.div, np.of_Z.
  destruct (Req_dec_T 0 0) as [_|E]; [|lra].
  by rewrite mul_inf_zero.
Qed.

Lemma entropy_Fin (t : tensor3) (N : Z) :
  (0 < N)%Z → posterior.entropy t (np.of_Z N) = Fin (entropy_real t N).
Proof.
  intros HN. unfold posterior.entropy, entropy_real.
  apply np_sum_map_Fin, Forall_forall. intros plane _.
  apply np_sum_map_Fin, Forall_forall. intros row _.
  apply np_sum_map_Fin, Forall_forall. intros c _.
  by apply xlogx_div.
Qed.

Lemma entropy_all_zero (t : tensor3) :
  Forall (Forall (Forall (fun c => c = 0%Z))) t →
  posterior.entropy t (np.of_Z 0) = Fin 0.
Proof.
  intros H. unfold posterior.entropy.
  rewrite (np_sum_map_Fin _ (fun _ => 0)).
  - f_equal. by apply Rsum_zero.
  - eapply Forall_impl; [exact H|]. intros plane Hp. simpl.
    rewrite (np_sum_map_Fin _ (fun _ => 0)).
    + f_equal. by apply Rsum_zero.
    + eapply Forall_impl; [exact Hp|]. intros row Hr. simpl.
      rewrite (np_sum_map_Fin _ (fun _ => 0)).
      * f_equal. by apply Rsum_zero.
      * eapply Forall_impl; [exact Hr|]. intros c ->. simpl.
        apply xlogx_zero_zero.
Qed.

(** With every count 0 or 1, the entropy is [log] of the number of ones. *)
Lemma entropy_real_uniform (t : tensor3) (N : Z) :
  (0 < N)%Z →
  Forall (Forall (Forall (fun c => c = 0%Z ∨ c = 1%Z))) t →
  tensor.total t = N →
  entropy_real t N = ln (IZR N).
Proof.
  intros HN H Ht.
  assert (0 < IZR N) by (by apply IZR_lt).
  set (K := - (1 / IZR N) * ln (1 / IZR N)).
  assert (entropy_real t N = IZR (tensor.total t) * K) as ->.
  { unfold entropy_real, tensor.total.
    apply Rsum_scale. eapply Forall_impl; [exact H|]. intros plane Hp. simpl.
    apply Rsum_scale. eapply Forall_impl; [exact Hp|]. intros row Hr. simpl.
    rewrite <- (map_id row) at 2.
    apply Rsum_scale. eapply Forall_impl; [exact Hr|]. intros c [->| ->].
    - unfold xlogx_real. simpl. lra.
    - unfold xlogx_real, K. simpl. lra. }
  rewrite Ht. unfold K.
  replace (1 / IZR N) with (/ IZR N) by (unfold Rdiv; lra).
  rewrite ln_Rinv by done.
  field. lra.
Qed.

(** ** argsort *)

Lemma insert_ix_elements v i sorted x :
  x ∈ np.insert_ix v i sorted → x = i ∨ x ∈ sorted.
Proof.
  induction sorted as [|j rest IH]; simpl.
  - intros ->%list_elem_of_singleton. by left.
  - destruct (np.sort_lt (v i) (v j)).
    + intros [->|H]%elem_of_cons; [by left|by right].
    + intros [->|H]%elem_of_cons; [right; left|].
      destruct (IH H) as [->|H']; [by left|right; by right].
Qed.

Lemma insert_ix_length v i sorted :
  length (np.insert_ix v i sorted) = S (length sorted).
Proof.
  induction sorted as [|j rest IH]; simpl; [done|].
  destruct (np.sort_lt (v i) (v j)); simpl; [done|]. by rewrite IH.
Qed.

Lemma argsort_bound (xs : list npfloat) :
  Forall (fun i => (i < length xs)%nat) (np.argsort xs).
Proof.
  unfold np.argsort.
  assert (G : ∀ (ixs : list nat) acc,
             Forall (fun i => (i < length xs)%nat) ixs →
             Forall (fun i => (i < length xs)%nat) acc →
             Forall (fun i => (i < length xs)%nat)
               (fold_left (fun sorted i =>
                  np.insert_ix (fun k => nth k xs NaN) i sorted) ixs acc)).
  { induction ixs as [|i ixs IH]; intros acc His Hacc; simpl; [done|].
    apply Forall_cons in His as [Hi His].
    apply IH; [done|].
    apply Forall_forall. intros x Hx.
    apply insert_ix_elements in Hx as [->|Hx]; [done|].
    by apply (proj1 (Forall_forall _ _) Hacc). }
  apply G; [|done].
  apply Forall_forall. intros i Hi%elem_of_seq. lia.
Qed.

Lemma argsort_length (xs : list npfloat) :
  length (np.argsort xs) = length xs.
Proof.
  unfold np.argsort.
  assert (G : ∀ (ixs : list nat) acc,
             length (fold_left (fun sorted i =>
                  np.insert_ix (fun k => nth k xs NaN) i sorted) ixs acc)
             = (length ixs + length acc)%nat).
  { induction ixs as [|i ixs IH]; intros acc; simpl; [done|].
    rewrite IH, insert_ix_length. lia. }
  rewrite G, length_seq. simpl. lia.
Qed.

Lemma sort_lt_zero : np.sort_lt (Fin 0) (Fin 0) = false.
Proof.
  unfold np.sort_lt, np.ltb. simpl.
  destruct (Rlt_dec 0 0) as [H|_]; [lra|done].
Qed.

(** Three equal entropies are preferred in the order weapon, room,
    character. *)
Lemma argsort_zeros : rev (np.argsort [Fin 0; Fin 0; Fin 0]) = [2; 1; 0]%nat.
Proof.
  unfold np.argsort. simpl. rewrite !sort_lt_zero. simpl.
  rewrite !sort_lt_zero. done.
Qed.

End Floats.


(* ################################################################# *)
(** * The suggestion evaluator: phase 1 *)

#[local] Arguments tensor.add_at : simpl never.
#[local] Arguments tensor.add_at1 : simpl never.
#[local] Arguments posterior.sort_hypothesis : simpl never.
#[local] Arguments tensor.total : simpl never.
#[local] Arguments tensor.plus : simpl never.

Section Sorting.

#[local] Open Scope Z_scope.

(** The sorted counts of [others] players: seven bins each, every bin of
    the shape of the scenario counts. *)
Definition bins_ok (others : nat) (sorted : list (list tensor3)) : Prop :=
  length sorted = others ∧
  Forall (fun bins => length bins = 7%nat ∧ Forall cube bins) sorted.

(** The number of hypotheses sorted so far. *)
Definition grand (acc : posterior.sorted_counts) : Z :=
  tensor.sumZ (map (fun bins => tensor.sumZ (map tensor.total bins)) (fst acc))
  + tensor.total (snd acc).

Lemma answer_bits_bound it c r w : (posterior.answer_bits it c r w <= 7)%nat.
Proof.
  unfold posterior.answer_bits. apply Nat.leb_le.
  by destruct (contains c it), (contains r it), (contains w it).
Qed.

Lemma first_answer_Some h players c r w p ix :
  posterior.first_answer h players c r w = Ok (Some (p, ix)) →
  p ∈ players ∧ (1 <= ix <= 7)%nat.
Proof.
  induction players as [|q rest IH]; simpl; [done|].
  destruct (getitem h q) as [it|]; [|done].
  destruct (Nat.ltb_spec 0 (posterior.answer_bits it c r w)) as [Hpos|Hz].
  - intros [= <- <-]. split; [left|].
    pose proof (answer_bits_bound it c r w). lia.
  - intros H. destruct (IH H) as [Hin Hix]. split; [by right|done].
Qed.

Lemma first_answer_total h players c r w :
  (∀ p, p ∈ players → is_Some (getitem h p)) →
  ∃ o, posterior.first_answer h players c r w = Ok o.
Proof.
  induction players as [|q rest IH]; intros H; simpl; [eauto|].
  destruct (H q) as [it ->]; [left|].
  destruct (0 <? posterior.answer_bits it c r w)%nat; [eauto|].
  apply IH. intros p Hp. apply H. by right.
Qed.

Lemma getitem_hand n h p :
  hypothesis_of n h → (p < n)%nat → ∃ s, hands h !! p = Some s ∧ getitem h p = Some (ItemHand s).
Proof.
  intros [Hl _] Hp.
  destruct (lookup_lt_is_Some_2 (hands h) p) as [s Hs]; [lia|].
  exists s. split; [done|]. unfold getitem. by rewrite Hs.
Qed.

Lemma sumZ_insert_map {A} (f : A → Z) i l x y :
  l !! i = Some x →
  tensor.sumZ (map f (<[i := y]> l)) = tensor.sumZ (map f l) - f x + f y.
Proof.
  revert i. induction l as [|z l IH]; intros [|i] H; simplify_eq/=.
  - lia.
  - rewrite (IH _ H). lia.
Qed.

(** Sorting one hypothesis adds it to exactly one cell. *)
Lemma sort_hypothesis_ok others c r w sorted no h :
  bins_ok others sorted → cube no →
  hypothesis_of (S others) h →
  ∃ acc', posterior.sort_hypothesis (seq 1 others) c r w (sorted, no) h = Ok acc'
        ∧ bins_ok others (fst acc') ∧ cube (snd acc')
        ∧ grand acc' = grand (sorted, no) + 1.
Proof.
  intros [Hlen Hbins] Hno Hh. unfold posterior.sort_hypothesis.
  destruct (first_answer_total h (seq 1 others) c r w) as [o Ho].
  { intros p Hp%elem_of_seq.
    destruct (getitem_hand (S others) h p Hh) as (s & _ & ->); [lia|eauto]. }
  rewrite Ho.
  destruct Hh as [_ Henv]. destruct (envelope h) as [[ei ej] ek] eqn:Ee.
  destruct Henv as (Hi & Hj & Hk).
  destruct o as [[p ix]|].
  - apply first_answer_Some in Ho as [Hp%elem_of_seq Hix].
    destruct (lookup_lt_is_Some_2 sorted (p - 1)) as [bins Hb]; [lia|].
    pose proof (Forall_lookup_1 _ _ _ _ Hbins Hb) as [Hbl Hbf]. simpl in *.
    destruct (lookup_lt_is_Some_2 bins (ix - 1)) as [t Ht]; [lia|].
    pose proof (Forall_lookup_1 _ _ _ _ Hbf Ht) as Hts. simpl in *.
    destruct (add_at_in_range _ _ _ t ei ej ek 1 Hts Hi Hj Hk) as [t' Ht'].
    rewrite Hb. simpl. rewrite Ht. simpl. rewrite Ht'. simpl.
    eexists. split; [done|]. simpl. split_and!.
    + split; [by rewrite length_insert|].
      apply Forall_insert; [done|]. split; [by rewrite length_insert|].
      apply Forall_insert; [done|]. by eapply add_at_shaped.
    + done.
    + unfold grand. simpl.
      rewrite (sumZ_insert_map _ _ _ _ _ Hb).
      rewrite (sumZ_insert_map _ _ _ _ _ Ht).
      rewrite (add_at_total _ _ _ _ Ht'). lia.
  - destruct (add_at_in_range _ _ _ no ei ej ek 1 Hno Hi Hj Hk) as [t' Ht'].
    rewrite Ht'. eexists. split; [done|]. simpl. split_and!.
    + done.
    + by eapply add_at_shaped.
    + unfold grand. simpl. rewrite (add_at_total _ _ _ _ Ht'). lia.
Qed.

Lemma sort_hypotheses_ok others c r w hs : ∀ sorted no,
  bins_ok others sorted → cube no →
  Forall (hypothesis_of (S others)) hs →
  ∃ acc', posterior.sort_hypotheses (seq 1 others) c r w (sorted, no) hs = Ok acc'
        ∧ bins_ok others (fst acc') ∧ cube (snd acc')
        ∧ grand acc' = grand (sorted, no) + Z.of_nat (length hs).
Proof.
  induction hs as [|h hs IH]; intros sorted no Hs Hn Hhs.
  - exists (sorted, no). simpl. split_and!; try done. lia.
  - apply Forall_cons in Hhs as [Hh Hhs]. simpl.
    destruct (sort_hypothesis_ok others c r w sorted no h Hs Hn Hh)
      as ([sorted1 no1] & -> & Hs1 & Hn1 & Hg1).
    destruct (IH sorted1 no1 Hs1 Hn1 Hhs) as (acc' & -> & Hs2 & Hn2 & Hg2).
    exists acc'. split_and!; try done. rewrite Hg2, Hg1.
    rewrite Nat2Z.inj_succ. lia.
Qed.

Lemma bins_ok_zeros others :
  bins_ok others (repeat (repeat posterior.zeros 7) others).
Proof.
  split; [apply repeat_length|].
  apply Forall_forall. intros bins ->%list_elem_of_In%repeat_spec.
  split; [done|].
  apply Forall_forall. intros t ->%list_elem_of_In%repeat_spec.
  apply shaped_zeros.
Qed.

Lemma sumZ_map_repeat {A} (f : A → Z) x n :
  tensor.sumZ (map f (repeat x n)) = Z.of_nat n * f x.
Proof. induction n as [|n IH]; [done|]. cbn [repeat map tensor.sumZ foldr].
  change (foldr Z.add 0) with tensor.sumZ. rewrite IH. lia. Qed.

Lemma grand_zeros others :
  grand (repeat (repeat posterior.zeros 7) others, posterior.zeros) = 0.
Proof.
  unfold grand. cbn [fst snd].
  rewrite sumZ_map_repeat, sumZ_map_repeat.
  unfold posterior.zeros. rewrite total_zeros. lia.
Qed.

(** ** Phases 2 and 3: the answers received account for every hypothesis *)

Lemma received_total bins decisions :
  length bins = 7%nat → Forall cube bins →
  (nth 0 decisions 0 < 3)%nat → (nth 1 decisions 0 < 3)%nat →
  tensor.sumZ (map tensor.total (posterior.received bins decisions)) =
  tensor.sumZ (map tensor.total bins).
Proof.
  intros Hl Hb H0 H1.
  destruct bins as [|b0 [|b1 [|b2 [|b3 [|b4 [|b5 [|b6 [|]]]]]]]]; try done.
  apply Forall_cons in Hb as [S0 Hb]. apply Forall_cons in Hb as [S1 Hb].
  apply Forall_cons in Hb as [S2 Hb]. apply Forall_cons in Hb as [S3 Hb].
  apply Forall_cons in Hb as [S4 Hb]. apply Forall_cons in Hb as [S5 Hb].
  apply Forall_cons in Hb as [S6 _].
  unfold posterior.received.
  destruct (nth 0 decisions 0%nat) as [|[|[|]]]; [| | |lia];
    destruct (nth 1 decisions 0%nat) as [|[|[|]]]; try lia;
    cbn; repeat (erewrite plus_total; [|by eauto using plus_shaped..]); lia.
Qed.

Lemma nth_bound (l : list nat) k n :
  Forall (fun i => (i < n)%nat) l → (0 < n)%nat → (nth k l 0 < n)%nat.
Proof.
  intros H Hn. rewrite nth_lookup. destruct (l !! k) as [x|] eqn:E; simpl; [|done].
  by apply (Forall_lookup_1 _ _ _ _ H E).
Qed.

Lemma decisions_bound (ents : list npfloat) k :
  length ents = 3%nat → (nth k (rev (np.argsort ents)) 0 < 3)%nat.
Proof.
  intros Hl. apply nth_bound; [|lia].
  rewrite <- Hl. apply Forall_rev, argsort_bound.
Qed.

Lemma received_all (sorted : list (list tensor3)) (decs : list (list nat)) others :
  bins_ok others sorted → length decs = length sorted →
  Forall (fun dec => (nth 0 dec 0 < 3)%nat ∧ (nth 1 dec 0 < 3)%nat) decs →
  tensor.sumZ (map tensor.sumZ
     (map (map tensor.total) (zip_with posterior.received sorted decs))) =
  tensor.sumZ (map (fun bins => tensor.sumZ (map tensor.total bins)) sorted).
Proof.
  intros [_ Hb]. revert decs.
  induction Hb as [|bins sorted [Hl Hc] Hb IH]; intros [|dec decs] Hlen Hd;
    simplify_eq/=; [done|].
  apply Forall_cons in Hd as [[H0 H1] Hd].
  rewrite IH by done.
  by rewrite received_total.
Qed.

Lemma Forall_zip_with_length3 {A B C} (f : A → B → C)
    (xs : list (list A)) (ys : list (list B)) :
  Forall (fun x => length x = 3%nat) xs →
  Forall (fun y => length y = 3%nat) ys →
  Forall (fun z => length z = 3%nat) (zip_with (zip_with f) xs ys).
Proof.
  intros Hx. revert ys. induction Hx as [|x xs Hx Hxs IH]; intros ys Hy; [done|].
  destruct Hy as [|y ys Hy Hys]; [done|].
  cbn [zip_with]. apply Forall_cons. split; [|by apply IH].
  rewrite length_zip_with. lia.
Qed.

Lemma after_answer_length bins : length (posterior.after_answer bins) = 3%nat.
Proof. done. Qed.

(** The assertion of the source, that the answers received and the
    unanswered case account for every hypothesis, holds. *)
Lemma evaluate_total others sorted no N :
  bins_ok others sorted → cube no →
  grand (sorted, no) = Z.of_nat N →
  ∃ p, posterior.evaluate (sorted, no) N = Ok p.
Proof.
  intros Hs Hn Hg. unfold posterior.evaluate.
  rewrite received_all with (others := others); [|done|..].
  - rewrite (by_room_total _ _ _ Hn).
    unfold grand in Hg. cbn [fst snd] in Hg. rewrite <- Hg, Z.eqb_refl.
    cbn [negb]. eauto.
  - rewrite length_map, length_zip_with, !length_map. lia.
  - apply Forall_forall. intros dec Hd.
    apply list_elem_of_fmap in Hd as (ents & -> & Hents).
    assert (length ents = 3%nat) as Hl3; [|by split; apply decisions_bound].
    revert ents Hents. apply Forall_forall, Forall_zip_with_length3.
    + apply Forall_forall. by intros ts (bins & -> & _)%list_elem_of_fmap.
    + apply Forall_forall. intros ss (rs & -> & Hrs)%list_elem_of_fmap.
      apply list_elem_of_fmap in Hrs as (ts & -> & Hts).
      apply list_elem_of_fmap in Hts as (bins & -> & _).
      by rewrite !length_map.
Qed.

(** On hypotheses of the right shape the evaluator returns. *)
Lemma suggestionexpposteriors_total n hs c r w :
  (1 <= n)%nat → Forall (hypothesis_of n) hs →
  ∃ p, posterior.suggestionexpposteriors (Z.of_nat n) hs c r w = Ok p.
Proof.
  intros Hn Hhs. unfold posterior.suggestionexpposteriors.
  destruct (Z.ltb_spec (Z.of_nat n - 1) 0) as [|_]; [lia|].
  replace (Z.to_nat (Z.of_nat n - 1)) with (n - 1)%nat by lia.
  destruct (sort_hypotheses_ok (n - 1) c r w hs _ posterior.zeros
              (bins_ok_zeros (n - 1)) (shaped_zeros _ _ _))
    as ([sorted no] & -> & Hs & Hno & Hg).
  { by replace (S (n - 1)) with n by lia. }
  rewrite grand_zeros in Hg.
  apply (evaluate_total (n - 1)); [done..|]. rewrite Hg. lia.
Qed.

End Sorting.


(* ################################################################# *)
(** * The suggestion nobody can answer *)

#[local] Arguments tensor.add_at : simpl never.
#[local] Arguments posterior.sort_hypothesis : simpl never.
#[local] Arguments tensor.total : simpl never.
#[local] Arguments tensor.plus : simpl never.


Section NoAnswer.

#[local] Open Scope Z_scope.







Lemma get_zeros a b c i j k : tensor.get (tensor.zeros3 a b c) i j k = 0.
Proof.
  unfold tensor.get, tensor.zeros3.
  destruct (Nat.lt_ge_cases i a) as [Hi|Hi].
  - rewrite nth_repeat_lt by done.
    destruct (Nat.lt_ge_cases j b) as [Hj|Hj].
    + rewrite nth_repeat_lt by done. destruct (Nat.lt_ge_cases k c) as [Hk|Hk].
      * by rewrite nth_repeat_lt.
      * rewrite nth_overflow; [done|]. by rewrite repeat_length.
    + rewrite (nth_overflow (repeat _ b)); [by destruct k|]. by rewrite repeat_length.
  - rewrite (nth_overflow (repeat _ a)); [by destruct j, k|]. by rewrite repeat_length.
Qed.





Lemma zeros_all_zero :
  Forall (Forall (Forall (fun c => c = 0))) posterior.zeros.
Proof.
  apply (shaped_cells _ _ _ _ _ (shaped_zeros _ _ _)).
  intros. apply get_zeros.
Qed.



End NoAnswer.


(* ################################################################# *)
(** * The suggestion evaluator: the claims *)

#[local] Arguments tensor.total : simpl never.

(** A decidable proposition about a concrete game, settled by evaluating
    its decision procedure. *)
Ltac computed :=
  match goal with
  | |- ?P => apply (bool_decide_unpack P); vm_compute; exact I
  end.

(** C7. A call of [suggestionexpposteriors] leaves the Detective as it
    was: the hypotheses, the forbidden matrix and sets, the count arrays,
    [pScenario], [scenarioEntropy] and every other field are the same
    after the call, whether it returns or raises. *)
Theorem suggestionexpposteriors_readonly (character room weapon : nat) (s : Detective) :
  snd (suggestionexpposteriors character room weapon s) = s.
Proof. reflexivity. Qed.





(** C6. On the pool of the two-player game and the suggestion (4, 8, 15),
    [parcore.suggestionexpposteriors] takes the number of hypotheses, 54,
    less one for the number of players, looks for player 3 in a
    hypothesis of two hands and an envelope, and raises [IndexError];
    [Detective.suggestionexpposteriors] returns a result. *)
Theorem parcore_diverges :
  let s := example.two_players in
  parcore.suggestionexpposteriors (hypotheses s) 4 8 15 = Raise IndexError ∧
  ∃ p, fst (suggestionexpposteriors 4 8 15 s) = Ok p.
Proof.
  intros s. split.
  - vm_compute. reflexivity.
  - unfold suggestionexpposteriors, bind, gets. cbn [fst snd].
    apply suggestionexpposteriors_total.
    + vm_compute. lia.
    + computed.
Qed.


(* ################################################################# *)
(** * Expected entropy against prior entropy *)

Section Entropy.

#[local] Open Scope R_scope.

Lemma Rsum_app xs ys : Rsum (xs ++ ys) = Rsum xs + Rsum ys.
Proof. induction xs as [|x xs IH]; simpl; [lra|]. rewrite IH. lra. Qed.

Lemma Rsum_concat {A} (f : A → R) (ls : list (list A)) :
  Rsum (map (fun l => Rsum (map f l)) ls) = Rsum (map f (concat ls)).
Proof.
  induction ls as [|l ls IH]; simpl; [done|].
  by rewrite map_app, Rsum_app, IH.
Qed.

Lemma Rsum_positive_cells N (cs : list Z) :
  Rsum (map (xlogx_real N) cs) =
  Rsum (map (xlogx_real N) (List.filter (fun c => (0 <? c)%Z) cs)).
Proof.
  induction cs as [|c cs IH]; simpl; [done|].
  destruct (0 <? c)%Z eqn:E; simpl; rewrite IH; [done|].
  unfold xlogx_real at 1. rewrite E. lra.
Qed.

(** The entropy of a count array only depends on its positive cells. *)
Lemma entropy_real_cells (t : tensor3) N :
  entropy_real t N =
  Rsum (map (xlogx_real N) (List.filter (fun c => (0 <? c)%Z) (tensor.cells t))).
Proof.
  unfold entropy_real, tensor.cells.
  rewrite <- Rsum_positive_cells, <- Rsum_concat.
  rewrite <- (Rsum_concat (fun row => Rsum (map (xlogx_real N) row))).
  done.
Qed.

Lemma sort_lt_Fin x y : np.sort_lt (Fin x) (Fin y) = if Rlt_dec x y then true else false.
Proof. unfold np.sort_lt, np.ltb. simpl. by destruct (Rlt_dec x y). Qed.

(** Two equal positive entropies and a zero one: the room is preferred,
    then the character. *)
Lemma argsort_tie (x : R) :
  0 < x → rev (np.argsort [Fin x; Fin x; Fin 0]) = [1; 0; 2]%nat.
Proof.
  intros Hx. unfold np.argsort. simpl. rewrite !sort_lt_Fin.
  destruct (Rlt_dec x x) as [E|_]; [lra|]. simpl. rewrite !sort_lt_Fin.
  destruct (Rlt_dec 0 x) as [_|E]; [|lra]. done.
Qed.

Lemma ln_2_pos : 0 < ln 2.
Proof. rewrite <- ln_1. apply ln_increasing; lra. Qed.

(** [5 ln 2 > 3 ln 3], that is, [32 > 27]. *)
Lemma five_ln2_three_ln3 : 3 * ln 3 < 5 * ln 2.
Proof.
  assert (H3 : ln (3 ^ 3) = 3 * ln 3).
  { rewrite ln_pow by lra. simpl. lra. }
  assert (H2 : ln (2 ^ 5) = 5 * ln 2).
  { rewrite ln_pow by lra. simpl. lra. }
  rewrite <- H3, <- H2. apply ln_increasing; lra.
Qed.

End Entropy.

Module three.

Definition zero : tensor3 := posterior.zeros.
(** One hypothesis with the envelope of deals A and C, or of deal B. *)
Definition one_AC : tensor3 := default zero (tensor.add_at zero (3, 3, 2)%Z 1%Z).
Definition one_B : tensor3 := default zero (tensor.add_at zero (3, 3, 3)%Z 1%Z).
Definition both : tensor3 := tensor.plus one_AC one_B.

(** Phase 1 on the three deals: player 1 answers in all of them, with the
    character alone (A), the room alone (C), or either (B). *)
Definition bins1 : list tensor3 := [one_AC; one_AC; one_B; zero; zero; zero; zero].
Definition bins2 : list tensor3 := repeat zero 7.

End three.

Section ThreePlayers.

#[local] Open Scope Z_scope.

Lemma three_sorted :
  posterior.sort_hypotheses (seq 1 2) 0 6 15
    (repeat (repeat posterior.zeros 7) 2, posterior.zeros)
    (hypotheses example.three_players)
  = Ok ([three.bins1; three.bins2], three.zero).
Proof. vm_compute. reflexivity. Qed.

Lemma three_after1 :
  posterior.after_answer three.bins1 = [three.both; three.both; three.zero].
Proof. vm_compute. reflexivity. Qed.

Lemma three_after2 :
  posterior.after_answer three.bins2 = [three.zero; three.zero; three.zero].
Proof. vm_compute. reflexivity. Qed.

Lemma three_sum_both : tensor.sumZ (tensor.by_room three.both) = 2.
Proof. vm_compute. reflexivity. Qed.

Lemma three_sum_zero : tensor.sumZ (tensor.by_room three.zero) = 0.
Proof. vm_compute. reflexivity. Qed.

Lemma three_received1 :
  map tensor.total (posterior.received three.bins1 [1; 0; 2]%nat) = [1; 2; 0].
Proof. vm_compute. reflexivity. Qed.

Lemma three_received2 :
  map tensor.total (posterior.received three.bins2 [2; 1; 0]%nat) = [0; 0; 0].
Proof. vm_compute. reflexivity. Qed.

Lemma three_entropy_both : posterior.entropy three.both (np.of_Z 2) = Fin (ln 2).
Proof.
  rewrite entropy_Fin by lia. f_equal.
  apply entropy_real_uniform; [lia| |by vm_compute].
  apply (bool_decide_unpack _). vm_compute. exact I.
Qed.

Lemma three_entropy_zero : posterior.entropy three.zero (np.of_Z 0) = Fin 0.
Proof. apply entropy_all_zero, zeros_all_zero. Qed.

(** The prior entropy: two hypotheses on one scenario, one on another. *)
Lemma three_prior :
  stats_entropy (statsfromcounts (hypCountByScenario example.three_players))
  = Fin (xlogx_real 3 2 + (xlogx_real 3 1 + 0)).
Proof.
  unfold statsfromcounts.
  assert (tensor.total (hypCountByScenario example.three_players) = 3) as ->
    by (vm_compute; reflexivity).
  change (0 <? 3) with true. cbn [stats_entropy].
  rewrite entropy_Fin by lia. f_equal.
  rewrite entropy_real_cells.
  assert (List.filter (fun c => 0 <? c)
            (tensor.cells (hypCountByScenario example.three_players)) = [2; 1]) as ->
    by (vm_compute; reflexivity).
  done.
Qed.

End ThreePlayers.


#[local] Arguments tensor.total : simpl never.
#[local] Arguments tensor.by_room : simpl never.
#[local] Arguments posterior.received : simpl never.
#[local] Arguments posterior.after_answer : simpl never.
#[local] Arguments posterior.entropy : simpl never.
#[local] Arguments np.argsort : simpl never.

(** The evaluation of the suggestion (0, 6, 15) in the three-player game:
    the expected entropy is [log 2]. *)
Lemma three_expected :
  ∃ p, fst (suggestionexpposteriors 0 6 15 example.three_players) = Ok p
     ∧ expEntropy p = Fin (ln 2).
Proof.
  unfold suggestionexpposteriors, bind, gets. cbn [fst snd].
  assert (nPlayers example.three_players = 3) as -> by (vm_compute; reflexivity).
  unfold posterior.suggestionexpposteriors.
  change (Z.of_nat 3 - 1 <? 0)%Z with false. cbn iota.
  change (Z.to_nat (Z.of_nat 3 - 1)) with 2.
  rewrite three_sorted.
  assert (length (hypotheses example.three_players) = 3) as -> by (vm_compute; reflexivity).
  unfold posterior.evaluate. cbv zeta.
  cbn [map]. rewrite three_after1, three_after2.
  cbn [map]. rewrite !three_sum_both, !three_sum_zero.
  cbn [zip_with]. rewrite !three_entropy_both, !three_entropy_zero.
  cbn [map]. rewrite (argsort_tie _ ln_2_pos), argsort_zeros.
  cbn [zip_with map]. rewrite three_received1, three_received2.
  change (Z.of_nat 3 =? tensor.sumZ (map tensor.sumZ [[1; 2; 0]; [0; 0; 0]]) + 0)%Z
    with true.
  cbn [negb]. eexists. split; [done|]. cbn [expEntropy].
  change (0 <? 0)%Z with false. cbn iota.
  unfold np.sum, np.of_Z. cbn [zip_with foldr np.mul np.add].
  unfold np.div. change (Z.of_nat 3) with 3%Z.
  destruct (Req_dec_T 3 0) as [E|_]; [lra|].
  f_equal. field.
Qed.

(** C4. In the three-player game [example.three_players] the expected
    entropy that [suggestionexpposteriors] returns for the suggestion
    (0, 6, 15) is [log 2], above the prior entropy
    [log 3 - (2/3) log 2] that [statsfromcounts] gives for the scenario
    counts of the same pool: the bound of the claim does not hold. *)
Theorem expected_entropy_above_prior :
  let s := example.three_players in
  ∃ p, fst (suggestionexpposteriors 0 6 15 s) = Ok p
     ∧ ¬ np.le (expEntropy p)
            (stats_entropy (statsfromcounts (hypCountByScenario s))).
Proof.
  intros s. destruct three_expected as (p & Hp & He).
  exists p. split; [done|].
  unfold s. rewrite He, three_prior. unfold np.le, xlogx_real.
  change (0 <? 2)%Z with true. change (0 <? 1)%Z with true. cbn iota.
  pose proof five_ln2_three_ln3 as H.
  assert (ln (2 / 3) = ln 2 - ln 3)%R as ->.
  { unfold Rdiv. rewrite ln_mult, ln_Rinv by lra. lra. }
  assert (ln (1 / 3) = - ln 3)%R as ->.
  { unfold Rdiv. rewrite Rmult_1_l, ln_Rinv by lra. lra. }
  lra.
Qed.


(* ################################################################# *)
(** * The event functions: wrong accusations and replays *)

(** C2. A call of [event_accusationwrong] with an accused triple raises
    [NameError] where it builds the log entry, before anything else is
    done: no hypothesis is removed, no count is changed, and the accusing
    player is not marked as ousted, so the turn rotation of [run] goes on
    selecting that player. *)
Theorem event_accusationwrong_raises (fuel : nat) (character room weapon : nat)
    (player : option nat) (w : World) :
  event_accusationwrong fuel (Some character) (Some room) (Some weapon) player w
  = (Raise NameError, w).
Proof. by destruct w. Qed.

(** C3. In the two-player game, after the Detective's pass on (2, 9, 17),
    the unseen answer of player 1 to (3, 12, 16) is recorded: 53 of the
    54 hypotheses remain. Called again without arguments,
    [event_unseenresponse] takes the last entry of the log of passes, not
    of the log of unseen answers: it removes every hypothesis, where the
    call with the arguments of the recorded answer keeps the 53. *)
Theorem unseenresponse_replay_diverges :
  let recorded := snd example.after_unseen_run in
  fst example.after_unseen_run = Ok tt ∧
  length (hypotheses (fst recorded)) = 53 ∧
  last (logUnseenAnswers (fst recorded)) = Some (mkEventUnseenAnswer 0 1 0 3 12 16) ∧
  last (logPasses (fst recorded)) = Some (mkEventPass 0 0 2 9 17) ∧
  hypotheses (fst (snd (event_unseenresponse 30 None None None None None recorded)))
    = [] ∧
  length (hypotheses (fst (snd (event_unseenresponse 30
            (Some 3) (Some 12) (Some 16) (Some 1) (Some 0) recorded)))) = 53.
Proof. vm_compute. repeat split. Qed.

(** The replay of an unseen answer reads the log of passes in every state:
    with no pass recorded it raises [IndexError], whatever the log of
    unseen answers holds. *)
Lemma unseenresponse_replay_reads_passes (fuel : nat) (w : World) :
  logPasses (fst w) = [] →
  event_unseenresponse fuel None None None None None w = (Raise IndexError, w).
Proof.
  intros H. destruct w as [s tape]. simpl in H.
  unfold event_unseenresponse, bind, get, gets, most_recent, orraise. simpl.
  by rewrite H.
Qed.


(* ################################################################# *)
(** * Detective.initialise: malformed setups *)

Lemma bind_Ok {S A B} (m : M S A) (k : A → M S B) (s s' : S) (a : A) :
  m s = (Ok a, s') → bind m k s = k a s'.
Proof. unfold bind. by intros ->. Qed.

Lemma bind_Raise {S A B} (m : M S A) (k : A → M S B) (s s' : S) (e : exn) :
  m s = (Raise e, s') → bind m k s = (Raise e, s').
Proof. unfold bind. by intros ->. Qed.








Ltac continue := erewrite bind_Ok; [|reflexivity]; cbn [fst snd].







(* ################################################################# *)
(** * Rules of total correctness *)

Section rules.
Context {A B : Type}.

Lemma total_ret (P : World → Prop) (a : A) (Q : A → World → Prop) :
  (∀ w, P w → Q a w) → total P (ret a) Q.
Proof. intros HPQ w Hw. exists a, w. split; [done|]. by apply HPQ. Qed.

Lemma total_skip (P : World → Prop) (a : A) : total P (ret a) (fun _ => P).
Proof. by apply total_ret. Qed.

Lemma total_bind (P : World → Prop) (m : M World A) (R : A → World → Prop)
    (k : A → M World B) (Q : B → World → Prop) :
  total P m R → (∀ a, total (R a) (k a) Q) → total P (bind m k) Q.
Proof.
  intros Hm Hk w Hw. destruct (Hm w Hw) as (a & w1 & Hrun & Ha).
  destruct (Hk a w1 Ha) as (b & w2 & Hrun2 & Hb).
  exists b, w2. split; [|done]. by erewrite bind_Ok.
Qed.

Lemma total_consequence (P P' : World → Prop) (m : M World A) (Q Q' : A → World → Prop) :
  (∀ w, P' w → P w) → (∀ a w, Q a w → Q' a w) → total P m Q → total P' m Q'.
Proof.
  intros HP HQ Hm w Hw. destruct (Hm w (HP w Hw)) as (a & w' & Hrun & Ha).
  exists a, w'. split; [done|]. by apply HQ.
Qed.

Lemma total_get (P : World → Prop) (f : Detective → A) (Q : A → World → Prop) :
  (∀ w, P w → Q (f (fst w)) w) → total P (get f) Q.
Proof. intros HPQ w Hw. exists (f (fst w)), w. split; [done|]. by apply HPQ. Qed.

Lemma total_put (P : World → Prop) (setter : A → Detective → Detective) (v : A)
    (Q : unit → World → Prop) :
  (∀ w, P w → Q tt (setter v (fst w), snd w)) → total P (put setter v) Q.
Proof. intros HPQ w Hw. eexists tt, _. split; [done|]. by apply HPQ. Qed.

(** A fact the precondition carries, which does not depend on the state. *)
Lemma total_assume (fact : Prop) (P : World → Prop) (m : M World A)
    (Q : A → World → Prop) :
  (fact → total P m Q) → total (fun w => fact ∧ P w) m Q.
Proof. intros Hm w [Hfact Hw]. by apply Hm. Qed.

End rules.

Lemma total_forM {A} (I : World → Prop) (xs : list A) (body : A → M World unit) :
  (∀ x, x ∈ xs → total I (body x) (fun _ => I)) →
  total I (forM_ xs body) (fun _ => I).
Proof.
  induction xs as [|x xs IH]; intros Hbody.
  - by apply total_ret.
  - cbn [forM_]. eapply total_bind.
    + apply Hbody. by left.
    + intros []. apply IH. intros y Hy. apply Hbody. by right.
Qed.

(** ** Up to the rebuild of the pool *)

Lemma bind_into {S A B} (m m' : M S A) (k : A → M S B) (s s' : S) :
  m s = m' s' → bind m k s = bind m' k s'.
Proof. unfold bind. by intros ->. Qed.

Lemma leads_here {A} (P R : World → Prop) (rest : M World A) :
  (∀ w, P w → R w) → leads P rest rest R.
Proof. intros HR w Hw. exists w. split; [done|by apply HR]. Qed.

Lemma leads_bind {A B} (P : World → Prop) (m : M World A) (Q : A → World → Prop)
    (k : A → M World B) (rest : M World B) (R : World → Prop) :
  total P m Q → (∀ a, leads (Q a) (k a) rest R) → leads P (bind m k) rest R.
Proof.
  intros Hm Hk w Hw. destruct (Hm w Hw) as (a & w1 & Hrun & Ha).
  destruct (Hk a w1 Ha) as (w2 & Hrest & Hw2). exists w2. split; [|done].
  unfold bind. by rewrite Hrun.
Qed.

Lemma leads_assume {A} (fact : Prop) (P : World → Prop) (m rest : M World A)
    (R : World → Prop) :
  (fact → leads P m rest R) → leads (fun w => fact ∧ P w) m rest R.
Proof. intros Hm w [Hfact Hw]. by apply Hm. Qed.


(* ################################################################# *)
(** * Detective.answersuggestion *)

Lemma ALLOWEDCARDS_bound (card : nat) :
  card ∈ game.ALLOWEDCARDS → card < game.NCARDS.
Proof.
  revert card. apply (bool_decide_unpack (∀ x, x ∈ game.ALLOWEDCARDS → x < game.NCARDS)).
  vm_compute. exact I.
Qed.

Section keeping.
Variables (n : nat) (mode : bool) (tape : list nat).
Variables (cards : list nat) (mine : gset nat).
Variables (seen : list EventSeenAnswer) (passes : list EventPass).
Variables (pinned : Prop) (like : Detective).

Let kept : World → Prop := stable n mode tape cards mine seen passes pinned like.

Lemma forbidden_set_kept (ixPlayer card : nat) (flag : bool) :
  ixPlayer < n + 1 → card < game.NCARDS →
  (pinned → forbidden_at (forbidden like) ixPlayer card = Some flag) →
  total kept (forbidden_set ixPlayer card flag) (fun _ => kept).
Proof.
  intros Hi Hc Hsame [d t] [Hn He Hcs Hs Hp Hr Hcol Hsets Hh Ht Hpool Hst Hcon].
  cbn [fst] in *.
  destruct (lookup_lt_is_Some_2 (forbidden d) ixPlayer) as [row Hrow]; [lia|].
  assert (length row = game.NCARDS) as Hlen
    by (by eapply (proj1 (Forall_lookup _ _) Hcol)).
  unfold forbidden_set. erewrite bind_Ok; [|reflexivity]. cbn [fst].
  rewrite Hrow. erewrite bind_Ok; [|reflexivity].
  destruct (Nat.ltb_spec card (length row)) as [_|]; [|lia].
  eexists tt, _. split; [reflexivity|].
  assert (pinned → <[ixPlayer := <[card := flag]> row]> (forbidden d) = forbidden d)
    as Hid.
  { intros Hpin. destruct (Hcon Hpin) as [Hf _]. specialize (Hsame Hpin).
    rewrite <- Hf in Hsame. unfold forbidden_at in Hsame. rewrite Hrow in Hsame.
    cbn in Hsame. by rewrite (list_insert_id row), list_insert_id. }
  destruct d; cbn in *.
  constructor; cbn; try done.
  - by rewrite length_insert.
  - apply Forall_insert; [done|]. by rewrite length_insert.
  - intros Hpin. rewrite (Hid Hpin). by apply Hcon.
Qed.

Lemma forbiddenSets_add_kept (ixPlayer card : nat) :
  ixPlayer < n + 1 →
  (pinned → ∃ s, forbiddenSets like !! ixPlayer = Some s ∧ card ∈ s) →
  total kept (forbiddenSets_add ixPlayer card) (fun _ => kept).
Proof.
  intros Hi Hsame [d t] [Hn He Hcs Hs Hp Hr Hcol Hsets Hh Ht Hpool Hst Hcon].
  cbn [fst] in *.
  destruct (lookup_lt_is_Some_2 (forbiddenSets d) ixPlayer) as [s Hset]; [lia|].
  unfold forbiddenSets_add. erewrite bind_Ok; [|reflexivity]. cbn [fst].
  rewrite Hset. erewrite bind_Ok; [|reflexivity].
  eexists tt, _. split; [reflexivity|].
  assert (pinned → <[ixPlayer := s ∪ {[card]}]> (forbiddenSets d) = forbiddenSets d)
    as Hid.
  { intros Hpin. destruct (Hcon Hpin) as [_ Hfs].
    destruct (Hsame Hpin) as (s' & Hs' & Hin). rewrite <- Hfs, Hset in Hs'.
    injection Hs' as <-.
    replace (s ∪ {[card]}) with s; [by rewrite list_insert_id|].
    apply leibniz_equiv. intros x. rewrite elem_of_union, elem_of_singleton.
    split; [by left|]. by intros [?| ->]. }
  destruct d; cbn in *.
  constructor; cbn; try done.
  - by rewrite length_insert.
  - intros Hpin. rewrite (Hid Hpin). by apply Hcon.
Qed.

Lemma forbiddenSets_discard_kept (ixPlayer card : nat) :
  (pinned → ∀ s, forbiddenSets like !! ixPlayer = Some s → card ∉ s) →
  total kept (forbiddenSets_discard ixPlayer card) (fun _ => kept).
Proof.
  intros Hsame [d t] [Hn He Hcs Hs Hp Hr Hcol Hsets Hh Ht Hpool Hst Hcon].
  cbn [fst] in *.
  unfold forbiddenSets_discard. erewrite bind_Ok; [|reflexivity]. cbn [fst].
  destruct (forbiddenSets d !! ixPlayer) as [s|] eqn:Hset;
    [|eexists tt, _; split; [reflexivity|by constructor]].
  eexists tt, _. split; [reflexivity|].
  assert (pinned → <[ixPlayer := s ∖ {[card]}]> (forbiddenSets d) = forbiddenSets d)
    as Hid.
  { intros Hpin. destruct (Hcon Hpin) as [_ Hfs].
    assert (card ∉ s) as Hout by (apply (Hsame Hpin); by rewrite <- Hfs).
    replace (s ∖ {[card]}) with s; [by rewrite list_insert_id|].
    apply leibniz_equiv. intros x. rewrite elem_of_difference, elem_of_singleton.
    split; [|by intros [? _]]. intros Hx. split; [done|]. by intros ->. }
  destruct d; cbn in *.
  constructor; cbn; try done.
  - by rewrite length_insert.
  - intros Hpin. rewrite (Hid Hpin). by apply Hcon.
Qed.

Lemma close_family_kept (card : nat) (family : gset nat) :
  card ∈ family → family ⊆ game.ALLOWEDCARDS →
  (pinned →
   forallb (fun flag : bool => flag) (column (forbidden like) n card) = true →
   ∀ other, other ∈ family → other ≠ card →
     forbidden_at (forbidden like) n other = Some true ∧
     ∃ s, forbiddenSets like !! n = Some s ∧ other ∈ s) →
  total kept (close_family card family) (fun _ => kept).
Proof.
  intros Hcard Hfamily Hsame. unfold close_family.
  eapply total_bind; [apply (total_get kept _ (fun v w => v = n ∧ kept w))|].
  { intros w Hw. split; [apply Hw|done]. }
  intros n'.
  eapply total_bind;
    [apply (total_get _ _ (fun v w => (n' = n ∧ (pinned → v = forbidden like)) ∧ kept w))|].
  { intros w [-> Hw]. split_and!; [done| |done]. intros Hpin.
    by apply (stable_constraints _ _ _ _ _ _ _ _ _ _ Hw). }
  intros f. apply total_assume. intros [-> Hf].
  destruct (forallb _ (column f n card)) eqn:Hcolumn; [|apply total_skip].
  rewrite bool_decide_eq_true_2 by done.
  eapply total_bind; [apply total_skip|]. intros [].
  apply total_forM. intros other Hother.
  apply elem_of_elements, elem_of_difference in Hother as [Hin Hne].
  rewrite elem_of_singleton in Hne.
  eapply total_bind;
    [apply forbidden_set_kept; [lia|by apply ALLOWEDCARDS_bound, Hfamily|]
    |intros []; apply forbiddenSets_add_kept; [lia|]].
  - intros Hpin. rewrite (Hf Hpin) in Hcolumn. by apply (Hsame Hpin Hcolumn other).
  - intros Hpin. rewrite (Hf Hpin) in Hcolumn. by apply (Hsame Hpin Hcolumn other).
Qed.

(** When every hypothesis is kept, the loop of [reduce_hypotheses]
    rebuilds the list it started from. *)
Lemma keep_all (keep : hypothesis → result bool) (hyps : list hypothesis) (w : World) :
  Forall (fun h => keep h = Ok true) hyps →
  ∀ m k acc, k + m = length hyps →
    foldM (fun hypsNew ixHyp =>
             bind (orraise IndexError (hyps !! ixHyp)) (fun h =>
             bind (lift (keep h)) (fun k : bool =>
               if k then ret (hypsNew ++ [h])
               else bind (removehypfromcounts ixHyp) (fun _ => ret hypsNew))))
          acc (seq k m) w
    = (Ok (acc ++ drop k hyps), w).
Proof.
  intros Hkeep. induction m as [|m IH]; intros k acc Hk.
  - cbn. rewrite drop_ge by lia. by rewrite app_nil_r.
  - destruct (lookup_lt_is_Some_2 hyps k) as [h Hh]; [lia|].
    cbn [seq foldM]. rewrite (bind_Ok _ _ w w (acc ++ [h])).
    + rewrite IH by lia. rewrite (drop_S _ _ _ Hh). by rewrite <- app_assoc.
    + rewrite Hh. erewrite bind_Ok; [|reflexivity].
      erewrite bind_Ok;
        [|unfold lift; by rewrite (proj1 (Forall_lookup _ _) Hkeep k h Hh)].
      reflexivity.
Qed.

Lemma reduce_hypotheses_kept (keep : hypothesis → result bool) :
  (∀ h, head (hands h) = Some mine → keep h = Ok true) →
  total kept (reduce_hypotheses keep) (fun _ => kept).
Proof.
  intros Hkeep [d t] Hw. unfold reduce_hypotheses.
  erewrite bind_Ok; [|reflexivity]. cbn [fst].
  erewrite bind_Ok; [|apply (keep_all keep (hypotheses d) (d, t)); [|done]].
  2:{ eapply Forall_impl; [apply Hw|]. exact Hkeep. }
  rewrite drop_0. cbn [app].
  eexists tt, _. split; [reflexivity|].
  destruct Hw. destruct d; cbn in *. by constructor.
Qed.

End keeping.

(** The Detective shows one of its cards: the event is logged, every
    hypothesis is kept, and the pool is rebuilt. *)
Lemma event_seenresponse_noted (fuel card viewer n : nat) (mode : bool)
    (cards : list nat) (mine : gset nat) (seen : list EventSeenAnswer)
    (passes : list EventPass) (pinned : Prop) (like d : Detective) (tape : list nat) :
  card < game.NCARDS → card ∈ mine →
  nPlayers like = n → (pinned → knows_own like card) →
  stable n mode tape cards mine seen passes pinned like (d, tape) →
  ∃ w1, event_seenresponse fuel (Some card) (Some 0) (Some viewer) (d, tape)
        = bind (rebuildhypotheses fuel) (fun _ => updatestats) w1 ∧
        stable n mode tape cards mine
          (seen ++ [mkEventSeenAnswer (ixTurn d) 0 viewer card]) passes pinned like w1.
Proof.
  intros Hcard Hmine Hlike Hknown Hw. unfold event_seenresponse.
  set (event := mkEventSeenAnswer (ixTurn d) 0 viewer card).
  set (kept := stable n mode tape cards mine (seen ++ [event]) passes pinned like).
  erewrite bind_Ok; [|reflexivity]. cbn [fst snd default].
  match goal with |- ∃ w1, ?m ?w = ?rest w1 ∧ _ =>
    enough (leads kept m rest kept) as Hrest; [apply Hrest|]
  end.
  { destruct Hw as [? ? ? <- ? ? ? ? ? ? ? ? ?]. destruct d; cbn in *. by constructor. }
  eapply leads_bind;
    [apply (total_get kept _ (fun v w => v = n ∧ kept w)); intros w Hk; split;
       [apply Hk|done]|].
  intros n'. apply leads_assume. intros ->.
  eapply leads_bind.
  { apply total_forM. intros ixPlayer Hin. apply elem_of_seq in Hin.
    assert (pinned → forbidden_at (forbidden like) ixPlayer card
                       = Some (negb (ixPlayer =? 0)) ∧
                     ∃ s, forbiddenSets like !! ixPlayer = Some s ∧
                          (card ∈ s ↔ ixPlayer ≠ 0)) as Hp.
    { intros Hpin. apply (Hknown Hpin). lia. }
    cbn [seen_actor seen_card event]. unfold Datatypes.id.
    destruct (Nat.eqb_spec ixPlayer 0) as [->|Hne]; cbn [negb].
    - eapply total_bind; [apply forbidden_set_kept; [lia|done|]|].
      { intros Hpin. by destruct (Hp Hpin) as [-> _]. }
      intros []. apply forbiddenSets_discard_kept.
      intros Hpin s Hs Hin'. destruct (Hp Hpin) as (_ & s' & Hs' & Hiff).
      rewrite Hs in Hs'. injection Hs' as <-. by apply Hiff.
    - eapply total_bind; [apply forbidden_set_kept; [lia|done|]|].
      { intros Hpin. destruct (Hp Hpin) as [-> _].
        by destruct (Nat.eqb_spec ixPlayer 0). }
      intros []. apply forbiddenSets_add_kept; [lia|].
      intros Hpin. destruct (Hp Hpin) as (_ & s & Hs & Hiff).
      exists s. split; [done|]. by apply Hiff. }
  intros []. eapply leads_bind.
  { apply reduce_hypotheses_kept. intros h Hh. unfold getitem.
    destruct (hands h) as [|hand rest]; [done|]. cbn in *.
    injection Hh as ->. by rewrite bool_decide_eq_true_2. }
  intros []. by apply leads_here.
Qed.

Lemma families_allowed :
  game.ALLOWEDCHARS ⊆ game.ALLOWEDCARDS ∧ game.ALLOWEDROOMS ⊆ game.ALLOWEDCARDS ∧
  game.ALLOWEDWEAPS ⊆ game.ALLOWEDCARDS.
Proof. split_and!; computed. Qed.

Lemma forbid_passed_kept (card n : nat) (mode : bool) (tape : list nat)
    (family : gset nat) (cards : list nat)
    (mine : gset nat) (seen : list EventSeenAnswer) (passes : list EventPass)
    (pinned : Prop) (like : Detective) :
  card ∈ family → family ⊆ game.ALLOWEDCARDS →
  nPlayers like = n → (pinned → knows_absent like card family) →
  total (stable n mode tape cards mine seen passes pinned like)
        (forbid_passed 0 card family)
        (fun _ => stable n mode tape cards mine seen passes pinned like).
Proof.
  intros Hcard Hfamily Hlike Hknown. unfold forbid_passed.
  eapply total_bind;
    [apply forbidden_set_kept; [lia|by apply ALLOWEDCARDS_bound, Hfamily|]|].
  { intros Hpin. apply (Hknown Hpin). }
  intros []. eapply total_bind; [apply forbiddenSets_add_kept; [lia|]|].
  { intros Hpin. apply (Hknown Hpin). }
  intros []. apply close_family_kept; [done..|].
  intros Hpin. rewrite <- Hlike. apply (Hknown Hpin).
Qed.

(** The Detective passes on three cards it does not hold: the event is
    logged, every hypothesis is kept, and the pool is rebuilt. *)
Lemma event_pass_noted (fuel character room weapon n : nat) (mode : bool)
    (cards : list nat) (mine : gset nat) (seen : list EventSeenAnswer)
    (passes : list EventPass) (pinned : Prop) (like d : Detective) (tape : list nat) :
  character ∈ game.ALLOWEDCHARS → room ∈ game.ALLOWEDROOMS →
  weapon ∈ game.ALLOWEDWEAPS →
  mine ∩ {[ character; room; weapon ]} = ∅ →
  nPlayers like = n →
  (pinned → knows_absent like character game.ALLOWEDCHARS ∧
            knows_absent like room game.ALLOWEDROOMS ∧
            knows_absent like weapon game.ALLOWEDWEAPS) →
  stable n mode tape cards mine seen passes pinned like (d, tape) →
  ∃ w1, event_pass fuel (Some character) (Some room) (Some weapon) (Some 0) (d, tape)
        = bind (rebuildhypotheses fuel) (fun _ => updatestats) w1 ∧
        stable n mode tape cards mine seen
          (passes ++ [mkEventPass (ixTurn d) 0 character room weapon]) pinned like w1.
Proof.
  intros Hc Hr Hwp Hnone Hlike Hknown Hw. unfold event_pass.
  destruct families_allowed as (Hchars & Hrooms & Hweaps).
  set (event := mkEventPass (ixTurn d) 0 character room weapon).
  set (kept := stable n mode tape cards mine seen (passes ++ [event]) pinned like).
  erewrite bind_Ok; [|reflexivity]. cbn [fst snd default].
  match goal with |- ∃ w1, ?m ?w = ?rest w1 ∧ _ =>
    enough (leads kept m rest kept) as Hrest; [apply Hrest|]
  end.
  { destruct Hw as [? ? ? ? <- ? ? ? ? ? ? ? ?]. destruct d; cbn in *. by constructor. }
  eapply leads_bind; [apply forbid_passed_kept; [done..|]|].
  { intros Hpin. apply (Hknown Hpin). }
  intros [].
  eapply leads_bind; [apply forbid_passed_kept; [done..|]|].
  { intros Hpin. apply (Hknown Hpin). }
  intros [].
  eapply leads_bind; [apply forbid_passed_kept; [done..|]|].
  { intros Hpin. apply (Hknown Hpin). }
  intros []. cbn zeta.
  eapply leads_bind.
  { apply reduce_hypotheses_kept. intros h Hh. unfold hand_of, getitem.
    destruct (hands h) as [|hand rest]; [done|]. cbn in Hh |- *.
    injection Hh as ->. f_equal. apply Nat.eqb_eq, size_empty_iff.
    apply elem_of_equiv_empty. intros x [Hx Hhand]%elem_of_intersection.
    apply (not_elem_of_empty (C := gset nat) x). rewrite <- Hnone.
    by apply elem_of_intersection. }
  intros []. by apply leads_here.
Qed.

(* ----------------------------------------------------------------- *)
(** ** The choice of the card *)

Lemma index_in_Some (cards : list nat) (card : nat) :
  card ∈ cards → ∃ ix, index_in cards card = Some ix ∧ cards !! ix = Some card.
Proof.
  intros Hin. unfold index_in.
  destruct (list_find_elem_of (fun c => c = card) cards card Hin eq_refl)
    as [[ix c] Hfind].
  rewrite Hfind. exists ix. split; [done|].
  by apply list_find_Some in Hfind as (Hix & -> & _).
Qed.

(** The positions in [myCards] of the cards of [showables]. *)
Lemma showable_indices (cards showables : list nat) (w : World) :
  (∀ card, card ∈ showables → card ∈ cards) →
  ∀ acc, ∃ ixs,
    foldM (fun out card =>
             bind (orraise ValueError (index_in cards card))
                  (fun ix => ret (out ++ [ix]))) acc showables w
    = (Ok (acc ++ ixs), w) ∧
    length ixs = length showables ∧
    Forall (fun ix => ∃ card, cards !! ix = Some card ∧ card ∈ showables) ixs.
Proof.
  induction showables as [|card showables IH]; intros Hsub acc.
  - exists []. by rewrite app_nil_r.
  - destruct (index_in_Some cards card) as (ix & Hix & Hcard);
      [apply Hsub; by left|].
    destruct (IH (fun c Hc => Hsub c (list_elem_of_further _ _ _ Hc)) (acc ++ [ix]))
      as (ixs & Hrun & Hlen & Hall).
    exists (ix :: ixs). split_and!.
    + cbn [foldM]. rewrite (bind_Ok _ _ w w (acc ++ [ix])).
      * rewrite Hrun. by rewrite <- app_assoc.
      * by rewrite Hix.
    + cbn. by rewrite Hlen.
    + constructor.
      * exists card. split; [done|]. by left.
      * eapply Forall_impl; [exact Hall|]. intros i (c & ? & ?).
        exists c. split; [done|]. by right.
Qed.

(** Of these positions, the ones of the cards shown to the suggester
    before. *)
Lemma shown_indices (shownTo : list (list bool)) (suggester width : nat)
    (ixs : list nat) (w : World) :
  1 <= suggester <= length shownTo →
  Forall (fun flags => length flags = width) shownTo →
  Forall (fun ix => ix < width) ixs →
  ∀ acc, ∃ shown,
    foldM (fun out ix =>
             bind (orraise IndexError (shown_to shownTo suggester ix))
                  (fun shown : bool => if shown then ret (out ++ [ix]) else ret out))
          acc ixs w
    = (Ok (acc ++ shown), w) ∧
    ∀ ix, ix ∈ shown → ix ∈ ixs.
Proof.
  intros Hs Hrows. induction ixs as [|ix ixs IH]; intros Hixs acc.
  - exists []. split; [by rewrite app_nil_r|done].
  - apply Forall_cons in Hixs as [Hix Hixs].
    assert (∃ flag, shown_to shownTo suggester ix = Some flag) as [flag Hflag].
    { unfold shown_to, np.index.
      destruct (Z.leb_spec 0 (Z.of_nat suggester - 1)) as [_|]; [|lia].
      destruct (Z.ltb_spec (Z.of_nat suggester - 1) (Z.of_nat (length shownTo)))
        as [_|]; [|lia].
      cbn [andb mbind option_bind].
      destruct (lookup_lt_is_Some_2 shownTo (Z.to_nat (Z.of_nat suggester - 1)))
        as [flags Hflags]; [lia|].
      rewrite Hflags. cbn [mbind option_bind].
      apply lookup_lt_is_Some_2.
      rewrite (proj1 (Forall_lookup _ _) Hrows _ _ Hflags). done. }
    destruct flag.
    + destruct (IH Hixs (acc ++ [ix])) as (shown & Hrun & Hsub).
      exists (ix :: shown). split.
      * cbn [foldM]. rewrite (bind_Ok _ _ w w (acc ++ [ix])).
        -- rewrite Hrun. by rewrite <- app_assoc.
        -- by rewrite Hflag.
      * intros i [->|Hi]%elem_of_cons; [by left|]. right. by apply Hsub.
    + destruct (IH Hixs acc) as (shown & Hrun & Hsub).
      exists shown. split.
      * cbn [foldM]. rewrite (bind_Ok _ _ w w acc); [done|]. by rewrite Hflag.
      * intros i Hi. right. by apply Hsub.
Qed.

(** The counts of the candidates. *)
Lemma candidate_counts (counts : list Z) (candidates : list nat) (w : World) :
  Forall (fun ix => ix < length counts) candidates →
  ∀ acc, ∃ cs,
    foldM (fun out ix =>
             bind (orraise IndexError (counts !! ix)) (fun c => ret (out ++ [c])))
          acc candidates w
    = (Ok (acc ++ cs), w) ∧ length cs = length candidates.
Proof.
  induction candidates as [|ix candidates IH]; intros Hall acc.
  - exists []. by rewrite app_nil_r.
  - apply Forall_cons in Hall as [Hix Hall].
    destruct (lookup_lt_is_Some_2 counts ix Hix) as [c Hc].
    destruct (IH Hall (acc ++ [c])) as (cs & Hrun & Hlen).
    exists (c :: cs). split; [|cbn; by rewrite Hlen].
    cbn [foldM]. rewrite (bind_Ok _ _ w w (acc ++ [c])).
    + rewrite Hrun. by rewrite <- app_assoc.
    + by rewrite Hc.
Qed.

Lemma argmax_bound (xs : list Z) : xs ≠ [] → argmax xs < length xs.
Proof.
  destruct xs as [|x rest]; [done|]. intros _. unfold argmax.
  enough (∀ best bestVal i, best < i →
            (fst (fst (fold_left (fun '(best, bestVal, i) v =>
                        if (bestVal <? v)%Z then (i, v, S i) else (best, bestVal, S i))
                      rest (best, bestVal, i))) < i + length rest)) as Hgen.
  { cbn [length]. specialize (Hgen 0 x 1). lia. }
  induction rest as [|v rest IH]; intros best bestVal i Hi; cbn [fold_left length].
  - cbn. lia.
  - destruct (bestVal <? v)%Z.
    + specialize (IH i v (S i)). lia.
    + specialize (IH best bestVal (S i)). lia.
Qed.

(** [show_card]: one of the candidates is counted and logged as shown by
    the Detective to the suggester; it is returned once the pool has been
    rebuilt. *)
Lemma show_card_shows (fuel : nat) (candidates : list nat) (mark : bool)
    (suggester n : nat) (mode : bool) (mine : gset nat) (seen : list EventSeenAnswer)
    (passes : list EventPass) (pinned : Prop) (d : Detective) (tape : list nat) :
  candidates ≠ [] →
  Forall (fun ix => ∃ card, myCards d !! ix = Some card ∧ card ∈ mine ∧
                            card < game.NCARDS ∧ (pinned → knows_own d card))
         candidates →
  nPlayers d = n →
  length (myCardsShownCounts d) = length (myCards d) →
  1 <= suggester <= length (myCardsShownTo d) →
  Forall (fun flags => length flags = length (myCards d)) (myCardsShownTo d) →
  stable n mode tape (myCards d) mine seen passes pinned d (d, tape) →
  ∃ card ix w1,
    show_card fuel candidates mark suggester (d, tape)
    = bind (bind (rebuildhypotheses fuel) (fun _ => updatestats))
           (fun _ => bind (get myCards) (fun cards => orraise IndexError (cards !! ix)))
           w1 ∧
    ix ∈ candidates ∧ myCards d !! ix = Some card ∧
    stable n mode tape (myCards d) mine
      (seen ++ [mkEventSeenAnswer (ixTurn d) 0 suggester card]) passes pinned d w1.
Proof.
  intros Hne Hcand Hlike Hcounts Hs Hrows Hw. unfold show_card.
  assert (Forall (fun ix => ix < length (myCards d)) candidates) as Hlt.
  { eapply Forall_impl; [exact Hcand|]. intros ix (card & Hix & _).
    by apply lookup_lt_Some in Hix. }
  erewrite bind_Ok; [|reflexivity]. cbn [fst].
  destruct (candidate_counts (myCardsShownCounts d) candidates (d, tape)) with (acc := @nil Z)
    as (cs & Hcs & Hlen); [by rewrite Hcounts|].
  erewrite bind_Ok; [|exact Hcs]. cbn [app].
  assert (argmax cs < length candidates) as Hargmax.
  { rewrite <- Hlen. apply argmax_bound. intros ->. by destruct candidates. }
  destruct (lookup_lt_is_Some_2 candidates _ Hargmax) as [ixCard HixCard].
  rewrite HixCard. erewrite bind_Ok; [|reflexivity].
  assert (ixCard ∈ candidates) as Hin by (by eapply list_elem_of_lookup_2).
  destruct (proj1 (Forall_forall _ _) Hcand ixCard Hin)
    as (card & Hcard & Hmine & Hbound & Hknown).
  assert (ixCard < length (myCards d)) as HixLt by (by apply lookup_lt_Some in Hcard).
  (* the flag of the card shown *)
  match goal with |- ∃ card ix w1, bind ?m _ _ = _ ∧ _ =>
    assert (∃ shownTo, m (d, tape) = (Ok tt, (set_myCardsShownTo shownTo d, tape)))
      as [shownTo Hmark]
  end.
  { destruct mark; [|exists (myCardsShownTo d); by destruct d].
    erewrite bind_Ok; [|reflexivity]. cbn [fst]. unfold np.index.
    destruct (Z.leb_spec 0 (Z.of_nat suggester - 1)) as [_|]; [|lia].
    destruct (Z.ltb_spec (Z.of_nat suggester - 1) (Z.of_nat (length (myCardsShownTo d))))
      as [_|]; [|lia].
    cbn [andb]. erewrite bind_Ok; [|reflexivity].
    destruct (lookup_lt_is_Some_2 (myCardsShownTo d) (Z.to_nat (Z.of_nat suggester - 1)))
      as [flags Hflags]; [lia|].
    rewrite Hflags. erewrite bind_Ok; [|reflexivity].
    rewrite (proj1 (Forall_lookup _ _) Hrows _ _ Hflags).
    destruct (Nat.ltb_spec ixCard (length (myCards d))) as [_|]; [|lia].
    by eexists. }
  erewrite bind_Ok; [|exact Hmark].
  (* the count of the card shown *)
  erewrite bind_Ok; [|reflexivity]. cbn [fst].
  replace (myCardsShownCounts (set_myCardsShownTo shownTo d))
    with (myCardsShownCounts d) by (by destruct d).
  destruct (lookup_lt_is_Some_2 (myCardsShownCounts d) ixCard) as [c Hc]; [lia|].
  rewrite Hc. do 3 (erewrite bind_Ok; [|reflexivity]). cbn [fst snd].
  set (d2 := set_myCardsShownCounts _ _).
  assert (myCards d2 = myCards d) as Hcards by (by destruct d).
  assert (ixTurn d2 = ixTurn d) as Hturn by (by destruct d).
  rewrite Hcards, Hcard. erewrite bind_Ok; [|reflexivity].
  destruct (event_seenresponse_noted fuel card suggester n mode (myCards d) mine seen
              passes pinned d d2 tape Hbound Hmine Hlike Hknown) as (w1 & Hrun & Hw1).
  { subst d2. destruct Hw. destruct d; cbn in *. by constructor. }
  rewrite Hturn in Hw1.
  exists card, ixCard, w1. split_and!; [|done..].
  by apply bind_into.
Qed.


(* ################################################################# *)
(** * Rules of partial correctness *)

Lemma bind_returns {S A B} (m : M S A) (k : A → M S B) (s s' : S) (b : B) :
  bind m k s = (Ok b, s') → ∃ a s1, m s = (Ok a, s1) ∧ k a s1 = (Ok b, s').
Proof.
  unfold bind. destruct (m s) as [[a|e|] s1]; [|done..]. intros Hk. by exists a, s1.
Qed.

(** ** Computations that read the Detective *)

Section reading.
Context {A B : Type}.
Variable d : Detective.

Lemma reads_ret (a : A) (Q : A → Prop) : Q a → reads d (ret a) Q.
Proof. intros HQ tape a' w' [= <- <-]. done. Qed.

Lemma reads_raise (e : exn) (Q : A → Prop) : reads d (raise e) Q.
Proof. by intros tape a w'. Qed.

Lemma reads_bind (m : M World A) (R : A → Prop) (k : A → M World B) (Q : B → Prop) :
  reads d m R → (∀ a, R a → reads d (k a) Q) → reads d (bind m k) Q.
Proof.
  intros Hm Hk tape b w' (a & [d1 tape1] & Hrun & Hrest)%bind_returns.
  destruct (Hm tape a _ Hrun) as [Hd Ha]. cbn in Hd. subst d1.
  by apply (Hk a Ha tape1).
Qed.

Lemma reads_weaken (m : M World A) (Q Q' : A → Prop) :
  (∀ a, Q a → Q' a) → reads d m Q → reads d m Q'.
Proof. intros HQ Hm tape a w' Hrun. destruct (Hm tape a w' Hrun). auto. Qed.

Lemma reads_get (f : Detective → A) (Q : A → Prop) : Q (f d) → reads d (get f) Q.
Proof. intros HQ tape a w' [= <- <-]. done. Qed.

Lemma reads_orraise (e : exn) (o : option A) (Q : A → Prop) :
  (∀ a, o = Some a → Q a) → reads d (orraise e o) Q.
Proof. intros HQ tape a w'. destruct o; [|done]. intros [= <- <-]. auto. Qed.

Lemma reads_lift (r : result A) (Q : A → Prop) :
  (∀ a, r = Ok a → Q a) → reads d (lift r) Q.
Proof. intros HQ tape a w' [= -> <-]. auto. Qed.

End reading.

Lemma reads_foldM {A B} (d : Detective) (f : B → A → M World B) (xs : list A) (I : B → Prop) (b : B) :
  I b → (∀ b x, x ∈ xs → I b → reads d (f b x) I) → reads d (foldM f b xs) I.
Proof.
  revert b. induction xs as [|x xs IH]; intros b Hb Hf.
  - by apply reads_ret.
  - cbn [foldM]. eapply reads_bind; [apply Hf; [by left|done]|].
    intros b' Hb'. apply IH; [done|]. intros b2 y Hy. apply Hf. by right.
Qed.

Lemma reads_draw (d : Detective) (Q : nat → Prop) : (∀ x, Q x) → reads d draw Q.
Proof. intros HQ tape a w' [= <- <-]. done. Qed.

(** ** Computations that leave the Detective alone, also when they raise *)

Lemma keeps_ret {A} (a : A) : keeps_detective (ret a : M World A).
Proof. by intros w. Qed.

Lemma keeps_raise {A} (e : exn) : keeps_detective (raise e : M World A).
Proof. by intros w. Qed.

Lemma keeps_bind {A B} (m : M World A) (k : A → M World B) :
  keeps_detective m → (∀ a, keeps_detective (k a)) → keeps_detective (bind m k).
Proof.
  intros Hm Hk w. unfold bind. specialize (Hm w).
  destruct (m w) as [[a|e|] w1]; [|done..]. rewrite <- Hm. apply Hk.
Qed.

Lemma keeps_get {A} (f : Detective → A) : keeps_detective (get f).
Proof. by intros w. Qed.

Lemma keeps_orraise {A} (e : exn) (o : option A) :
  keeps_detective (orraise e o : M World A).
Proof. intros w. by destruct o. Qed.

Lemma keeps_draw : keeps_detective draw.
Proof. by intros w. Qed.

(** ** Computations that change the Detective *)

Section changing.
Context {A B : Type}.

Lemma partial_ret (P : Detective → Prop) (a : A) (Q : A → Detective → Prop) :
  (∀ d, P d → Q a d) → partial P (ret a) Q.
Proof. intros HQ w a' w' Hw [= <- <-]. auto. Qed.

Lemma partial_raise (P : Detective → Prop) (e : exn) (Q : A → Detective → Prop) :
  partial P (raise e) Q.
Proof. by intros w a w' Hw. Qed.

Lemma partial_bind (P : Detective → Prop) (m : M World A) (R : A → Detective → Prop)
    (k : A → M World B) (Q : B → Detective → Prop) :
  partial P m R → (∀ a, partial (R a) (k a) Q) → partial P (bind m k) Q.
Proof.
  intros Hm Hk w b w' Hw (a & w1 & Hrun & Hrest)%bind_returns.
  eapply Hk; [|exact Hrest]. by eapply Hm.
Qed.

Lemma partial_consequence (P P' : Detective → Prop) (m : M World A)
    (Q Q' : A → Detective → Prop) :
  (∀ d, P' d → P d) → (∀ a d, Q a d → Q' a d) → partial P m Q → partial P' m Q'.
Proof. intros HP HQ Hm w a w' Hw Hrun. eapply HQ, Hm; [|done]. auto. Qed.

Lemma partial_strengthen (P P' : Detective → Prop) (m : M World A)
    (Q : A → Detective → Prop) :
  (∀ d, P' d → P d) → partial P m Q → partial P' m Q.
Proof. intros HP Hm w a w' Hw Hrun. eapply Hm; [|done]. auto. Qed.

Lemma partial_from (P : Detective → Prop) (m : M World A) (Q : A → Detective → Prop) :
  (∀ d0, P d0 → partial (fun d => d = d0) m Q) → partial P m Q.
Proof. intros Hm w a w' Hw Hrun. by eapply (Hm (fst w) Hw w). Qed.

Lemma partial_assume (fact : Prop) (P : Detective → Prop) (m : M World A)
    (Q : A → Detective → Prop) :
  (fact → partial P m Q) → partial (fun d => fact ∧ P d) m Q.
Proof. intros Hm w a w' [Hfact Hw]. by apply Hm. Qed.

Lemma partial_get (P : Detective → Prop) (f : Detective → A) :
  partial P (get f) (fun a d => a = f d ∧ P d).
Proof. intros w a w' Hw [= <- <-]. done. Qed.

Lemma partial_put (P : Detective → Prop) (setter : A → Detective → Detective) (v : A)
    (Q : unit → Detective → Prop) :
  (∀ d, P d → Q tt (setter v d)) → partial P (put setter v) Q.
Proof. intros HQ w [] w' Hw [= <-]. by apply HQ. Qed.

Lemma partial_orraise (P : Detective → Prop) (e : exn) (o : option A) :
  partial P (orraise e o) (fun a d => o = Some a ∧ P d).
Proof. intros w a w' Hw. destruct o; [|done]. by intros [= <- <-]. Qed.

Lemma partial_lift (P : Detective → Prop) (r : result A) :
  partial P (lift r) (fun a d => r = Ok a ∧ P d).
Proof. by intros w a w' Hw [= -> <-]. Qed.

Lemma partial_reads (P : Detective → Prop) (m : M World A) (Q : A → Detective → Prop) :
  (∀ d, P d → reads d m (fun a => Q a d)) → partial P m Q.
Proof.
  intros Hm [d tape] a w' Hw Hrun. destruct (Hm d Hw tape a w' Hrun) as [-> Ha]. done.
Qed.

End changing.

Lemma partial_foldM {A B} (f : B → A → M World B) (xs : list A)
    (I : B → Detective → Prop) (b : B) :
  (∀ b x, x ∈ xs → partial (I b) (f b x) I) → partial (I b) (foldM f b xs) I.
Proof.
  revert b. induction xs as [|x xs IH]; intros b Hf.
  - by apply partial_ret.
  - cbn [foldM]. eapply partial_bind; [apply Hf; by left|].
    intros b'. apply IH. intros b2 y Hy. apply Hf. by right.
Qed.

Lemma partial_forM {A} (I : Detective → Prop) (xs : list A) (body : A → M World unit) :
  (∀ x, x ∈ xs → partial I (body x) (fun _ => I)) →
  partial I (forM_ xs body) (fun _ => I).
Proof.
  induction xs as [|x xs IH]; intros Hbody.
  - by apply partial_ret.
  - cbn [forM_]. eapply partial_bind; [apply Hbody; by left|].
    intros []. apply IH. intros y Hy. apply Hbody. by right.
Qed.


(* ################################################################# *)
(** * The stochastic generator deals every card once *)

(** ** Lists of hands *)

Lemma union_list_insert (hyp : list (gset nat)) (i : nat) (hand extra : gset nat) :
  hyp !! i = Some hand → ⋃ (<[i := hand ∪ extra]> hyp) = ⋃ hyp ∪ extra.
Proof.
  intros Hi. apply set_eq. intros x.
  rewrite elem_of_union, !elem_of_union_list. split.
  - intros (X & HX & Hx). apply list_elem_of_lookup in HX as [j Hj].
    destruct (decide (i = j)) as [<-|Hne].
    + rewrite list_lookup_insert_eq in Hj by (by eapply lookup_lt_Some).
      injection Hj as <-. apply elem_of_union in Hx as [Hx|Hx]; [|by right].
      left. exists hand. split; [by eapply list_elem_of_lookup_2|done].
    + rewrite list_lookup_insert_ne in Hj by done.
      left. exists X. split; [by eapply list_elem_of_lookup_2|done].
  - intros [(X & HX & Hx)|Hx].
    + apply list_elem_of_lookup in HX as [j Hj].
      destruct (decide (i = j)) as [<-|Hne].
      * exists (hand ∪ extra). split.
        -- apply list_elem_of_lookup. exists i.
           apply list_lookup_insert_eq. by eapply lookup_lt_Some.
        -- apply elem_of_union. left. congruence.
      * exists X. split; [|done]. apply list_elem_of_lookup. exists j.
        by rewrite list_lookup_insert_ne.
    + exists (hand ∪ extra). split.
      * apply list_elem_of_lookup. exists i.
        apply list_lookup_insert_eq. by eapply lookup_lt_Some.
      * apply elem_of_union. by right.
Qed.

Lemma hands_disjoint_insert (hyp : list (gset nat)) (i : nat) (hand extra : gset nat) :
  hands_disjoint hyp → hyp !! i = Some hand → extra ## ⋃ hyp →
  hands_disjoint (<[i := hand ∪ extra]> hyp).
Proof.
  intros Hdis Hi Hnew j k s t Hjk Hj Hk.
  assert (i < length hyp) as Hlt by (by eapply lookup_lt_Some).
  assert (∀ l u, hyp !! l = Some u → extra ## u) as Hfresh.
  { intros l u Hl. apply elem_of_disjoint. intros x Hx Hu.
    apply (proj1 (elem_of_disjoint _ _) Hnew x Hx).
    apply elem_of_union_list. exists u. split; [by eapply list_elem_of_lookup_2|done]. }
  destruct (decide (i = j)) as [<-|Hij].
  - rewrite list_lookup_insert_eq in Hj by done. injection Hj as <-.
    rewrite list_lookup_insert_ne in Hk by done.
    apply disjoint_union_l. split; [by eapply (Hdis i k)|by eapply Hfresh].
  - rewrite list_lookup_insert_ne in Hj by done.
    destruct (decide (i = k)) as [<-|Hik].
    + rewrite list_lookup_insert_eq in Hk by done. injection Hk as <-.
      apply disjoint_union_r. split; [by eapply (Hdis j i)|].
      symmetry. by eapply Hfresh.
    + rewrite list_lookup_insert_ne in Hk by done. by eapply (Hdis j k).
Qed.

(** One more card for player [i]. *)
Lemma dealing_deal (n : nat) (env : gset nat) (hyp : list (gset nat))
    (dealt : gset nat) (i card : nat) (hand : gset nat) :
  dealing n env hyp dealt → i < n → hyp !! i = Some hand → card ∉ dealt →
  dealing n env (<[i := hand ∪ {[card]}]> hyp) (dealt ∪ {[card]}).
Proof.
  intros (Hlen & Hlast & Hdis & Henv & Hall) Hi Hhand Hcard.
  assert ((card ∉ ⋃ hyp) ∧ (card ∉ env)) as [Hc1 Hc2].
  { rewrite <- Hall in Hcard. by apply not_elem_of_union in Hcard. }
  split_and!.
  - by rewrite length_insert.
  - rewrite list_lookup_insert_ne by lia. done.
  - apply hands_disjoint_insert; [done..|]. by apply disjoint_singleton_l.
  - rewrite (union_list_insert _ _ _ _ Hhand). apply disjoint_union_l.
    split; [done|]. by apply disjoint_singleton_l.
  - rewrite (union_list_insert _ _ _ _ Hhand), <- Hall.
    apply set_eq. intros x. rewrite !elem_of_union. tauto.
Qed.

(** ** The random module *)

Lemma sample_reads (d : Detective) (population : gset nat) :
  reads d (sample population) (fun card => card ∈ population).
Proof.
  unfold sample. destruct (elements population) as [|c cs] eqn:Hel;
    [apply reads_raise|].
  eapply reads_bind; [apply (reads_draw d (fun _ => True)); done|].
  intros x _. apply reads_orraise. intros card Hcard.
  apply elem_of_elements. rewrite Hel. by eapply list_elem_of_lookup_2.
Qed.

Lemma shuffle_from_reads (d : Detective) (n : nat) (left : list nat) :
  NoDup left →
  reads d (shuffle_from n left) (fun cards => NoDup cards ∧ ∀ c, c ∈ cards → c ∈ left).
Proof.
  revert left. induction n as [|n IH]; intros left Hnd.
  { destruct left; apply reads_ret; (split; [constructor|by intros c Hc%elem_of_nil]). }
  destruct left as [|c0 left'];
    [apply reads_ret; split; [constructor|by intros c Hc%elem_of_nil]|].
  set (left := c0 :: left') in *. cbn [shuffle_from]. fold left.
  eapply reads_bind; [apply (reads_draw d (fun _ => True)); done|].
  intros x _. cbn zeta.
  eapply reads_bind;
    [apply (reads_orraise d _ _ (fun card => left !! (x mod length left) = Some card));
     done|].
  intros card Hcard.
  pose proof (delete_Permutation _ _ _ Hcard) as Hperm.
  assert (NoDup (card :: delete (x mod length left) left)) as Hnd'
    by (by rewrite <- Hperm).
  apply NoDup_cons in Hnd' as [Hfresh Hnd'].
  eapply reads_bind; [apply (IH (delete (x mod length left) left) Hnd')|].
  intros rest [Hrest Hsub]. apply reads_ret. split.
  - constructor; [|done]. intros Hin. by apply Hfresh, Hsub.
  - intros c Hc. rewrite Hperm. apply elem_of_cons in Hc as [->|Hc]; [by left|].
    right. by apply Hsub.
Qed.

Lemma shuffle_reads (d : Detective) (deck : list nat) :
  NoDup deck →
  reads d (shuffle deck) (fun cards => NoDup cards ∧ ∀ c, c ∈ cards → c ∈ deck).
Proof. apply shuffle_from_reads. Qed.

(** ** The indices of the envelope cards *)

Ltac index_cases H :=
  apply elem_of_list_to_map_2 in H; cbn in H;
  repeat (apply elem_of_cons in H as [[= -> ->]|H]; [by vm_compute|]);
  by apply elem_of_nil in H.

Lemma CHARINDEX_inverse (m : nat) (i : Z) :
  game.CHARINDEX !! m = Some i →
  (0 <= i < Z.of_nat game.NCHARS)%Z ∧ Z.to_nat i = m ∧ m ∈ game.ALLOWEDCHARS.
Proof.
  intros H.
  enough (bool_decide ((0 <= i < Z.of_nat game.NCHARS)%Z ∧ Z.to_nat i = m ∧
                       m ∈ game.ALLOWEDCHARS) = true) as Hb
    by (by apply bool_decide_eq_true in Hb).
  unfold game.CHARINDEX in H. index_cases H.
Qed.

Lemma ROOMINDEX_inverse (r : nat) (j : Z) :
  game.ROOMINDEX !! r = Some j →
  (0 <= j < Z.of_nat game.NROOMS)%Z ∧ game.NCHARS + Z.to_nat j = r ∧
  r ∈ game.ALLOWEDROOMS.
Proof.
  intros H.
  enough (bool_decide ((0 <= j < Z.of_nat game.NROOMS)%Z ∧
                       game.NCHARS + Z.to_nat j = r ∧ r ∈ game.ALLOWEDROOMS) = true)
    as Hb by (by apply bool_decide_eq_true in Hb).
  unfold game.ROOMINDEX in H. index_cases H.
Qed.

Lemma WEAPINDEX_inverse (w : nat) (k : Z) :
  game.WEAPINDEX !! w = Some k →
  (0 <= k < Z.of_nat game.NWEAPS)%Z ∧ game.NROOMS + game.NCHARS + Z.to_nat k = w ∧
  w ∈ game.ALLOWEDWEAPS.
Proof.
  intros H.
  enough (bool_decide ((0 <= k < Z.of_nat game.NWEAPS)%Z ∧
                       game.NROOMS + game.NCHARS + Z.to_nat k = w ∧
                       w ∈ game.ALLOWEDWEAPS) = true)
    as Hb by (by apply bool_decide_eq_true in Hb).
  unfold game.WEAPINDEX in H. index_cases H.
Qed.

(** The three cards of the murder are the cards of its indices. *)
Lemma envelope_of_murder (m r w : nat) (i j k : Z) :
  game.CHARINDEX !! m = Some i → game.ROOMINDEX !! r = Some j →
  game.WEAPINDEX !! w = Some k →
  envelope_in_range (i, j, k) ∧ envelope_cards (i, j, k) = {[ m; r; w ]}.
Proof.
  intros (? & <- & _)%CHARINDEX_inverse (? & <- & _)%ROOMINDEX_inverse
         (? & <- & _)%WEAPINDEX_inverse. done.
Qed.

Lemma repeat_replicate {A} (x : A) (n : nat) : repeat x n = replicate n x.
Proof. induction n as [|n IH]; [done|]. cbn. by rewrite IH. Qed.

(* ----------------------------------------------------------------- *)
(** ** The steps of one attempt *)

Section attempt.
Variables (deal : list (gset nat)) (d : Detective).
Hypothesis deal_disjoint : hands_disjoint deal.
Hypothesis sound : evidence deal d.

Let n : nat := nPlayers d.

Lemma players_positive : 0 < n.
Proof.
  destruct sound as [Hlen Hmine _ _]. apply lookup_lt_Some in Hmine. unfold n. lia.
Qed.

Lemma within_start :
  within deal n (<[0 := myCardSet d]> (repeat ∅ (n + 1))) (myCardSet d).
Proof.
  pose proof players_positive as Hn. destruct sound as [Hlen Hmine _ _].
  split_and!.
  - by rewrite length_insert, repeat_length.
  - rewrite list_lookup_insert_ne by lia. rewrite repeat_replicate.
    apply lookup_replicate_2. lia.
  - intros i s Hi Hs. destruct (decide (i = 0)) as [->|Hne].
    + rewrite list_lookup_insert_eq in Hs by (rewrite repeat_length; lia).
      injection Hs as <-. by exists (myCardSet d).
    + rewrite list_lookup_insert_ne in Hs by done.
      rewrite repeat_replicate in Hs. apply lookup_replicate_1 in Hs as [-> _].
      destruct (lookup_lt_is_Some_2 deal i) as [t Ht]; [fold n in Hlen; lia|].
      exists t. split; [done|]. apply empty_subseteq.
  - replace (<[0 := myCardSet d]> (repeat ∅ (n + 1)))
      with (<[0 := (∅ : gset nat) ∪ myCardSet d]> (repeat ∅ (n + 1)))
      by (by rewrite (left_id_L ∅ (∪))).
    rewrite (union_list_insert _ 0 ∅);
      [|rewrite repeat_replicate; apply lookup_replicate_2; lia].
    assert (⋃ repeat (∅ : gset nat) (n + 1) = ∅) as ->.
    { generalize (n + 1). induction n0 as [|k IH]; [done|].
      cbn. rewrite IH. by rewrite (left_id_L ∅ (∪)). }
    by rewrite (left_id_L ∅ (∪)).
Qed.

Lemma within_dealing (hyp : list (gset nat)) (dealt : gset nat) :
  within deal n hyp dealt → dealing n ∅ hyp dealt.
Proof.
  intros (Hlen & Hlast & Hsub & Hall). split_and!; [done|done| | |].
  - intros i j s t Hij Hs Ht.
    assert (i < n + 1) as Hi by (rewrite <- Hlen; by eapply lookup_lt_Some).
    assert (j < n + 1) as Hj by (rewrite <- Hlen; by eapply lookup_lt_Some).
    destruct (decide (i = n)) as [->|Hin].
    { rewrite Hlast in Hs. injection Hs as <-. apply disjoint_empty_l. }
    destruct (decide (j = n)) as [->|Hjn].
    { rewrite Hlast in Ht. injection Ht as <-. apply disjoint_empty_r. }
    destruct (Hsub i s ltac:(lia) Hs) as (s' & Hs' & Hss).
    destruct (Hsub j t ltac:(lia) Ht) as (t' & Ht' & Htt).
    pose proof (deal_disjoint i j s' t' Hij Hs' Ht') as Hdis.
    apply elem_of_disjoint. intros x Hx1 Hx2.
    apply (proj1 (elem_of_disjoint _ _) Hdis x); auto.
  - apply disjoint_empty_r.
  - by rewrite (right_id_L ∅ (∪)).
Qed.

Lemma deal_seen_within (hyp : list (gset nat)) (dealt : gset nat)
    (constraint : EventSeenAnswer) :
  seen_sound deal constraint → within deal n hyp dealt →
  reads d (deal_seen (hyp, dealt) constraint) (fun r => within deal n (fst r) (snd r)).
Proof.
  intros (hand & Hhand & Hcard) (Hlen & Hlast & Hsub & Hall).
  assert (seen_actor constraint < n) as Hactor.
  { apply lookup_lt_Some in Hhand. destruct sound as [Hl _ _ _]. unfold n. lia. }
  unfold deal_seen.
  eapply reads_bind; [apply (reads_orraise d _ _ (fun s =>
    hyp !! seen_actor constraint = Some s)); done|].
  intros s Hs. cbn beta in Hs.
  destruct (bool_decide _); apply reads_ret; [by split_and!|].
  cbn [fst snd]. split_and!.
  - by rewrite length_insert.
  - rewrite list_lookup_insert_ne by lia. done.
  - intros i u Hi Hu. destruct (decide (i = seen_actor constraint)) as [->|Hne].
    + rewrite list_lookup_insert_eq in Hu by (by eapply lookup_lt_Some).
      injection Hu as <-. exists hand. split; [done|].
      destruct (Hsub _ s Hactor Hs) as (t & Ht & Hst).
      assert (t = hand) as -> by congruence.
      apply union_subseteq. split; [done|]. by apply singleton_subseteq_l.
    + rewrite list_lookup_insert_ne in Hu by done. by apply Hsub.
  - by rewrite (union_list_insert _ _ _ _ Hs), Hall.
Qed.


(** Step 3: an unseen answer is met by a card not dealt before. *)
Lemma deal_unseen_dealing (o : option draft) (constraint : EventUnseenAnswer) :
  unseen_actor constraint < n →
  (∀ hyp dealt, o = Some (hyp, dealt) → dealing n ∅ hyp dealt) →
  reads d (deal_unseen o constraint)
    (fun o' => ∀ hyp dealt, o' = Some (hyp, dealt) → dealing n ∅ hyp dealt).
Proof.
  intros Hactor Ho. unfold deal_unseen.
  destruct o as [[hyp dealt]|]; [|by apply reads_ret].
  specialize (Ho hyp dealt eq_refl). cbn zeta.
  eapply reads_bind; [apply (reads_orraise d _ _ (fun s =>
    hyp !! unseen_actor constraint = Some s)); done|].
  intros hand Hhand. cbn beta in Hhand.
  destruct (negb _); [apply reads_ret; by intros ? ? [= <- <-]|].
  eapply reads_bind; [apply (reads_get d _ (fun _ => True)); done|]. intros held _.
  eapply reads_bind; [apply (reads_orraise d _ _ (fun _ => True)); done|].
  intros capacity _. destruct (_ <? _); [|by apply reads_ret].
  eapply reads_bind; [apply (reads_get d _ (fun _ => True)); done|]. intros fs _.
  eapply reads_bind; [apply (reads_orraise d _ _ (fun _ => True)); done|].
  intros forbiddenHere _. cbn zeta.
  destruct (negb _); [|by apply reads_ret].
  eapply reads_bind; [apply sample_reads|]. intros chosenCard Hchosen.
  apply reads_ret. intros ? ? [= <- <-].
  apply dealing_deal; [done..|].
  apply elem_of_difference in Hchosen as [Hchosen _].
  by apply elem_of_difference in Hchosen as [_ Hchosen].
Qed.

(** Step 4: the three cards of the murder are new, one of each family. *)
Lemma choose_murder_reads (dealt : gset nat) :
  reads d (choose_murder dealt) (fun '(murder, ixs, dealt') =>
    let '(m, r, w) := murder in
    envelope_in_range ixs ∧ envelope_cards ixs = {[ m; r; w ]} ∧
    {[ m; r; w ]} ## dealt ∧ dealt' = dealt ∪ {[ m; r; w ]}).
Proof.
  unfold choose_murder.
  eapply reads_bind; [apply (reads_get d _ (fun _ => True)); done|]. intros fs _.
  eapply reads_bind; [apply (reads_orraise d _ _ (fun _ => True)); done|].
  intros forbiddenEnv _.
  eapply reads_bind; [apply sample_reads|]. intros m Hm. cbn zeta.
  eapply reads_bind; [apply (reads_orraise d _ _ (fun i =>
    game.CHARINDEX !! m = Some i)); done|]. intros i Hi. cbn beta in Hi.
  eapply reads_bind; [apply sample_reads|]. intros r Hr.
  eapply reads_bind; [apply (reads_orraise d _ _ (fun j =>
    game.ROOMINDEX !! r = Some j)); done|]. intros j Hj. cbn beta in Hj.
  eapply reads_bind; [apply sample_reads|]. intros w Hw.
  eapply reads_bind; [apply (reads_orraise d _ _ (fun k =>
    game.WEAPINDEX !! w = Some k)); done|]. intros k Hk. cbn beta in Hk.
  apply reads_ret.
  destruct (envelope_of_murder m r w i j k Hi Hj Hk) as [Hrange Hcards].
  apply elem_of_difference in Hm as [[_ Hm]%elem_of_difference _].
  apply elem_of_difference in Hr as [[_ Hr]%elem_of_difference _].
  apply elem_of_difference in Hw as [[_ Hw]%elem_of_difference _].
  split_and!; [done|done| |].
  - apply elem_of_disjoint. intros x Hx Hd.
    apply elem_of_union in Hx as [Hx|Hx]; [apply elem_of_union in Hx as [Hx|Hx]|];
      apply elem_of_singleton in Hx as ->.
    + done.
    + apply Hr. apply elem_of_union. by left.
    + apply Hw. apply elem_of_union. left. apply elem_of_union. by left.
  - apply set_eq. intros x. rewrite !elem_of_union. tauto.
Qed.

Lemma sample_keeps (population : gset nat) : keeps_detective (sample population).
Proof.
  unfold sample. destruct (elements population); [apply keeps_raise|].
  apply keeps_bind; [apply keeps_draw|]. intros x. apply keeps_orraise.
Qed.

Lemma choose_murder_keeps (dealt : gset nat) : keeps_detective (choose_murder dealt).
Proof.
  unfold choose_murder.
  repeat first
    [ apply keeps_bind; [first [apply keeps_get | apply keeps_orraise | apply sample_keeps]|];
      intros ?
    | apply keeps_ret ].
Qed.

Lemma catch_ValueError_reads {A} (m : M World A) (Q : A → Prop) :
  keeps_detective m → reads d m Q →
  reads d (catch_ValueError m) (fun o => ∀ a, o = Some a → Q a).
Proof.
  intros Hkeeps Hm tape o w'. unfold catch_ValueError.
  pose proof (Hkeeps (d, tape)) as Hd. cbn [fst] in Hd.
  destruct (m (d, tape)) as [[a|e|] w1] eqn:Hrun.
  - intros [= <- <-]. destruct (Hm tape a w1 Hrun) as [_ Ha].
    split; [done|]. by intros ? [= <-].
  - destruct e; try done. by intros [= <- <-].
  - done.
Qed.

(** Step 5: the recipient is a player. *)
Lemma recipient_of_player (f : list (list bool)) (held : list nat)
    (hyp : list (gset nat)) (card : nat) (players : list nat) (ix : nat) :
  recipient_of f held hyp card players = Ok (Some ix) → ix ∈ players.
Proof.
  induction players as [|p players IH]; [done|]. cbn [recipient_of].
  destruct (forbidden_at f p card) as [[|]|]; [| |done].
  - intros H. right. by apply IH.
  - destruct (hyp !! p), (held !! p); try done.
    destruct (_ <? _); [intros [= <-]; by left|].
    intros H. right. by apply IH.
Qed.

Lemma deal_card_dealing (env : gset nat) (o : option draft) (card : nat) :
  (∀ hyp dealt, o = Some (hyp, dealt) → dealing n env hyp dealt ∧ card ∉ dealt) →
  reads d (deal_card o card)
    (fun o' => ∀ hyp' dealt', o' = Some (hyp', dealt') →
       dealing n env hyp' dealt' ∧
       ∃ hyp dealt, o = Some (hyp, dealt) ∧ dealt' = dealt ∪ {[card]}).
Proof.
  intros Ho. unfold deal_card. destruct o as [[hyp dealt]|]; [|by apply reads_ret].
  destruct (Ho hyp dealt eq_refl) as [Hdealing Hfresh].
  eapply reads_bind; [apply (reads_get d _ (fun v => v = n)); done|]. intros ? ->.
  eapply reads_bind; [apply (reads_get d _ (fun _ => True)); done|]. intros f _.
  eapply reads_bind; [apply (reads_get d _ (fun _ => True)); done|]. intros held _.
  eapply reads_bind; [apply (reads_lift d _ (fun r =>
    recipient_of f held hyp card (seq 0 n) = Ok r)); done|].
  intros [ix|] Hix; [|by apply reads_ret]. cbn beta in Hix.
  apply recipient_of_player, elem_of_seq in Hix.
  eapply reads_bind; [apply (reads_orraise d _ _ (fun s => hyp !! ix = Some s)); done|].
  intros hand Hhand. cbn beta in Hhand. apply reads_ret. intros ? ? [= <- <-].
  split; [apply dealing_deal; [done|lia|done|done]|]. by exists hyp, dealt.
Qed.

Lemma deal_cards_dealing (env : gset nat) (cards : list nat) :
  NoDup cards →
  ∀ o, (∀ hyp dealt, o = Some (hyp, dealt) →
          dealing n env hyp dealt ∧ ∀ c, c ∈ cards → c ∉ dealt) →
  reads d (foldM deal_card o cards)
    (fun o' => ∀ hyp dealt, o' = Some (hyp, dealt) → dealing n env hyp dealt).
Proof.
  induction 1 as [|card cards Hfresh Hnd IH]; intros o Ho.
  - apply reads_ret. intros hyp dealt Heq. by apply Ho.
  - cbn [foldM]. eapply reads_bind.
    + apply (deal_card_dealing env). intros hyp dealt Heq.
      destruct (Ho hyp dealt Heq) as [Hd Hc]. split; [done|]. apply Hc. by left.
    + intros o' Ho'. apply IH. intros hyp' dealt' Heq.
      destruct (Ho' hyp' dealt' Heq) as (Hd & hyp & dealt & -> & ->).
      split; [done|]. intros c Hc.
      destruct (Ho hyp dealt eq_refl) as [_ Hfree].
      apply not_elem_of_union. split; [apply Hfree; by right|].
      apply not_elem_of_singleton. intros ->. done.
Qed.

(** The hands of a finished hypothesis: the working list without its
    unused last slot. *)
Lemma dealing_partition (m r w : nat) (ixs : Z * Z * Z) (hyp : list (gset nat)) :
  envelope_in_range ixs → envelope_cards ixs = {[ m; r; w ]} →
  dealing n {[ m; r; w ]} hyp game.ALLOWEDCARDS →
  is_partition {| hands := removelast hyp; envelope := ixs |} ∧
  length (removelast hyp) = n.
Proof.
  intros Hrange Hcards (Hlen & Hlast & Hdis & Henv & Hall).
  assert (hyp ≠ []) as Hne by (intros ->; cbn in Hlen; lia).
  pose proof (app_removelast_last ∅ Hne) as Hsplit.
  set (front := removelast hyp) in *. set (x := List.last hyp ∅) in *.
  assert (length front = n) as Hfront.
  { apply (f_equal length) in Hsplit. rewrite length_app in Hsplit. cbn in Hsplit. lia. }
  assert (x = ∅) as Hx.
  { rewrite Hsplit in Hlast. rewrite lookup_app_r in Hlast by lia.
    rewrite Hfront, Nat.sub_diag in Hlast. by injection Hlast. }
  rewrite Hx in Hsplit. clearbody front. clear x Hx. subst hyp.
  assert (⋃ (front ++ [∅]) = ⋃ front) as Hunion.
  { rewrite union_list_app_L. cbn. by rewrite !(right_id_L ∅ (∪)). }
  rewrite Hunion in *. split; [|done].
  unfold is_partition. cbn [hands envelope]. rewrite Hcards. split_and!.
  - done.
  - intros i j s t Hij Hs Ht. apply (Hdis i j); [done|..];
      by apply lookup_app_l_Some.
  - intros s Hs. apply elem_of_disjoint. intros y Hy1 Hy2.
    apply (proj1 (elem_of_disjoint _ _) Henv y); [|done].
    apply elem_of_union_list. by exists s.
  - done.
Qed.

(** One attempt: a finished hypothesis that has dealt the whole pack is a
    partition of the cards among [n] hands and the envelope. *)
Lemma generation_attempt_reads :
  reads d generation_attempt (fun r => ∀ h dealt, r = Some (h, dealt) →
    dealt = game.ALLOWEDCARDS → is_partition h ∧ length (hands h) = n).
Proof.
  destruct sound as [Hplayers Hmine Hseen Hunseen].
  unfold generation_attempt.
  eapply reads_bind; [apply (reads_get d _ (fun v => v = n)); done|]. intros ? ->.
  eapply reads_bind; [apply (reads_get d _ (fun v => v = myCardSet d)); done|].
  intros ? ->.
  eapply reads_bind; [apply (reads_get d _ (fun v => v = logSeenAnswers d)); done|].
  intros ? ->.
  eapply reads_bind; [apply (reads_get d _ (fun v => v = logUnseenAnswers d)); done|].
  intros ? ->.
  eapply reads_bind.
  { apply (reads_foldM d deal_seen _ (fun r => within deal n (fst r) (snd r))).
    - apply within_start.
    - intros [hyp dealt] constraint Hin Hw.
      apply deal_seen_within; [|done]. by apply (proj1 (Forall_forall _ _) Hseen). }
  intros [hyp dealt] Hw%within_dealing.
  eapply reads_bind.
  { apply (reads_foldM d deal_unseen _ (fun o =>
      ∀ hyp dealt, o = Some (hyp, dealt) → dealing n ∅ hyp dealt)).
    - by intros ? ? [= <- <-].
    - intros o constraint Hin Ho. apply deal_unseen_dealing; [|done].
      by apply (proj1 (Forall_forall _ _) Hunseen). }
  intros [[hyp1 dealt1]|] Ho; [|by apply reads_ret].
  specialize (Ho hyp1 dealt1 eq_refl).
  eapply reads_bind;
    [apply catch_ValueError_reads; [apply choose_murder_keeps|apply choose_murder_reads]|].
  intros [[[[[m r] w] ixs] dealt2]|] Hchosen; [|by apply reads_ret].
  destruct (Hchosen _ eq_refl) as (Hrange & Hcards & Hfresh & ->).
  assert (dealing n {[ m; r; w ]} hyp1 (dealt1 ∪ {[ m; r; w ]})) as Hd.
  { destruct Ho as (Hlen & Hlast & Hdis & _ & Hall).
    rewrite (right_id_L ∅ (∪)) in Hall. split_and!; [done..| |by rewrite Hall].
    rewrite Hall. by symmetry. }
  eapply reads_bind; [apply shuffle_reads, NoDup_elements|].
  intros shuffledDeck [Hnd Hsub].
  eapply reads_bind.
  { apply (deal_cards_dealing {[ m; r; w ]} shuffledDeck Hnd).
    intros ? ? [= <- <-]. split; [done|]. intros c Hc%Hsub.
    apply elem_of_elements in Hc. by apply elem_of_difference in Hc as [_ Hc]. }
  intros o Hfinal.
  eapply reads_bind; [apply (reads_get d _ (fun _ => True)); done|]. intros wrong _.
  destruct o as [[hyp3 dealt3]|]; [|by apply reads_ret].
  destruct (accused_wrongly _ _); apply reads_ret; [done|].
  intros h dealt4 [= <- <-] ->. cbn [hands].
  by apply (dealing_partition m r w), Hfinal.
Qed.

End attempt.

(* ----------------------------------------------------------------- *)
(** ** Detective.genfeasiblehypothesis *)

Lemma genfeasiblehypothesis_from_reads (deal : list (gset nat)) (d : Detective)
    (fuel genAttempts : nat) :
  hands_disjoint deal → evidence deal d →
  reads d (genfeasiblehypothesis_from fuel genAttempts)
    (fun r => is_partition (fst r) ∧ length (hands (fst r)) = nPlayers d).
Proof.
  intros Hdis Hev. revert genAttempts.
  induction fuel as [|fuel IH]; intros genAttempts; [by intros tape a w'|].
  cbn [genfeasiblehypothesis_from].
  eapply reads_bind; [by apply (generation_attempt_reads deal d)|].
  intros [[h dealt]|] Hattempt; [|apply IH].
  destruct (bool_decide _) eqn:Hall; [|apply reads_raise].
  apply bool_decide_eq_true in Hall. apply reads_ret. by apply (Hattempt h dealt).
Qed.

(** X1. When the evidence is true of some deal, a hypothesis that
    [genfeasiblehypothesis] returns gives every player a hand, no card
    twice, and every card to a hand or to the envelope, which holds one
    character, one room and one weapon; the Detective is left as it was. *)
Theorem genfeasiblehypothesis_partition (deal : list (gset nat)) (fuel : nat)
    (d : Detective) (tape : list nat) (h : hypothesis) (attempts : nat) (w' : World) :
  hands_disjoint deal → evidence deal d →
  genfeasiblehypothesis fuel (d, tape) = (Ok (h, attempts), w') →
  fst w' = d ∧ is_partition h ∧ length (hands h) = nPlayers d.
Proof.
  intros Hdis Hev Hrun.
  by destruct (genfeasiblehypothesis_from_reads deal d fuel 0 Hdis Hev tape _ _ Hrun).
Qed.

Lemma stochastic_evidence : evidence stochastic.hands_dealt stochastic.shown.
Proof.
  constructor.
  - by vm_compute.
  - by vm_compute.
  - assert (logSeenAnswers stochastic.shown = [mkEventSeenAnswer 0 2 0 10]) as ->
      by (by vm_compute).
    constructor; [|constructor]. exists {[ 2; 10; 11; 18 ]}.
    split; [by vm_compute|]. cbn. computed.
  - assert (logUnseenAnswers stochastic.shown = []) as -> by (by vm_compute).
    constructor.
Qed.

Lemma stochastic_deal_disjoint : hands_disjoint stochastic.hands_dealt.
Proof. computed. Qed.

(** The four-player game after player 2 has shown card 10: the generator
    run on the draws 3, 8, 13, 1, ... *)
Lemma genfeasiblehypothesis_partition_witness :
  ∃ h attempts w',
    genfeasiblehypothesis 5
      (stochastic.shown, map (fun i => (i * 5 + 3) mod 17) (seq 0 60))
    = (Ok (h, attempts), w') ∧
    fst w' = stochastic.shown ∧ is_partition h ∧
    length (hands h) = nPlayers stochastic.shown.
Proof.
  destruct (genfeasiblehypothesis 5
              (stochastic.shown, map (fun i => (i * 5 + 3) mod 17) (seq 0 60)))
    as [[[h attempts]|e|] w'] eqn:Hrun.
  - exists h, attempts, w'. split; [reflexivity|].
    exact (genfeasiblehypothesis_partition stochastic.hands_dealt 5 stochastic.shown
             _ h attempts w' stochastic_deal_disjoint stochastic_evidence Hrun).
  - apply (f_equal fst) in Hrun. vm_compute in Hrun. discriminate Hrun.
  - apply (f_equal fst) in Hrun. vm_compute in Hrun. discriminate Hrun.
Defined.


(* ################################################################# *)
(** * Detective.run: the hot seat *)

Lemma skip_ousted_finds (k fuel : nat) (d : Detective) (tape : list nat) :
  let n := nPlayers d in
  let seat := ixHotSeat d in
  seat < n → k <= fuel →
  (∀ j, j < k → playersOusted d !! ((seat + j) mod n) = Some true) →
  playersOusted d !! ((seat + k) mod n) = Some false →
  skip_ousted fuel (d, tape) = (Ok tt, (set_ixHotSeat ((seat + k) mod n) d, tape)).
Proof.
  revert fuel d. induction k as [|k IH]; intros fuel d n seat Hseat Hfuel Hout Hin.
  - rewrite Nat.add_0_r, Nat.mod_small in * by done.
    destruct fuel; cbn [skip_ousted]; do 2 continue; fold seat;
      rewrite Hin; continue; subst seat; by destruct d.
  - destruct fuel as [|fuel]; [lia|].
    pose proof (Hout 0 ltac:(lia)) as H0.
    rewrite Nat.add_0_r, Nat.mod_small in H0 by done.
    cbn [skip_ousted]. do 2 continue. fold seat.
    rewrite H0. do 3 continue. fold n.
    set (d1 := set_ixHotSeat ((seat + 1) mod n) d).
    assert (nPlayers d1 = n) as Hn1 by (by destruct d).
    assert (ixHotSeat d1 = (seat + 1) mod n) as Hs1 by (by destruct d).
    assert (playersOusted d1 = playersOusted d) as Ho1 by (by destruct d).
    assert (∀ j, (((seat + 1) mod n) + j) mod n = (seat + S j) mod n) as Hmod.
    { intros j. rewrite Nat.Div0.add_mod_idemp_l. f_equal. lia. }
    rewrite (IH fuel d1).
    + rewrite Hn1, Hs1, Hmod. subst d1. by destruct d.
    + rewrite Hn1, Hs1. apply Nat.mod_upper_bound. lia.
    + lia.
    + intros j Hj. rewrite Hn1, Hs1, Ho1, Hmod. apply Hout. lia.
    + rewrite Hn1, Hs1, Ho1, Hmod. done.
Qed.

(** X2. At the end of a turn of [run] the turn counter goes up by one and
    the hot seat goes to the next player, in the order of play, who is not
    knocked out: when the players [seat+1], ..., [seat+k] (modulo the
    number of players) are knocked out and player [seat+k+1] is not, the
    hot seat is [seat+k+1]. *)
Theorem next_turn_seats (k fuel : nat) (d : Detective) (tape : list nat) :
  let n := nPlayers d in
  let seat := ixHotSeat d in
  0 < n → k <= fuel →
  (∀ j, j < k → playersOusted d !! ((seat + 1 + j) mod n) = Some true) →
  playersOusted d !! ((seat + 1 + k) mod n) = Some false →
  next_turn fuel (d, tape)
  = (Ok tt, (set_ixHotSeat ((seat + 1 + k) mod n) (set_ixTurn (ixTurn d + 1) d), tape)).
Proof.
  intros n seat Hn Hfuel Hout Hin. unfold next_turn.
  do 5 continue.
  set (d1 := set_ixHotSeat _ _).
  assert (nPlayers d1 = n) as Hn1 by (by destruct d).
  assert (ixHotSeat d1 = (seat + 1) mod n) as Hs1 by (by destruct d).
  assert (playersOusted d1 = playersOusted d) as Ho1 by (by destruct d).
  assert (∀ j, (((seat + 1) mod n) + j) mod n = (seat + 1 + j) mod n) as Hmod.
  { intros j. by rewrite Nat.Div0.add_mod_idemp_l. }
  rewrite (skip_ousted_finds k fuel d1).
  - rewrite Hn1, Hs1, Hmod. subst d1. by destruct d.
  - rewrite Hn1, Hs1. apply Nat.mod_upper_bound. lia.
  - done.
  - intros j Hj. rewrite Hn1, Hs1, Ho1, Hmod. by apply Hout.
  - by rewrite Hn1, Hs1, Ho1, Hmod.
Qed.

(** Four players, the second and the third knocked out: after the turn of
    the first, the fourth is in the hot seat. *)
Lemma next_turn_seats_witness :
  let d := set_playersOusted [false; true; true; false] (set_nPlayers 4 Detective_defaults) in
  next_turn 5 (d, [])
  = (Ok tt, (set_ixHotSeat 3 (set_ixTurn 1 d), [])).
Proof.
  intros d.
  apply (next_turn_seats 2 5 d []); [cbn; lia|lia| |reflexivity].
  intros j Hj. destruct j as [|[|j]]; [reflexivity|reflexivity|lia].
Defined.

(** X3. When every player is knocked out, the loop that moves the hot
    seat on does not end: whatever the number of iterations followed,
    [next_turn] has not returned. *)
Theorem next_turn_all_ousted (fuel : nat) (d : Detective) (tape : list nat) :
  0 < nPlayers d →
  length (playersOusted d) = nPlayers d →
  Forall (fun out => out = true) (playersOusted d) →
  fst (next_turn fuel (d, tape)) = OutOfFuel.
Proof.
  intros Hn Hlen Hall. unfold next_turn.
  do 5 continue.
  set (d1 := set_ixHotSeat _ _).
  assert (nPlayers d1 = nPlayers d) as Hn1 by (by destruct d).
  assert (ixHotSeat d1 < nPlayers d) as Hs1.
  { replace (ixHotSeat d1) with ((ixHotSeat d + 1) mod nPlayers d) by (by destruct d).
    apply Nat.mod_upper_bound. lia. }
  assert (playersOusted d1 = playersOusted d) as Ho1 by (by destruct d).
  clearbody d1. revert d1 Hn1 Hs1 Ho1.
  induction fuel as [|fuel IH]; intros d1 Hn1 Hs1 Ho1;
    destruct (lookup_lt_is_Some_2 (playersOusted d) (ixHotSeat d1)) as [out Hout];
    try lia;
    pose proof (proj1 (Forall_lookup _ _) Hall _ _ Hout) as ->;
    cbn [skip_ousted]; do 2 continue;
    rewrite Ho1, Hout; continue; [done|].
  do 2 continue.
  apply IH.
  - rewrite <- Hn1. by destruct d1.
  - replace (ixHotSeat (set_ixHotSeat _ d1)) with ((ixHotSeat d1 + 1) mod nPlayers d1)
      by (by destruct d1).
    rewrite Hn1. apply Nat.mod_upper_bound. lia.
  - rewrite <- Ho1. by destruct d1.
Qed.

Lemma next_turn_all_ousted_witness :
  fst (next_turn 50 (set_playersOusted [true; true; true]
                       (set_nPlayers 3 Detective_defaults), [])) = OutOfFuel.
Proof.
  apply next_turn_all_ousted; [cbn; lia|reflexivity|].
  repeat constructor.
Defined.


(* ################################################################# *)
(** * The events and the pool *)

(** ** The loop that removes invalidated hypotheses *)

Section reduce.
Variables (hs : list hypothesis) (keep : hypothesis → result bool).
(** [E z]: what is known of the Detective once [z] hypotheses have been
    taken off the counts. *)
Variable E : nat → Detective → Prop.
Hypothesis E_count : ∀ z h,
  partial (fun d => hypotheses d = hs ∧ E z d) (count_hypothesis h (-1))
          (fun _ d => hypotheses d = hs ∧ E (S z) d).
Hypothesis E_pool : ∀ z v d, E z d → E z (set_hypotheses v d).

Lemma reduce_loop (m : nat) :
  ∀ k z acc, k + m = length hs →
  partial (fun d => hypotheses d = hs ∧ E z d)
    (foldM (fun hypsNew ixHyp =>
              bind (orraise IndexError (hs !! ixHyp)) (fun h =>
              bind (lift (keep h)) (fun k : bool =>
                if k then ret (hypsNew ++ [h])
                else bind (removehypfromcounts ixHyp) (fun _ => ret hypsNew))))
           acc (seq k m))
    (fun out d =>
       hypotheses d = hs ∧
       out = acc ++ List.filter (kept_by keep) (drop k hs) ∧
       Forall (fun h => ∃ b, keep h = Ok b) (drop k hs) ∧
       E (z + (m - length (List.filter (kept_by keep) (drop k hs)))) d).
Proof.
  induction m as [|m IH]; intros k z acc Hk.
  - apply partial_ret. intros d [Hd He]. rewrite drop_ge by lia. cbn.
    rewrite app_nil_r, Nat.add_0_r. by split_and!.
  - cbn [seq foldM].
    destruct (lookup_lt_is_Some_2 hs k) as [h Hh]; [lia|].
    rewrite (drop_S _ _ _ Hh). cbn [List.filter]. rewrite Hh.
    eapply (partial_bind _ _ (fun out d =>
      (keep h = Ok (kept_by keep h) ∧
       out = (if kept_by keep h then acc ++ [h] else acc)) ∧
      hypotheses d = hs ∧ E (if kept_by keep h then z else S z) d)).
    { eapply partial_bind; [apply partial_orraise|]. intros h'.
      apply partial_assume. intros [= <-].
      eapply partial_bind; [apply partial_lift|]. intros b.
      apply partial_assume. intros Hb.
      assert (kept_by keep h = b) as Hkb by (unfold kept_by; rewrite Hb; by destruct b).
      rewrite Hkb. destruct b.
      - apply partial_ret. by intros d [? ?].
      - eapply partial_bind.
        + unfold removehypfromcounts.
          eapply partial_bind; [apply partial_get|]. intros hyps.
          eapply partial_strengthen with
            (P := fun d => hyps = hs ∧ hypotheses d = hs ∧ E z d);
            [intros d (Hy & Hd & He); split_and!; [congruence|done|done]|].
          apply partial_assume. intros ->. rewrite Hh.
          eapply partial_bind; [apply partial_orraise|]. intros h'.
          apply partial_assume. intros [= <-]. apply E_count.
        + intros []. apply partial_ret. by intros d [? ?]. }
    intros out. cbn beta.
    apply partial_assume. intros [Hkeep ->].
    eapply partial_consequence; [| |apply (IH (S k)); lia]; [intros d Hd; exact Hd|].
    intros out' d (Hd & -> & Hall & He).
    pose proof (filter_length (kept_by keep) (drop (S k) hs)) as Hle.
    rewrite length_drop in Hle.
    destruct (kept_by keep h) eqn:Hkb.
    + split_and!; [done|by rewrite <- app_assoc|constructor; [by eexists|done]|].
      cbn [length]. by replace (S m - S _) with (m - length (List.filter (kept_by keep)
        (drop (S k) hs))) by lia.
    + split_and!; [done|done|constructor; [by eexists|done]|].
      replace (z + (S m - _)) with (S z + (m - length (List.filter (kept_by keep)
        (drop (S k) hs)))) by lia. done.
Qed.

Lemma reduce_hypotheses_filters :
  partial (fun d => hypotheses d = hs ∧ E 0 d) (reduce_hypotheses keep)
    (fun _ d =>
       hypotheses d = List.filter (kept_by keep) hs ∧
       Forall (fun h => ∃ b, keep h = Ok b) hs ∧
       E (length hs - length (List.filter (kept_by keep) hs)) d).
Proof.
  unfold reduce_hypotheses.
  eapply partial_bind; [apply partial_get|]. intros hyps.
  eapply partial_strengthen with
    (P := fun d => hyps = hs ∧ hypotheses d = hs ∧ E 0 d);
    [intros d (Hy & Hd & He); split_and!; [congruence|done|done]|].
  apply partial_assume. intros ->.
  eapply partial_bind; [apply (reduce_loop (length hs) 0 0 []); lia|].
  intros out. apply partial_put. intros d (Hd & -> & Hall & He).
  rewrite drop_0 in *. cbn [app] in *. split_and!.
  - by destruct d.
  - done.
  - by apply E_pool.
Qed.

End reduce.

(** ** What the store operations leave alone *)

Section frames.
Variable P : Detective → Prop.

Lemma forbidden_set_frame (ixPlayer card : nat) (flag : bool) :
  (∀ f d, P d → P (set_forbidden f d)) →
  partial P (forbidden_set ixPlayer card flag) (fun _ => P).
Proof.
  intros HP. unfold forbidden_set.
  eapply partial_bind; [apply partial_get|]. intros f.
  eapply partial_bind; [apply partial_orraise|]. intros row.
  destruct (_ <? _); [|apply partial_raise].
  apply partial_put. intros d (_ & _ & Hd). by apply HP.
Qed.

Lemma forbiddenSets_add_frame (ixPlayer card : nat) :
  (∀ fs d, P d → P (set_forbiddenSets fs d)) →
  partial P (forbiddenSets_add ixPlayer card) (fun _ => P).
Proof.
  intros HP. unfold forbiddenSets_add.
  eapply partial_bind; [apply partial_get|]. intros fs.
  eapply partial_bind; [apply partial_orraise|]. intros s.
  apply partial_put. intros d (_ & _ & Hd). by apply HP.
Qed.

Lemma forbiddenSets_discard_frame (ixPlayer card : nat) :
  (∀ fs d, P d → P (set_forbiddenSets fs d)) →
  partial P (forbiddenSets_discard ixPlayer card) (fun _ => P).
Proof.
  intros HP. unfold forbiddenSets_discard.
  eapply partial_bind; [apply partial_get|]. intros fs.
  destruct (fs !! ixPlayer).
  - apply partial_put. intros d (_ & Hd). by apply HP.
  - apply partial_ret. by intros d (_ & Hd).
Qed.

Lemma close_family_frame (card : nat) (family : gset nat) :
  (∀ f d, P d → P (set_forbidden f d)) →
  (∀ fs d, P d → P (set_forbiddenSets fs d)) →
  partial P (close_family card family) (fun _ => P).
Proof.
  intros HP1 HP2. unfold close_family.
  eapply partial_bind; [apply partial_get|]. intros n.
  eapply partial_bind; [apply partial_get|]. intros f.
  eapply partial_strengthen with (P := P); [by intros d (_ & _ & Hd)|].
  destruct (forallb _ _); [|by apply partial_ret].
  eapply (partial_bind _ _ (fun _ => P)).
  { destruct (bool_decide _); [by apply partial_ret|apply partial_raise]. }
  intros []. apply partial_forM. intros other _.
  eapply partial_bind; [by apply forbidden_set_frame|].
  intros []. by apply forbiddenSets_add_frame.
Qed.

Lemma forbid_passed_frame (actor card : nat) (family : gset nat) :
  (∀ f d, P d → P (set_forbidden f d)) →
  (∀ fs d, P d → P (set_forbiddenSets fs d)) →
  partial P (forbid_passed actor card family) (fun _ => P).
Proof.
  intros HP1 HP2. unfold forbid_passed.
  eapply partial_bind; [by apply forbidden_set_frame|]. intros [].
  eapply partial_bind; [by apply forbiddenSets_add_frame|]. intros [].
  by apply close_family_frame.
Qed.

Lemma count_hypothesis_frame (h : hypothesis) (delta : Z) :
  (∀ v d, P d → P (set_hypCountByScenario v d)) →
  (∀ v d, P d → P (set_hypCountByCharacter v d)) →
  (∀ v d, P d → P (set_hypCountByRoom v d)) →
  (∀ v d, P d → P (set_hypCountByWeapon v d)) →
  partial P (count_hypothesis h delta) (fun _ => P).
Proof.
  intros H1 H2 H3 H4. unfold count_hypothesis.
  destruct (envelope h) as [[ixChar ixRoom] ixWeap].
  eapply partial_bind; [apply partial_get|]. intros t1.
  eapply partial_bind; [apply partial_orraise|]. intros t1'.
  eapply (partial_bind _ _ (fun _ => P));
    [apply partial_put; intros d (_ & _ & Hd); by apply H1|]. intros [].
  eapply partial_bind; [apply partial_get|]. intros t2.
  eapply partial_bind; [apply partial_orraise|]. intros t2'.
  eapply (partial_bind _ _ (fun _ => P));
    [apply partial_put; intros d (_ & _ & Hd); by apply H2|]. intros [].
  eapply partial_bind; [apply partial_get|]. intros t3.
  eapply partial_bind; [apply partial_orraise|]. intros t3'.
  eapply (partial_bind _ _ (fun _ => P));
    [apply partial_put; intros d (_ & _ & Hd); by apply H3|]. intros [].
  eapply partial_bind; [apply partial_get|]. intros t4.
  eapply partial_bind; [apply partial_orraise|]. intros t4'.
  apply partial_put. intros d (_ & _ & Hd). by apply H4.
Qed.

Lemma updatestats_frame :
  (∀ v d, P d → P (set_pScenario v d)) →
  (∀ v d, P d → P (set_scenarioEntropy v d)) →
  partial P updatestats (fun _ => P).
Proof.
  intros H1 H2. unfold updatestats.
  eapply partial_bind; [apply partial_get|]. intros counts. cbn zeta.
  eapply (partial_bind _ _ (fun _ => P));
    [apply partial_put; intros d (_ & Hd); by apply H1|]. intros [].
  apply partial_put. intros d Hd. by apply H2.
Qed.

End frames.

Lemma rebuildhypotheses_exact (P : Detective → Prop) (fuel : nat) :
  partial (fun d => areHypothesesEnumerable d = true ∧ P d) (rebuildhypotheses fuel)
          (fun _ d => areHypothesesEnumerable d = true ∧ P d).
Proof.
  unfold rebuildhypotheses.
  eapply partial_bind; [apply partial_get|]. intros enumerable.
  eapply partial_strengthen with
    (P := fun d => enumerable = true ∧ areHypothesesEnumerable d = true ∧ P d).
  { intros d (-> & He & Hd). done. }
  apply partial_assume. intros ->. by apply partial_ret.
Qed.

(** ** The events in exact mode *)

Lemma hand_of_Ok (h : hypothesis) (ix : nat) (hand : gset nat) :
  hand_of h ix = Ok hand → hands h !! ix = Some hand.
Proof.
  unfold hand_of, getitem. destruct (hands h !! ix); [by intros [= ->]|].
  by destruct (_ =? _).
Qed.

Lemma no_card_of (cards hand : gset nat) :
  (size (cards ∩ hand) =? 0) = bool_decide (hand ## cards).
Proof.
  destruct (Nat.eqb_spec (size (cards ∩ hand)) 0) as [H0|Hne]; symmetry.
  - apply bool_decide_eq_true. apply size_empty_iff in H0.
    apply elem_of_disjoint. intros x Hx Hc.
    apply (not_elem_of_empty (C := gset nat) x). rewrite <- H0.
    by apply elem_of_intersection.
  - apply bool_decide_eq_false. intros Hdis. apply Hne, size_empty_iff.
    apply elem_of_equiv_empty. intros x [Hc Hx]%elem_of_intersection.
    by apply (proj1 (elem_of_disjoint _ _) Hdis x).
Qed.

Section exact.
Variables (hs : list hypothesis).

(** The pool [hs] of a Detective in exact mode, and the pool after the
    loop of an event. *)
Let before (d : Detective) : Prop :=
  hypotheses d = hs ∧ areHypothesesEnumerable d = true.

Lemma exact_reduce (keep : hypothesis → result bool) :
  partial before (reduce_hypotheses keep)
    (fun _ d => (hypotheses d = List.filter (kept_by keep) hs ∧
                 Forall (fun h => ∃ b, keep h = Ok b) hs) ∧
                areHypothesesEnumerable d = true).
Proof.
  eapply partial_consequence;
    [| |apply (reduce_hypotheses_filters hs keep
             (fun _ d => areHypothesesEnumerable d = true))].
  - intros d [Hd He]. by split.
  - intros [] d (Hd & Hall & He). by split_and!.
  - intros z h. apply count_hypothesis_frame; intros v d [Hd He]; by destruct d.
  - intros z v d He. by destruct d.
Qed.

(** After the loop: the rebuild does nothing and the statistics do not
    touch the pool. *)
Lemma exact_finish (fuel : nat) (Q : Prop) :
  partial (fun d => Q ∧ areHypothesesEnumerable d = true ∧ hypotheses d = hs)
    (bind (rebuildhypotheses fuel) (fun _ => updatestats))
    (fun _ d => areHypothesesEnumerable d = true ∧ Q ∧ hypotheses d = hs).
Proof.
  eapply partial_bind.
  - eapply partial_strengthen;
      [|apply (rebuildhypotheses_exact (fun d => Q ∧ hypotheses d = hs))].
    intros d (HQ & He & Hd). by split_and!.
  - intros []. apply updatestats_frame; intros v d (He & HQ & Hd); by destruct d.
Qed.

End exact.

Lemma filter_decided (keep : hypothesis → result bool) (test : hypothesis → bool)
    (hs : list hypothesis) :
  Forall (fun h => ∃ b, keep h = Ok b) hs →
  (∀ h b, keep h = Ok b → b = test h) →
  List.filter (kept_by keep) hs = List.filter test hs.
Proof.
  intros Hall Htest. apply filter_ext_in. intros h Hin%list_elem_of_In.
  destruct (proj1 (Forall_forall _ _) Hall h Hin) as [b Hb].
  unfold kept_by. rewrite Hb. rewrite <- (Htest h b Hb). by destruct b.
Qed.

(** X4. In exact mode, a pass recorded by [event_pass] leaves in the pool
    exactly the hypotheses, in their order, in which the player who
    passed holds none of the three cards; every hypothesis of the pool had
    a hand for that player. *)
Theorem event_pass_filters (fuel character room weapon : nat) (player : option nat)
    (d : Detective) (tape : list nat) (w' : World) :
  areHypothesesEnumerable d = true →
  event_pass fuel (Some character) (Some room) (Some weapon) player (d, tape)
  = (Ok tt, w') →
  let actor := default 0 player in
  hypotheses (fst w')
  = List.filter (fun h => bool_decide (hand_at h actor ## {[ character; room; weapon ]}))
                (hypotheses d) ∧
  Forall (fun h => actor < length (hands h)) (hypotheses d) ∧
  areHypothesesEnumerable (fst w') = true.
Proof.
  intros Henum Hrun actor.
  set (hs := hypotheses d).
  set (keep := fun h : hypothesis =>
    match hand_of h actor with
    | Ok hand => Ok (size (({[ character; room; weapon ]} : gset nat) ∩ hand) =? 0)
    | Raise e => Raise e
    | OutOfFuel => OutOfFuel
    end).
  assert (partial (fun d0 => hypotheses d0 = hs ∧ areHypothesesEnumerable d0 = true)
            (event_pass fuel (Some character) (Some room) (Some weapon) player)
            (fun _ d' => areHypothesesEnumerable d' = true ∧
                         Forall (fun h => ∃ b, keep h = Ok b) hs ∧
                         hypotheses d' = List.filter (kept_by keep) hs)) as Hspec.
  { unfold event_pass.
    eapply (partial_bind _ _ (fun event d0 =>
      (pass_actor event = actor ∧ pass_character event = character ∧
       pass_room event = room ∧ pass_weapon event = weapon) ∧
      hypotheses d0 = hs ∧ areHypothesesEnumerable d0 = true)).
    { eapply partial_bind; [apply partial_get|]. intros turn. cbn zeta.
      eapply partial_bind; [apply partial_get|]. intros log.
      eapply (partial_bind _ _ (fun _ d0 =>
        hypotheses d0 = hs ∧ areHypothesesEnumerable d0 = true)).
      - apply partial_put. intros d0 (_ & _ & Hd & He). by destruct d0.
      - intros []. apply partial_ret. by intros d0 [? ?]. }
    intros event. apply partial_assume. intros (-> & -> & -> & ->).
    eapply partial_bind;
      [apply forbid_passed_frame; intros v d0 [? ?]; by destruct d0|]. intros [].
    eapply partial_bind;
      [apply forbid_passed_frame; intros v d0 [? ?]; by destruct d0|]. intros [].
    eapply partial_bind;
      [apply forbid_passed_frame; intros v d0 [? ?]; by destruct d0|]. intros [].
    cbn zeta.
    eapply partial_bind; [apply (exact_reduce hs)|]. intros [].
    eapply partial_strengthen; [|apply (exact_finish _ fuel)].
    intros d0 ([Hd Hall] & He). split_and!; [exact Hall|done|exact Hd]. }
  destruct (Hspec (d, tape) tt w' (conj eq_refl Henum) Hrun) as (He & Hall & Hpool).
  split_and!; [|clear Hpool|done].
  - rewrite Hpool. apply (filter_decided keep); [done|].
    intros h b. unfold keep. destruct (hand_of h actor) as [hand| |] eqn:Hhand; [|done..].
    intros [= <-]. apply hand_of_Ok in Hhand. unfold hand_at. rewrite Hhand.
    apply no_card_of.
  - eapply Forall_impl; [exact Hall|]. intros h [b Hb]. unfold keep in Hb.
    destruct (hand_of h actor) as [hand| |] eqn:Hhand; [|done..].
    apply hand_of_Ok in Hhand. by eapply lookup_lt_Some.
Qed.

(** The two-player game: the opponent passes on (3, 12, 16). *)
Lemma event_pass_filters_witness :
  ∃ w',
    event_pass 30 (Some 3) (Some 12) (Some 16) (Some 1) (example.two_players, [])
    = (Ok tt, w') ∧
    hypotheses (fst w')
    = List.filter (fun h => bool_decide (hand_at h 1 ## {[ 3; 12; 16 ]}))
                  (hypotheses example.two_players) ∧
    Forall (fun h => 1 < length (hands h)) (hypotheses example.two_players) ∧
    areHypothesesEnumerable (fst w') = true.
Proof.
  destruct (event_pass 30 (Some 3) (Some 12) (Some 16) (Some 1) (example.two_players, []))
    as [[[]|e|] w'] eqn:Hrun.
  - exists w'. split; [reflexivity|].
    exact (event_pass_filters 30 3 12 16 (Some 1) example.two_players [] w'
             eq_refl Hrun).
  - apply (f_equal fst) in Hrun. vm_compute in Hrun. discriminate Hrun.
  - apply (f_equal fst) in Hrun. vm_compute in Hrun. discriminate Hrun.
Defined.

(** X5. In exact mode, a card seen in a player's hand ([event_seenresponse]
    with the card and at least one of the two players) leaves in the pool
    exactly the hypotheses in which the player who showed the card holds
    it, when that player has a hand in every hypothesis. *)
Theorem event_seenresponse_filters (fuel card : nat) (shower viewer : option nat)
    (d : Detective) (tape : list nat) (w' : World) :
  let actor := default 0 shower in
  areHypothesesEnumerable d = true →
  is_Some shower ∨ is_Some viewer →
  Forall (fun h => actor < length (hands h)) (hypotheses d) →
  event_seenresponse fuel (Some card) shower viewer (d, tape) = (Ok tt, w') →
  hypotheses (fst w')
  = List.filter (fun h => bool_decide (card ∈ hand_at h actor)) (hypotheses d) ∧
  areHypothesesEnumerable (fst w') = true.
Proof.
  intros actor Henum Hgiven Hhands Hrun.
  set (hs := hypotheses d) in *.
  set (keep := fun h : hypothesis =>
    match getitem h actor with
    | Some it => Ok (contains card it)
    | None => Raise IndexError
    end).
  assert (partial (fun d0 => hypotheses d0 = hs ∧ areHypothesesEnumerable d0 = true)
            (event_seenresponse fuel (Some card) shower viewer)
            (fun _ d' => areHypothesesEnumerable d' = true ∧
                         Forall (fun h => ∃ b, keep h = Ok b) hs ∧
                         hypotheses d' = List.filter (kept_by keep) hs)) as Hspec.
  { unfold event_seenresponse.
    eapply (partial_bind _ _ (fun event d0 =>
      (seen_actor event = actor ∧ seen_card event = card) ∧
      hypotheses d0 = hs ∧ areHypothesesEnumerable d0 = true)).
    { assert (partial (fun d0 => hypotheses d0 = hs ∧ areHypothesesEnumerable d0 = true)
                (bind (get ixTurn) (fun turn =>
                   let event := mkEventSeenAnswer turn (default 0 shower)
                                  (default 0 viewer) card in
                   bind (get logSeenAnswers) (fun log =>
                   bind (put set_logSeenAnswers (log ++ [event])) (fun _ => ret event))))
                (fun event d0 =>
                   (seen_actor event = actor ∧ seen_card event = card) ∧
                   hypotheses d0 = hs ∧ areHypothesesEnumerable d0 = true)) as Hlog.
      { eapply partial_bind; [apply partial_get|]. intros turn. cbn zeta.
        eapply partial_bind; [apply partial_get|]. intros log.
        eapply (partial_bind _ _ (fun _ d0 =>
          hypotheses d0 = hs ∧ areHypothesesEnumerable d0 = true)).
        - apply partial_put. intros d0 (_ & _ & Hd & He). by destruct d0.
        - intros []. apply partial_ret. by intros d0 [? ?]. }
      destruct shower, viewer; try exact Hlog.
      destruct Hgiven as [[? [=]]|[? [=]]]. }
    intros event. apply partial_assume. intros (-> & ->).
    eapply partial_bind; [apply partial_get|]. intros n.
    eapply (partial_bind _ _ (fun _ d0 =>
      hypotheses d0 = hs ∧ areHypothesesEnumerable d0 = true)).
    { eapply partial_strengthen with
        (P := fun d0 => hypotheses d0 = hs ∧ areHypothesesEnumerable d0 = true);
        [by intros d0 (_ & ? & ?)|].
      apply partial_forM. intros ixPlayer _. destruct (negb _).
      - eapply partial_bind;
          [apply forbidden_set_frame; intros v d0 [? ?]; by destruct d0|]. intros [].
        apply forbiddenSets_add_frame. intros v d0 [? ?]. by destruct d0.
      - eapply partial_bind;
          [apply forbidden_set_frame; intros v d0 [? ?]; by destruct d0|]. intros [].
        apply forbiddenSets_discard_frame. intros v d0 [? ?]. by destruct d0. }
    intros [].
    eapply partial_bind; [apply (exact_reduce hs)|]. intros [].
    eapply partial_strengthen; [|apply (exact_finish _ fuel)].
    intros d0 ([Hd Hall] & He). split_and!; [exact Hall|done|exact Hd]. }
  destruct (Hspec (d, tape) tt w' (conj eq_refl Henum) Hrun) as (He & Hall & Hpool).
  split; [|done]. rewrite Hpool.
  apply filter_ext_in. intros h Hin%list_elem_of_In.
  pose proof (proj1 (Forall_forall _ _) Hhands h Hin) as Hlt.
  destruct (lookup_lt_is_Some_2 (hands h) actor Hlt) as [hand Hhand].
  unfold kept_by, keep, getitem, hand_at. rewrite Hhand. cbn.
  by destruct (bool_decide _).
Qed.

(** The two-player game: the opponent shows card 5. *)
Lemma event_seenresponse_filters_witness :
  ∃ w',
    event_seenresponse 30 (Some 5) (Some 1) (Some 0) (example.two_players, [])
    = (Ok tt, w') ∧
    hypotheses (fst w')
    = List.filter (fun h => bool_decide (5 ∈ hand_at h 1))
                  (hypotheses example.two_players) ∧
    areHypothesesEnumerable (fst w') = true.
Proof.
  destruct (event_seenresponse 30 (Some 5) (Some 1) (Some 0) (example.two_players, []))
    as [[[]|e|] w'] eqn:Hrun.
  - exists w'. split; [reflexivity|].
    apply (event_seenresponse_filters 30 5 (Some 1) (Some 0) example.two_players [] w');
      [reflexivity|left; by eexists|computed|exact Hrun].
  - apply (f_equal fst) in Hrun. vm_compute in Hrun. discriminate Hrun.
  - apply (f_equal fst) in Hrun. vm_compute in Hrun. discriminate Hrun.
Defined.

(** X6. In exact mode, an answer not seen by the Detective
    ([event_unseenresponse] with the three cards and at least one of the
    two players) leaves in the pool exactly the hypotheses in which the
    player who answered holds at least one of the three cards; every
    hypothesis of the pool had a hand for that player. *)
Theorem event_unseenresponse_filters (fuel character room weapon : nat)
    (shower viewer : option nat) (d : Detective) (tape : list nat) (w' : World) :
  let actor := default 0 shower in
  areHypothesesEnumerable d = true →
  is_Some shower ∨ is_Some viewer →
  event_unseenresponse fuel (Some character) (Some room) (Some weapon) shower viewer
    (d, tape) = (Ok tt, w') →
  hypotheses (fst w')
  = List.filter
      (fun h => negb (bool_decide (hand_at h actor ## {[ character; room; weapon ]})))
      (hypotheses d) ∧
  Forall (fun h => actor < length (hands h)) (hypotheses d) ∧
  areHypothesesEnumerable (fst w') = true.
Proof.
  intros actor Henum Hgiven Hrun.
  set (hs := hypotheses d) in *.
  set (keep := fun h : hypothesis =>
    match hand_of h actor with
    | Ok hand =>
        Ok (negb (size (({[ character; room; weapon ]} : gset nat) ∩ hand) =? 0))
    | Raise e => Raise e
    | OutOfFuel => OutOfFuel
    end).
  assert (partial (fun d0 => hypotheses d0 = hs ∧ areHypothesesEnumerable d0 = true)
            (event_unseenresponse fuel (Some character) (Some room) (Some weapon)
               shower viewer)
            (fun _ d' => areHypothesesEnumerable d' = true ∧
                         Forall (fun h => ∃ b, keep h = Ok b) hs ∧
                         hypotheses d' = List.filter (kept_by keep) hs)) as Hspec.
  { unfold event_unseenresponse.
    eapply (partial_bind _ _ (fun event d0 =>
      event = (actor, character, room, weapon) ∧
      hypotheses d0 = hs ∧ areHypothesesEnumerable d0 = true)).
    { assert (∀ s v,
        partial (fun d0 => hypotheses d0 = hs ∧ areHypothesesEnumerable d0 = true)
          (bind (get ixTurn) (fun turn =>
             let event := mkEventUnseenAnswer turn s v character room weapon in
             bind (get logUnseenAnswers) (fun log =>
             bind (put set_logUnseenAnswers (log ++ [event])) (fun _ =>
               ret (unseen_actor event, unseen_character event, unseen_room event,
                    unseen_weapon event)))))
          (fun event d0 =>
             event = (s, character, room, weapon) ∧
             hypotheses d0 = hs ∧ areHypothesesEnumerable d0 = true)) as Hlog.
      { intros s v.
        eapply partial_bind; [apply partial_get|]. intros turn. cbn zeta.
        eapply partial_bind; [apply partial_get|]. intros log.
        eapply (partial_bind _ _ (fun _ d0 =>
          hypotheses d0 = hs ∧ areHypothesesEnumerable d0 = true)).
        - apply partial_put. intros d0 (_ & _ & Hd & He). by destruct d0.
        - intros []. apply partial_ret. by intros d0 [? ?]. }
      destruct shower as [s|], viewer as [v|]; try apply Hlog.
      destruct Hgiven as [[? [=]]|[? [=]]]. }
    intros event. apply partial_assume. intros ->. cbn zeta.
    eapply partial_bind; [apply (exact_reduce hs)|]. intros [].
    eapply partial_strengthen; [|apply (exact_finish _ fuel)].
    intros d0 ([Hd Hall] & He). split_and!; [exact Hall|done|exact Hd]. }
  destruct (Hspec (d, tape) tt w' (conj eq_refl Henum) Hrun) as (He & Hall & Hpool).
  split_and!; [|clear Hpool|done].
  - rewrite Hpool. apply (filter_decided keep); [done|].
    intros h b. unfold keep. destruct (hand_of h actor) as [hand| |] eqn:Hhand; [|done..].
    intros [= <-]. apply hand_of_Ok in Hhand. unfold hand_at. rewrite Hhand.
    cbn. by rewrite no_card_of.
  - eapply Forall_impl; [exact Hall|]. intros h [b Hb]. unfold keep in Hb.
    destruct (hand_of h actor) as [hand| |] eqn:Hhand; [|done..].
    apply hand_of_Ok in Hhand. by eapply lookup_lt_Some.
Qed.

(** The two-player game: the opponent answers (3, 12, 16) to someone. *)
Lemma event_unseenresponse_filters_witness :
  ∃ w',
    event_unseenresponse 30 (Some 3) (Some 12) (Some 16) (Some 1) (Some 0)
      (example.two_players, []) = (Ok tt, w') ∧
    hypotheses (fst w')
    = List.filter (fun h => negb (bool_decide (hand_at h 1 ## {[ 3; 12; 16 ]})))
                  (hypotheses example.two_players) ∧
    Forall (fun h => 1 < length (hands h)) (hypotheses example.two_players) ∧
    areHypothesesEnumerable (fst w') = true.
Proof.
  destruct (event_unseenresponse 30 (Some 3) (Some 12) (Some 16) (Some 1) (Some 0)
              (example.two_players, [])) as [[[]|e|] w'] eqn:Hrun.
  - exists w'. split; [reflexivity|].
    apply (event_unseenresponse_filters 30 3 12 16 (Some 1) (Some 0)
             example.two_players [] w'); [reflexivity|left; by eexists|exact Hrun].
  - apply (f_equal fst) in Hrun. vm_compute in Hrun. discriminate Hrun.
  - apply (f_equal fst) in Hrun. vm_compute in Hrun. discriminate Hrun.
Defined.


(* ################################################################# *)
(** * The counts follow the pool *)

#[local] Arguments tensor.total : simpl never.
#[local] Arguments tensor.sumZ : simpl never.

Lemma add_at1_total (v : vector) (e d : Z) (v' : vector) :
  tensor.add_at1 v e d = Some v' → (tensor.sumZ v' = tensor.sumZ v + d)%Z.
Proof.
  unfold tensor.add_at1. destruct (np.index (length v) e) as [i|] eqn:Hi; [|done].
  cbn. intros [= <-].
  destruct (lookup_lt_is_Some_2 v i) as [x Hx].
  { unfold np.index in Hi. repeat case_match; simplify_eq; lia. }
  rewrite (sumZ_alter_id _ _ _ _ Hx). lia.
Qed.

(** One hypothesis taken off the counts: each of the four sums goes down
    by one, and nothing else that matters here changes. *)
Lemma count_hypothesis_sums (P : Detective → Prop) (h : hypothesis) (t : Z * Z * Z * Z) :
  (∀ v d, P d → P (set_hypCountByScenario v d)) →
  (∀ v d, P d → P (set_hypCountByCharacter v d)) →
  (∀ v d, P d → P (set_hypCountByRoom v d)) →
  (∀ v d, P d → P (set_hypCountByWeapon v d)) →
  partial (fun d => P d ∧ counted_sums d = t) (count_hypothesis h (-1))
    (fun _ d => P d ∧
       counted_sums d
       = let '(a, b, c, e) := t in ((a - 1)%Z, (b - 1)%Z, (c - 1)%Z, (e - 1)%Z)).
Proof.
  intros H1 H2 H3 H4. destruct t as [[[a b] c] e].
  intros [d tape] [] w' [HP Hsum] Hrun.
  cbn [fst] in *. unfold count_hypothesis in Hrun.
  destruct (envelope h) as [[ixChar ixRoom] ixWeap].
  unfold counted_sums in Hsum. injection Hsum as Ha Hb Hc He.
  apply bind_returns in Hrun as (t1 & w1 & [= <- <-] & Hrun). cbn [fst] in Hrun.
  apply bind_returns in Hrun as (t1' & w1 & Ht1 & Hrun).
  destruct (tensor.add_at _ _ _) as [x|] eqn:Hadd1; [|done]. injection Ht1 as <- <-.
  apply bind_returns in Hrun as ([] & w1 & [= <-] & Hrun). cbn [fst snd] in Hrun.
  apply bind_returns in Hrun as (t2 & w1 & [= <- <-] & Hrun). cbn [fst] in Hrun.
  apply bind_returns in Hrun as (t2' & w1 & Ht2 & Hrun).
  destruct (tensor.add_at1 _ ixChar _) as [y|] eqn:Hadd2; [|done]. injection Ht2 as <- <-.
  apply bind_returns in Hrun as ([] & w1 & [= <-] & Hrun). cbn [fst snd] in Hrun.
  apply bind_returns in Hrun as (t3 & w1 & [= <- <-] & Hrun). cbn [fst] in Hrun.
  apply bind_returns in Hrun as (t3' & w1 & Ht3 & Hrun).
  destruct (tensor.add_at1 _ ixRoom _) as [z|] eqn:Hadd3; [|done]. injection Ht3 as <- <-.
  apply bind_returns in Hrun as ([] & w1 & [= <-] & Hrun). cbn [fst snd] in Hrun.
  apply bind_returns in Hrun as (t4 & w1 & [= <- <-] & Hrun). cbn [fst] in Hrun.
  apply bind_returns in Hrun as (t4' & w1 & Ht4 & Hrun).
  destruct (tensor.add_at1 _ ixWeap _) as [u|] eqn:Hadd4; [|done]. injection Ht4 as <- <-.
  injection Hrun as <-. cbn [fst snd].
  apply add_at_total in Hadd1. apply add_at1_total in Hadd2, Hadd3, Hadd4.
  split; [by apply H4, H3, H2, H1|].
  destruct d. cbn in *. unfold counted_sums. cbn. f_equal; [f_equal; [f_equal|]|].
  all: lia.
Qed.

(** The end of an event in exact mode: what the counts lose is what the
    pool loses. *)
Lemma exact_tail_surplus (keep : hypothesis → result bool) (fuel : nat)
    (s : Z * Z * Z * Z) :
  partial (fun d => areHypothesesEnumerable d = true ∧ surplus d = s)
    (bind (reduce_hypotheses keep) (fun _ =>
     bind (rebuildhypotheses fuel) (fun _ => updatestats)))
    (fun _ d => areHypothesesEnumerable d = true ∧ surplus d = s).
Proof.
  apply partial_from. intros d0 [Henum Hs].
  set (hs := hypotheses d0). set (t := counted_sums d0).
  set (E := fun (z : nat) (d : Detective) =>
    areHypothesesEnumerable d = true ∧ counted_sums d = less t z).
  eapply partial_bind.
  { eapply partial_strengthen;
      [|apply (reduce_hypotheses_filters hs keep E)].
    - intros d ->. split; [done|]. split; [done|].
      unfold less, t. destruct (counted_sums d0) as [[[a b] c] e].
      f_equal; [f_equal; [f_equal|]|]; lia.
    - intros z h.
      eapply partial_consequence;
        [| |apply (count_hypothesis_sums
                    (fun d => hypotheses d = hs ∧ areHypothesesEnumerable d = true)
                    h (less t z))].
      + intros d (Hd & He & Hc). by split_and!.
      + intros [] d ((Hd & He) & Hc). split; [done|]. split; [done|].
        rewrite Hc. unfold less. destruct t as [[[a b] c] e].
        f_equal; [f_equal; [f_equal|]|]; lia.
      + intros v d [? ?]. by destruct d.
      + intros v d [? ?]. by destruct d.
      + intros v d [? ?]. by destruct d.
      + intros v d [? ?]. by destruct d.
    - intros z v d [He Hc]. split; [by destruct d|]. rewrite <- Hc. by destruct d. }
  intros []. cbn beta.
  set (kept := List.filter (kept_by keep) hs).
  eapply partial_consequence with
    (P := fun d => areHypothesesEnumerable d = true ∧
                   (hypotheses d = kept ∧ counted_sums d = less t (length hs - length kept)))
    (Q := fun _ d => areHypothesesEnumerable d = true ∧
                     (hypotheses d = kept ∧ counted_sums d = less t (length hs - length kept))).
  { intros d (Hd & _ & He & Hc). by split_and!. }
  { intros [] d (He & Hd & Hc). split; [done|].
    rewrite <- Hs. unfold surplus. fold t. unfold counted_sums in Hc.
    pose proof (filter_length (kept_by keep) hs) as Hle. fold kept in Hle.
    fold hs. rewrite Hd.
    unfold less in Hc. destruct t as [[[a b] c] e] eqn:Ht.
    unfold counted_sums in Ht. injection Ht as <- <- <- <-.
    injection Hc as -> -> -> ->.
    f_equal; [f_equal; [f_equal|]|]; lia. }
  eapply partial_bind; [apply rebuildhypotheses_exact|].
  intros []. apply updatestats_frame.
  - intros v d (He & Hd & Hc). split_and!; [by destruct d..|]. rewrite <- Hc. by destruct d.
  - intros v d (He & Hd & Hc). split_and!; [by destruct d..|]. rewrite <- Hc. by destruct d.
Qed.

(** X7. In exact mode the count arrays follow the pool: when [event_pass],
    [event_seenresponse] or [event_unseenresponse], called with its
    cards, returns, each of the four count arrays (by scenario, character,
    room and weapon) has lost in total exactly as much as the pool has
    lost hypotheses. *)
Theorem counts_follow_pool (fuel : nat) (d : Detective) (tape : list nat) :
  areHypothesesEnumerable d = true →
  (∀ character room weapon player w',
     event_pass fuel (Some character) (Some room) (Some weapon) player (d, tape)
     = (Ok tt, w') → surplus (fst w') = surplus d) ∧
  (∀ card shower viewer w',
     is_Some shower ∨ is_Some viewer →
     event_seenresponse fuel (Some card) shower viewer (d, tape) = (Ok tt, w') →
     surplus (fst w') = surplus d) ∧
  (∀ character room weapon shower viewer w',
     is_Some shower ∨ is_Some viewer →
     event_unseenresponse fuel (Some character) (Some room) (Some weapon) shower viewer
       (d, tape) = (Ok tt, w') → surplus (fst w') = surplus d).
Proof.
  intros Henum.
  set (P := fun d0 => areHypothesesEnumerable d0 = true ∧ surplus d0 = surplus d).
  assert (∀ v d0, P d0 → P (set_forbidden v d0)) as Hf
    by (intros v d0 [He Hs]; split; [|rewrite <- Hs]; by destruct d0).
  assert (∀ v d0, P d0 → P (set_forbiddenSets v d0)) as Hfs
    by (intros v d0 [He Hs]; split; [|rewrite <- Hs]; by destruct d0).
  split_and!.
  - intros character room weapon player w' Hrun.
    enough (partial P (event_pass fuel (Some character) (Some room) (Some weapon) player)
              (fun _ => P)) as Hspec
      by (by destruct (Hspec (d, tape) tt w' (conj Henum eq_refl) Hrun)).
    unfold event_pass.
    eapply (partial_bind _ _ (fun _ => P)).
    { eapply partial_bind; [apply partial_get|]. intros turn. cbn zeta.
      eapply partial_bind; [apply partial_get|]. intros log.
      eapply (partial_bind _ _ (fun _ => P)).
      - apply partial_put. intros d0 (_ & _ & He & Hs).
        split; [|rewrite <- Hs]; by destruct d0.
      - intros []. by apply partial_ret. }
    intros event.
    eapply partial_bind; [by apply forbid_passed_frame|]. intros [].
    eapply partial_bind; [by apply forbid_passed_frame|]. intros [].
    eapply partial_bind; [by apply forbid_passed_frame|]. intros []. cbn zeta.
    apply exact_tail_surplus.
  - intros card shower viewer w' Hgiven Hrun.
    enough (partial P (event_seenresponse fuel (Some card) shower viewer) (fun _ => P))
      as Hspec by (by destruct (Hspec (d, tape) tt w' (conj Henum eq_refl) Hrun)).
    unfold event_seenresponse.
    eapply (partial_bind _ _ (fun _ => P)).
    { assert (partial P
                (bind (get ixTurn) (fun turn =>
                   let event := mkEventSeenAnswer turn (default 0 shower)
                                  (default 0 viewer) card in
                   bind (get logSeenAnswers) (fun log =>
                   bind (put set_logSeenAnswers (log ++ [event])) (fun _ => ret event))))
                (fun _ => P)) as Hlog.
      { eapply partial_bind; [apply partial_get|]. intros turn. cbn zeta.
        eapply partial_bind; [apply partial_get|]. intros log.
        eapply (partial_bind _ _ (fun _ => P)).
        - apply partial_put. intros d0 (_ & _ & He & Hs).
        split; [|rewrite <- Hs]; by destruct d0.
        - intros []. by apply partial_ret. }
      destruct shower, viewer; try exact Hlog.
      destruct Hgiven as [[? [=]]|[? [=]]]. }
    intros event.
    eapply partial_bind; [apply partial_get|]. intros n.
    eapply (partial_bind _ _ (fun _ => P)).
    { eapply partial_strengthen with (P := P); [by intros d0 (_ & ?)|].
      apply partial_forM. intros ixPlayer _. destruct (negb _).
      - eapply partial_bind; [by apply forbidden_set_frame|]. intros [].
        by apply forbiddenSets_add_frame.
      - eapply partial_bind; [by apply forbidden_set_frame|]. intros [].
        by apply forbiddenSets_discard_frame. }
    intros []. apply exact_tail_surplus.
  - intros character room weapon shower viewer w' Hgiven Hrun.
    enough (partial P (event_unseenresponse fuel (Some character) (Some room)
                         (Some weapon) shower viewer) (fun _ => P))
      as Hspec by (by destruct (Hspec (d, tape) tt w' (conj Henum eq_refl) Hrun)).
    unfold event_unseenresponse.
    eapply (partial_bind _ _ (fun _ => P)).
    { assert (∀ s v,
        partial P
          (bind (get ixTurn) (fun turn =>
             let event := mkEventUnseenAnswer turn s v character room weapon in
             bind (get logUnseenAnswers) (fun log =>
             bind (put set_logUnseenAnswers (log ++ [event])) (fun _ =>
               ret (unseen_actor event, unseen_character event, unseen_room event,
                    unseen_weapon event)))))
          (fun _ => P)) as Hlog.
      { intros s v.
        eapply partial_bind; [apply partial_get|]. intros turn. cbn zeta.
        eapply partial_bind; [apply partial_get|]. intros log.
        eapply (partial_bind _ _ (fun _ => P)).
        - apply partial_put. intros d0 (_ & _ & He & Hs).
        split; [|rewrite <- Hs]; by destruct d0.
        - intros []. by apply partial_ret. }
      destruct shower as [s|], viewer as [v|]; try apply Hlog.
      destruct Hgiven as [[? [=]]|[? [=]]]. }
    intros [[[actor c] r] w]. cbn zeta. apply exact_tail_surplus.
Qed.

(** The two-player game: after the opponent's pass on (3, 12, 16) the sum
    of every count array is still the number of hypotheses. *)
Lemma counts_follow_pool_witness :
  ∃ w',
    event_pass 30 (Some 3) (Some 12) (Some 16) (Some 1) (example.two_players, [])
    = (Ok tt, w') ∧
    surplus (fst w') = surplus example.two_players.
Proof.
  destruct (event_pass 30 (Some 3) (Some 12) (Some 16) (Some 1) (example.two_players, []))
    as [[[]|e|] w'] eqn:Hrun.
  - exists w'. split; [reflexivity|].
    exact (proj1 (counts_follow_pool 30 example.two_players [] eq_refl)
             3 12 16 (Some 1) w' Hrun).
  - apply (f_equal fst) in Hrun. vm_compute in Hrun. discriminate Hrun.
  - apply (f_equal fst) in Hrun. vm_compute in Hrun. discriminate Hrun.
Defined.


(* ################################################################# *)
(** * Detective.rebuildhypotheses: the switch to exact mode *)

(** Step 1 works in place on the one hypothesis of the list. *)
Lemma deal_known_one (P : Detective → Prop) (dealt : gset nat) (card : nat) :
  (∀ v d, P d → P (set_hypotheses v d)) →
  partial (fun d => length (hypotheses d) = 1 ∧ P d) (deal_known dealt card)
          (fun _ d => length (hypotheses d) = 1 ∧ P d).
Proof.
  intros HP. unfold deal_known.
  eapply partial_bind; [apply partial_get|]. intros n.
  eapply partial_bind; [apply partial_get|]. intros f.
  eapply partial_strengthen with (P := fun d => length (hypotheses d) = 1 ∧ P d);
    [by intros d (_ & _ & ?)|].
  destruct (_ =? _); [|by apply partial_ret].
  eapply partial_bind; [apply partial_lift|]. intros found.
  eapply partial_bind; [apply partial_orraise|]. intros ixHolder.
  eapply partial_bind; [apply partial_get|]. intros hyps.
  eapply partial_bind; [apply partial_orraise|]. intros h.
  eapply partial_strengthen with
    (P := fun d => length hyps = 1 ∧ P d).
  { intros d (_ & -> & _ & _ & Hlen & Hd). done. }
  apply partial_assume. intros Hlen.
  eapply (partial_bind _ _ (fun _ d => length (hypotheses d) = 1 ∧ P d)).
  - destruct (_ <? _).
    + eapply partial_bind; [apply partial_orraise|]. intros hand.
      apply partial_put. intros d (_ & Hd). split; [|by apply HP].
      replace (hypotheses (set_hypotheses _ d))
        with (<[0 := set_hand h ixHolder (hand ∪ {[card]})]> hyps) by (by destruct d).
      by rewrite length_insert.
    + destruct (envelope h) as [[ixChar ixRoom] ixWeap]. cbn zeta.
      apply partial_put. intros d Hd. split; [|by apply HP].
      match goal with |- length (hypotheses (set_hypotheses ?v d)) = 1 =>
        replace (hypotheses (set_hypotheses v d)) with v by (by destruct d) end.
      by rewrite length_insert.
  - intros []. by apply partial_ret.
Qed.

(** Step 1 has no loop that could go on for ever. *)
Lemma bind_OutOfFuel {S A B} (m : M S A) (k : A → M S B) (s : S) :
  fst (bind m k s) = OutOfFuel →
  fst (m s) = OutOfFuel ∨ ∃ a s1, m s = (Ok a, s1) ∧ fst (k a s1) = OutOfFuel.
Proof.
  unfold bind. destruct (m s) as [[a|e|] s1]; [|done|by left].
  intros H. right. by exists a, s1.
Qed.

Lemma first_allowed_fuelless (f : list (list bool)) (slots card : nat) :
  first_allowed f slots card ≠ OutOfFuel.
Proof.
  unfold first_allowed. generalize (seq 0 slots).
  induction l as [|ix l IH]; [done|]. by destruct (forbidden_at f ix card) as [[|]|].
Qed.

Lemma orraise_fuelless {S A} (e : exn) (o : option A) (s : S) :
  fst (orraise e o s) ≠ OutOfFuel.
Proof. by destruct o. Qed.

Lemma deal_known_fuelless (dealt : gset nat) (card : nat) (w : World) :
  fst (deal_known dealt card w) ≠ OutOfFuel.
Proof.
  unfold deal_known. intros H.
  apply bind_OutOfFuel in H as [H|(n & w1 & _ & H)]; [done|].
  apply bind_OutOfFuel in H as [H|(f & w2 & _ & H)]; [done|].
  destruct (_ =? _); [|done].
  apply bind_OutOfFuel in H as [H|(found & w3 & _ & H)].
  { unfold lift in H. cbn in H. by apply first_allowed_fuelless in H. }
  apply bind_OutOfFuel in H as [H|(ixHolder & w4 & _ & H)];
    [by apply orraise_fuelless in H|].
  apply bind_OutOfFuel in H as [H|(hyps & w5 & _ & H)]; [done|].
  apply bind_OutOfFuel in H as [H|(h & w6 & _ & H)];
    [by apply orraise_fuelless in H|].
  apply bind_OutOfFuel in H as [H|([] & w7 & _ & H)]; [|done].
  destruct (_ <? _).
  - apply bind_OutOfFuel in H as [H|(hand & w7 & _ & H)];
      [by apply orraise_fuelless in H|done].
  - by destruct (envelope h) as [[? ?] ?].
Qed.

Lemma deal_known_all_fuelless (cards : list nat) (dealt : gset nat) (w : World) :
  fst (foldM deal_known dealt cards w) ≠ OutOfFuel.
Proof.
  revert dealt w. induction cards as [|c cards IH]; intros dealt w; [done|].
  cbn [foldM]. intros H.
  apply bind_OutOfFuel in H as [H|(a & w1 & _ & H)];
    [by apply deal_known_fuelless in H|by apply IH in H].
Qed.

(** X8. The exact enumeration cannot be run once an answer that the
    Detective did not see is in the log: whatever the state otherwise,
    [enumerate_hypotheses] (the branch of [rebuildhypotheses] that
    switches to exact mode) does not return; it raises, at the latest
    where step 2 reads [constraint.shower] of the first logged answer. *)
Theorem enumerate_hypotheses_unseen (fuel : nat) (d : Detective) (tape : list nat) :
  logUnseenAnswers d ≠ [] →
  ∃ e, fst (enumerate_hypotheses fuel (d, tape)) = Raise e.
Proof.
  intros Hlog.
  set (P := fun d0 : Detective => logUnseenAnswers d0 = logUnseenAnswers d).
  assert (∀ v d0, P d0 → P (set_hypotheses v d0)) as HP
    by (intros v d0 Hd; unfold P in *; rewrite <- Hd; by destruct d0).
  unfold enumerate_hypotheses.
  erewrite bind_Ok; [|reflexivity]. erewrite bind_Ok; [|reflexivity]. cbn [fst snd].
  set (d1 := set_hypotheses _ d).
  assert (length (hypotheses d1) = 1 ∧ P d1) as Hd1.
  { split; [by destruct d|]. by apply HP. }
  destruct (foldM deal_known ∅ (elements game.ALLOWEDCARDS) (d1, tape))
    as [[dealt|e|] [d2 tape2]] eqn:Hstep1.
  2:{ erewrite bind_Raise; [|exact Hstep1]. by exists e. }
  2:{ exfalso. apply (deal_known_all_fuelless (elements game.ALLOWEDCARDS) ∅ (d1, tape)).
      by rewrite Hstep1. }
  erewrite bind_Ok; [|exact Hstep1].
  assert (length (hypotheses d2) = 1 ∧ P d2) as [Hlen Hlog2].
  { apply (partial_foldM deal_known (elements game.ALLOWEDCARDS)
             (fun _ d0 => length (hypotheses d0) = 1 ∧ P d0) ∅
             (fun b x _ => deal_known_one P b x HP) (d1, tape) dealt (d2, tape2) Hd1 Hstep1). }
  do 2 (erewrite bind_Ok; [|reflexivity]). cbn [fst].
  unfold P in Hlog2. rewrite Hlog2.
  destruct (logUnseenAnswers d) as [|constraint rest]; [done|].
  destruct (hypotheses d2) as [|h [|? ?]]; [done| |done].
  exists AttributeError. reflexivity.
Qed.

(** The two-player game of the test suite, once player 1 has answered a
    suggestion without the Detective seeing the card. *)
Lemma enumerate_hypotheses_unseen_witness :
  ∃ e, fst (enumerate_hypotheses 30 (fst (snd example.after_unseen_run), [])) = Raise e.
Proof.
  apply enumerate_hypotheses_unseen.
  intros Hlog. apply (f_equal length) in Hlog. vm_compute in Hlog. discriminate Hlog.
Defined.


(* ################################################################# *)
(** * Detective.rebuildhypotheses: what it leaves alone *)

Section preserving.
Context {A B : Type} (P : Detective → Prop).

Lemma preserves_ret (a : A) : preserves P (ret a).
Proof. by apply partial_ret. Qed.

Lemma preserves_raise (e : exn) : preserves P (raise e : M World A).
Proof. apply partial_raise. Qed.

Lemma preserves_stuck : preserves P (fun w => (OutOfFuel, w) : result A * World).
Proof. by intros w a w' Hw. Qed.

Lemma preserves_bind (m : M World A) (k : A → M World B) :
  preserves P m → (∀ a, preserves P (k a)) → preserves P (bind m k).
Proof. intros Hm Hk. eapply partial_bind; [exact Hm|exact Hk]. Qed.

Lemma preserves_get (f : Detective → A) : preserves P (get f).
Proof. intros w a w' Hw [= <- <-]. done. Qed.

Lemma preserves_put (setter : A → Detective → Detective) (v : A) :
  (∀ d, P d → P (setter v d)) → preserves P (put setter v).
Proof. intros HP. by apply partial_put. Qed.

Lemma preserves_orraise (e : exn) (o : option A) : preserves P (orraise e o).
Proof. intros w a w' Hw. destruct o; [|done]. by intros [= <- <-]. Qed.

Lemma preserves_lift (r : result A) : preserves P (lift r).
Proof. by intros w a w' Hw [= -> <-]. Qed.

Lemma preserves_catch (m : M World A) :
  keeps_detective m → preserves P (catch_ValueError m).
Proof.
  intros Hm w a w' Hw. unfold catch_ValueError.
  specialize (Hm w). destruct (m w) as [[x|e|] w1]; [|destruct e|]; try done.
  all: intros [= <- <-]; cbn in Hm; by rewrite Hm.
Qed.

End preserving.

Lemma preserves_draw (P : Detective → Prop) : preserves P draw.
Proof. by intros w a w' Hw [= <- <-]. Qed.

Lemma preserves_foldM {A B} (P : Detective → Prop) (f : B → A → M World B)
    (xs : list A) (b : B) :
  (∀ b x, preserves P (f b x)) → preserves P (foldM f b xs).
Proof. intros Hf. apply (partial_foldM f xs (fun _ => P) b). intros b' x _. apply Hf. Qed.

Lemma preserves_forM {A} (P : Detective → Prop) (xs : list A) (body : A → M World unit) :
  (∀ x, preserves P (body x)) → preserves P (forM_ xs body).
Proof. intros Hbody. apply partial_forM. intros x _. apply Hbody. Qed.

(** The fields of the pool are the only ones assigned. *)
Ltac pool_field :=
  let d := fresh "d" in intros d <-; by destruct d.

Ltac head_of m := lazymatch m with ?f _ => head_of f | _ => m end.

Create HintDb frames.

Ltac frame_step :=
  cbv beta zeta;
  lazymatch goal with
  | |- preserves _ (ret _) => apply preserves_ret
  | |- preserves _ (raise _) => apply preserves_raise
  | |- preserves _ (bind _ _) => apply preserves_bind; [|intros ?]
  | |- preserves _ (get _) => apply preserves_get
  | |- preserves _ (put _ _) => apply preserves_put; pool_field
  | |- preserves _ (orraise _ _) => apply preserves_orraise
  | |- preserves _ (lift _) => apply preserves_lift
  | |- preserves _ draw => apply preserves_draw
  | |- preserves _ (foldM _ _ _) => apply preserves_foldM; intros ? ?
  | |- preserves _ (forM_ _ _) => apply preserves_forM; intros ?
  | |- preserves _ (catch_ValueError _) => apply preserves_catch; apply choose_murder_keeps
  | |- preserves _ (match ?x with _ => _ end) => destruct x
  | |- preserves _ (fun w => (OutOfFuel, w)) => apply preserves_stuck
  | |- preserves _ ?m =>
      first [ solve [auto with frames]
            | let h := head_of m in unfold h ]
  end.

Ltac frame := repeat frame_step.

(** The stochastic generator assigns nothing. *)
Lemma shuffle_from_preserves (P : Detective → Prop) (n : nat) (left : list nat) :
  preserves P (shuffle_from n left).
Proof.
  revert left. induction n as [|n IH]; intros left; cbn [shuffle_from].
  - destruct left; apply preserves_ret.
  - destruct left as [|x left]; [apply preserves_ret|].
    apply preserves_bind; [apply preserves_draw|]. intros r. cbv zeta.
    apply preserves_bind; [apply preserves_orraise|]. intros card.
    apply preserves_bind; [apply IH|]. intros rest. apply preserves_ret.
Qed.
#[local] Hint Resolve shuffle_from_preserves : frames.

Lemma generation_attempt_preserves (P : Detective → Prop) :
  preserves P generation_attempt.
Proof. unfold generation_attempt. frame. Qed.
#[local] Hint Resolve generation_attempt_preserves : frames.

Lemma genfeasiblehypothesis_preserves (P : Detective → Prop) (fuel : nat) :
  preserves P (genfeasiblehypothesis fuel).
Proof.
  unfold genfeasiblehypothesis. generalize 0.
  induction fuel as [|fuel IH]; intros attempts; cbn [genfeasiblehypothesis_from].
  - apply preserves_stuck.
  - apply preserves_bind; [apply generation_attempt_preserves|].
    intros [[h dealt]|]; [|apply IH]. destruct (bool_decide _); frame.
Qed.
#[local] Hint Resolve genfeasiblehypothesis_preserves : frames.

Section pool.
Variable v : Detective.

Let P : Detective → Prop := fun d => forget_pool d = v.

Lemma count_hypothesis_pool (h : hypothesis) (k : Z) : preserves P (count_hypothesis h k).
Proof. unfold P. frame. Qed.

Lemma updatestats_pool : preserves P updatestats.
Proof. unfold P. frame. Qed.

Lemma estimate_hypotheses_pool : preserves P estimate_hypotheses.
Proof. unfold P. frame. Qed.

Lemma resample_hypotheses_pool (fuel : nat) : preserves P (resample_hypotheses fuel).
Proof. unfold P. frame. Qed.

Lemma deal_remaining_pool (fuel complete : nat) (items : working) :
  preserves P (deal_remaining fuel complete items).
Proof.
  revert complete items. induction fuel as [|fuel IH]; intros complete items;
    cbn [deal_remaining]; destruct (_ <? _); try apply preserves_ret.
  - apply preserves_stuck.
  - apply preserves_bind; [unfold P; frame|]. intros r.
    apply preserves_bind; [unfold P; frame|]. intros []. apply IH.
Qed.

Lemma enumerate_hypotheses_pool (fuel : nat) : preserves P (enumerate_hypotheses fuel).
Proof.
  pose proof deal_remaining_pool as Hloop.
  unfold enumerate_hypotheses.
  repeat first [ apply Hloop | unfold P; frame_step ].
Qed.

(** The rebuild of the pool, in either mode, and the statistics after it
    assign the pool, its mode, the four count arrays, the probabilities
    and the entropy, and nothing else. *)
Lemma rebuildhypotheses_pool (fuel : nat) :
  preserves P (bind (rebuildhypotheses fuel) (fun _ => updatestats)).
Proof.
  pose proof enumerate_hypotheses_pool as Henumerate.
  pose proof resample_hypotheses_pool as Hresample.
  pose proof updatestats_pool as Hstats.
  pose proof estimate_hypotheses_pool as Hestimate.
  apply preserves_bind; [|intros []; apply Hstats].
  unfold rebuildhypotheses.
  repeat first [ apply Henumerate | apply Hresample | apply Hstats | apply Hestimate
               | unfold P; frame_step ].
Qed.

End pool.

(** X9. Whenever [rebuildhypotheses] returns, in either mode, it has
    assigned nothing but the pool of hypotheses, its mode, the four count
    arrays, the probabilities and the entropy: every other field of the
    Detective (its cards, the constraints, the logs, the turn) is as it
    was before the call. *)
Theorem rebuildhypotheses_assigns_pool (fuel : nat) (w w' : World) :
  rebuildhypotheses fuel w = (Ok tt, w') →
  forget_pool (fst w') = forget_pool (fst w).
Proof.
  intros Hrun.
  assert (preserves (fun d => forget_pool d = forget_pool (fst w))
            (rebuildhypotheses fuel)) as Hkept.
  { pose proof (enumerate_hypotheses_pool (forget_pool (fst w))) as Henumerate.
    pose proof (resample_hypotheses_pool (forget_pool (fst w))) as Hresample.
    pose proof (updatestats_pool (forget_pool (fst w))) as Hstats.
    pose proof (estimate_hypotheses_pool (forget_pool (fst w))) as Hestimate.
    unfold rebuildhypotheses.
    repeat first [ apply Henumerate | apply Hresample | apply Hstats | apply Hestimate
                 | frame_step ]. }
  exact (Hkept w tt w' eq_refl Hrun).
Qed.

(** The game of four players, in stochastic mode, after a card has been
    shown to the Detective. *)
Lemma rebuildhypotheses_assigns_pool_witness :
  ∃ w', rebuildhypotheses 30 (snd stochastic.shown_run) = (Ok tt, w') ∧
        forget_pool (fst w') = forget_pool (fst (snd stochastic.shown_run)).
Proof.
  destruct (rebuildhypotheses 30 (snd stochastic.shown_run)) as [[[]|e|] w'] eqn:Hrun.
  - exists w'. split; [done|]. by apply (rebuildhypotheses_assigns_pool 30 _ _ Hrun).
  - apply (f_equal fst) in Hrun. vm_compute in Hrun. discriminate Hrun.
  - apply (f_equal fst) in Hrun. vm_compute in Hrun. discriminate Hrun.
Defined.

(** X10. Whenever [genfeasiblehypothesis] returns a hypothesis, it has
    assigned no field of the Detective; only the random state has moved. *)
Theorem genfeasiblehypothesis_assigns_nothing (fuel : nat) (w w' : World)
    (r : hypothesis * nat) :
  genfeasiblehypothesis fuel w = (Ok r, w') → fst w' = fst w.
Proof.
  intros Hrun.
  exact (genfeasiblehypothesis_preserves (fun d => d = fst w) fuel w r w' eq_refl Hrun).
Qed.

Lemma genfeasiblehypothesis_assigns_nothing_witness :
  ∃ r w', genfeasiblehypothesis 30 (snd stochastic.shown_run) = (Ok r, w') ∧
          fst w' = fst (snd stochastic.shown_run).
Proof.
  destruct (genfeasiblehypothesis 30 (snd stochastic.shown_run)) as [[r|e|] w'] eqn:Hrun.
  - exists r, w'. split; [done|].
    by apply (genfeasiblehypothesis_assigns_nothing 30 _ _ _ Hrun).
  - apply (f_equal fst) in Hrun. vm_compute in Hrun. discriminate Hrun.
  - apply (f_equal fst) in Hrun. vm_compute in Hrun. discriminate Hrun.
Defined.


(* ################################################################# *)
(** * Detective.answersuggestion, in either mode *)

Lemma bind_ext_returns {S A B} (m : M S A) (k k' : A → M S B) (s : S) :
  (∀ a s', m s = (Ok a, s') → k a s' = k' a s') → bind m k s = bind m k' s.
Proof. intros Hk. unfold bind. destruct (m s) as [[a|e|] s']; [by apply Hk|done..]. Qed.

(** What the rebuild of the pool keeps of the Detective's cards and logs. *)
Lemma rebuildhypotheses_keeps_logs (fuel : nat) (w1 w' : World) :
  bind (rebuildhypotheses fuel) (fun _ => updatestats) w1 = (Ok tt, w') →
  myCards (fst w') = myCards (fst w1) ∧
  logSeenAnswers (fst w') = logSeenAnswers (fst w1) ∧
  logPasses (fst w') = logPasses (fst w1).
Proof.
  intros Hrun.
  pose proof (rebuildhypotheses_pool (forget_pool (fst w1)) fuel w1 tt w' eq_refl Hrun)
    as Hsame.
  split_and!.
  - apply (f_equal myCards) in Hsame. by destruct (fst w'), (fst w1).
  - apply (f_equal logSeenAnswers) in Hsame. by destruct (fst w'), (fst w1).
  - apply (f_equal logPasses) in Hsame. by destruct (fst w'), (fst w1).
Qed.

(** In exact mode the pool is left as it is. *)
Lemma rebuildhypotheses_enumerated (fuel : nat) (w1 : World) :
  areHypothesesEnumerable (fst w1) = true →
  ∃ w', bind (rebuildhypotheses fuel) (fun _ => updatestats) w1 = (Ok tt, w').
Proof.
  intros Hmode. destruct w1 as [d1 tape]. cbn [fst] in Hmode.
  unfold rebuildhypotheses, updatestats.
  erewrite bind_Ok; [by eexists|].
  erewrite bind_Ok; [|reflexivity]. cbn [fst]. by rewrite Hmode.
Qed.

(** ** The estimate of the number of deals *)

Section viewing.
Context {A B : Type}.

Lemma views_ret (a : A) : views (ret a : M World A).
Proof. by intros w w' Hw. Qed.

Lemma views_raise (e : exn) : views (raise e : M World A).
Proof. by intros w w' Hw. Qed.

Lemma views_orraise (e : exn) (o : option A) : views (orraise e o : M World A).
Proof. intros w w' Hw. by destruct o. Qed.

Lemma views_lift (r : result A) : views (lift r).
Proof. by intros w w' Hw. Qed.

Lemma views_get (f : Detective → A) :
  (∀ d d', alike d d' → f d = f d') → views (get f).
Proof.
  intros Hf [d t] [d' t'] Hw. cbn in *. split_and!; [|done..]. f_equal. by apply Hf.
Qed.

Lemma views_bind (m : M World A) (k : A → M World B) :
  views m → (∀ a, views (k a)) → views (bind m k).
Proof.
  intros Hm Hk w w' Hw. destruct (Hm w w' Hw) as (Hout & Hs & Hs').
  unfold bind. destruct (m w) as [r s], (m w') as [r' s']. cbn in Hout, Hs, Hs'.
  subst r' s s'. destruct r as [a|e|]; [by apply Hk|done..].
Qed.

End viewing.

Lemma views_foldM {A B} (f : B → A → M World B) (xs : list A) (b : B) :
  (∀ b x, views (f b x)) → views (foldM f b xs).
Proof.
  intros Hf. revert b. induction xs as [|x xs IH]; intros b; cbn [foldM].
  - apply views_ret.
  - apply views_bind; [apply Hf|]. intros b'. apply IH.
Qed.

Ltac view_step :=
  cbv beta zeta;
  lazymatch goal with
  | |- views (ret _) => apply views_ret
  | |- views (raise _) => apply views_raise
  | |- views (bind _ _) => apply views_bind; [|intros ?]
  | |- views (get _) => apply views_get; by intros ? ? (? & ? & ? & ?)
  | |- views (orraise _ _) => apply views_orraise
  | |- views (lift _) => apply views_lift
  | |- views (foldM _ _ _) => apply views_foldM; intros ? ?
  | |- views (match ?x with _ => _ end) => destruct x
  | |- views ?m => let h := head_of m in unfold h
  end.

(** The estimate reads the number of players, the hand sizes, the dealer
    and the forbidden matrix. *)
Lemma estimate_hypotheses_views : views estimate_hypotheses.
Proof. repeat view_step. Qed.

(** In stochastic mode a full pool is left as it is when the estimate is
    not under the threshold. *)
Lemma rebuildhypotheses_sampled (fuel : nat) (d : Detective) (w1 : World) (e : Z) :
  areHypothesesEnumerable (fst w1) = false →
  alike d (fst w1) →
  fst (estimate_hypotheses (d, snd w1)) = Ok e →
  (THRESHAPPROXHYPCOUNT (fst w1) <= e)%Z →
  Z.of_nat (length (hypotheses (fst w1))) = HYPSAMPLECOUNT (fst w1) →
  ∃ w', bind (rebuildhypotheses fuel) (fun _ => updatestats) w1 = (Ok tt, w').
Proof.
  intros Hmode Hlike Hestimate Hthresh Hfull. destruct w1 as [d1 tape].
  cbn [fst snd] in *.
  destruct (estimate_hypotheses_views (d, tape) (d1, tape) Hlike) as (Hout & _ & Hs).
  rewrite Hestimate in Hout.
  assert (estimate_hypotheses (d1, tape) = (Ok e, (d1, tape))) as Hrun.
  { destruct (estimate_hypotheses (d1, tape)) as [r s]. cbn in Hout, Hs. by subst. }
  unfold rebuildhypotheses, updatestats.
  erewrite bind_Ok; [by eexists|].
  erewrite bind_Ok; [|reflexivity]. cbn [fst]. rewrite Hmode.
  erewrite bind_Ok; [|exact Hrun]. erewrite bind_Ok; [|reflexivity]. cbn [fst].
  destruct (Z.ltb_spec e (THRESHAPPROXHYPCOUNT d1)) as [|_]; [lia|].
  erewrite bind_Ok; [reflexivity|].
  unfold resample_hypotheses. do 2 (erewrite bind_Ok; [|reflexivity]). cbn [fst].
  rewrite <- Hfull, Z.sub_diag. reflexivity.
Qed.

(** C10. A Detective asked by another player about a character, a room
    and a weapon chooses its answer [card]: one of the three cards that it
    holds, or [game.NULLCARD] when (and only when) it holds none. It logs
    the card as shown by itself (player 0) to the suggester, or its pass
    on the three cards, brings the constraints up to date, which never
    fails, and goes on to rebuild the pool of hypotheses, in the state
    [w1]; the outcome of [answersuggestion] is the outcome of that rebuild,
    with [card] for a value. So, in either mode, whenever
    [answersuggestion] returns, it returns [card] and the log holds the
    new event; in exact mode, where the rebuild has nothing to do, it
    returns; and in stochastic mode it returns when the answer tells the
    constraints nothing new (as they know the Detective's own hand), the
    pool is full and the estimate of the number of deals is not under the
    threshold, so that the rebuild has nothing to do either. *)
Theorem answersuggestion_answers (fuel character room weapon suggester : nat)
    (d : Detective) (tape : list nat) :
  answerable suggester d →
  character ∈ game.ALLOWEDCHARS → room ∈ game.ALLOWEDROOMS →
  weapon ∈ game.ALLOWEDWEAPS →
  let showable : gset nat := myCardSet d ∩ {[ character; room; weapon ]} in
  let noted (card : nat) (d' : Detective) : Prop :=
    (showable ≠ ∅ →
       logSeenAnswers d'
         = logSeenAnswers d ++ [mkEventSeenAnswer (ixTurn d) 0 suggester card] ∧
       logPasses d' = logPasses d) ∧
    (showable = ∅ →
       logPasses d'
         = logPasses d ++ [mkEventPass (ixTurn d) 0 character room weapon] ∧
       logSeenAnswers d' = logSeenAnswers d) in
  ∃ card w1,
    (showable ≠ ∅ → card ∈ showable) ∧
    (card = game.NULLCARD ↔ showable = ∅) ∧
    noted card (fst w1) ∧
    snd w1 = tape ∧
    areHypothesesEnumerable (fst w1) = areHypothesesEnumerable d ∧
    answersuggestion fuel character room weapon suggester (d, tape)
      = bind (bind (rebuildhypotheses fuel) (fun _ => updatestats))
             (fun _ => ret card) w1 ∧
    (∀ card' w',
       answersuggestion fuel character room weapon suggester (d, tape) = (Ok card', w') →
       card' = card ∧ noted card (fst w')) ∧
    (areHypothesesEnumerable d = true →
       ∃ w', answersuggestion fuel character room weapon suggester (d, tape)
             = (Ok card, w')) ∧
    (areHypothesesEnumerable d = false →
     settled d character room weapon →
     Z.of_nat (length (hypotheses d)) = HYPSAMPLECOUNT d →
     (∃ e, fst (estimate_hypotheses (d, tape)) = Ok e ∧
           (THRESHAPPROXHYPCOUNT d <= e)%Z) →
       ∃ w', answersuggestion fuel character room weapon suggester (d, tape)
             = (Ok card, w')).
Proof.
  intros (Hmine & Hshown & Hflags & Hcounts & Hrows & Hcols & Hsets & Hhands & Hs)
         Hc Hr Hwp showable noted.
  (* the choice, the log and the constraints *)
  assert (∃ card w1,
            (showable ≠ ∅ → card ∈ showable) ∧
            (card = game.NULLCARD ↔ showable = ∅) ∧
            noted card (fst w1) ∧
            answersuggestion fuel character room weapon suggester (d, tape)
              = bind (bind (rebuildhypotheses fuel) (fun _ => updatestats))
                     (fun _ => ret card) w1 ∧
            ∃ seen passes,
              stable (nPlayers d) (areHypothesesEnumerable d) tape (myCards d)
                (myCardSet d) seen passes (settled d character room weapon) d w1)
    as (card & w1 & Hin & Hnull & Hnoted & Hrun & seen & passes & Hw1).
  { destruct families_allowed as (Hchars & Hrooms & Hweaps).
    assert (stable (nPlayers d) (areHypothesesEnumerable d) tape (myCards d) (myCardSet d)
              (logSeenAnswers d) (logPasses d) (settled d character room weapon) d
              (d, tape)) as Hw by (by constructor).
    assert (∀ card, card ∈ showable → card < game.NCARDS) as Hbound.
    { intros card [_ Hin]%elem_of_intersection. apply ALLOWEDCARDS_bound.
      apply elem_of_union in Hin as [Hin|Hin]; [apply elem_of_union in Hin as [Hin|Hin]|];
        apply elem_of_singleton in Hin as ->; auto. }
    unfold answersuggestion. do 3 (erewrite bind_Ok; [|reflexivity]).
    cbn [fst]. cbn zeta. fold showable.
    destruct (showable_indices (myCards d) (elements showable) (d, tape)) with (acc := @nil nat)
      as (ixs & Hixs & Hlen & Hall).
    { intros card [Hin _]%elem_of_elements%elem_of_intersection.
      rewrite <- Hmine in Hin. by apply elem_of_list_to_set in Hin. }
    erewrite bind_Ok; [|exact Hixs]. cbn [app].
    assert (Forall (fun ix => ∃ card, myCards d !! ix = Some card ∧
                      card ∈ myCardSet d ∧ card < game.NCARDS ∧
                      (settled d character room weapon → knows_own d card)) ixs)
      as Hcand.
    { eapply Forall_impl; [exact Hall|]. intros ix (card & Hix & Hin%elem_of_elements).
      exists card. split_and!; [done| |by apply Hbound|].
      - by apply elem_of_intersection in Hin as [? _].
      - intros [Hown _]. by apply Hown. }
    destruct (shown_indices (myCardsShownTo d) suggester (length (myCards d)) ixs (d, tape))
      with (acc := @nil nat) as (shown & Hrun & Hsub); [lia|done| |].
    { eapply Forall_impl; [exact Hall|]. intros ix (card & Hix & _).
      by apply lookup_lt_Some in Hix. }
    erewrite bind_Ok; [|exact Hrun]. cbn [app].
    destruct (decide (showable = ∅)) as [Hnone|Hsome].
    - (* the Detective passes *)
      assert (ixs = []) as ->.
      { apply length_zero_iff_nil. rewrite Hlen, Hnone. by rewrite elements_empty. }
      cbn [length Nat.eqb negb].
      destruct (event_pass_noted fuel character room weapon (nPlayers d)
                  (areHypothesesEnumerable d) (myCards d) (myCardSet d)
                  (logSeenAnswers d) (logPasses d) (settled d character room weapon)
                  d d tape Hc Hr Hwp Hnone eq_refl) as (w1 & Hpass & Hw1); [|exact Hw|].
      { intros [_ Habsent]. by apply Habsent. }
      exists game.NULLCARD, w1. split_and!; [done|done| |by apply bind_into|by eexists _, _].
      split; [done|]. intros _. split; apply Hw1.
    - (* the Detective shows a card *)
      assert (ixs ≠ []) as Hixs_ne.
      { intros ->. apply Hsome. apply leibniz_equiv, elements_empty_iff.
        by apply length_zero_iff_nil. }
      destruct (length ixs =? 0) eqn:Hzero;
        [apply Nat.eqb_eq, length_zero_iff_nil in Hzero; done|]. cbn [negb].
      assert (∃ candidates mark,
                (if negb (length shown =? 0)
                 then show_card fuel shown false suggester
                 else show_card fuel ixs true suggester)
                = show_card fuel candidates mark suggester ∧
                candidates ≠ [] ∧ ∀ ix, ix ∈ candidates → ix ∈ ixs)
        as (candidates & mark & -> & Hne & Hcs).
      { destruct shown as [|ix shown']; [by exists ixs, true|].
        by exists (ix :: shown'), false. }
      destruct (show_card_shows fuel candidates mark suggester (nPlayers d)
                  (areHypothesesEnumerable d) (myCardSet d)
                  (logSeenAnswers d) (logPasses d) (settled d character room weapon)
                  d tape Hne)
        as (card & ix & w1 & Hshow & Hix & Hcard & Hw1); [|done|done|lia|done|done|].
      { apply Forall_forall. intros ix Hix.
        by apply (proj1 (Forall_forall _ _) Hcand), Hcs. }
      assert (card ∈ showable) as Hin.
      { destruct (proj1 (Forall_forall _ _) Hall ix (Hcs ix Hix)) as (card' & Hix' & Hin).
        apply elem_of_elements in Hin. congruence. }
      exists card, w1. split_and!; [done| | | |by eexists _, _].
      + split; [|done]. intros ->. apply Hbound in Hin.
        unfold game.NULLCARD, game.NCARDS in Hin. vm_compute in Hin. lia.
      + split; [|done]. intros _. split; apply Hw1.
      + rewrite Hshow. apply bind_ext_returns. intros [] w' Hrebuilt.
        apply rebuildhypotheses_keeps_logs in Hrebuilt as (Hcards & _ & _).
        erewrite bind_Ok; [|reflexivity]. cbn [fst].
        by rewrite Hcards, (stable_myCards _ _ _ _ _ _ _ _ _ _ Hw1), Hcard. }
  pose proof (stable_tape _ _ _ _ _ _ _ _ _ _ Hw1) as Htape.
  pose proof (stable_enumerable _ _ _ _ _ _ _ _ _ _ Hw1) as Hmode.
  exists card, w1. split_and!; [done..| | |].
  - (* whenever it returns *)
    intros card' w'. rewrite Hrun. intros ([] & w2 & Hrebuilt & [= <- <-])%bind_returns.
    split; [done|].
    apply rebuildhypotheses_keeps_logs in Hrebuilt as (_ & Hseen & Hpasses).
    destruct Hnoted as [Hshow Hpass].
    split; intros Hcase; rewrite Hseen, Hpasses; auto.
  - (* exact mode *)
    intros Henumerated. rewrite <- Hmode in Henumerated.
    destruct (rebuildhypotheses_enumerated fuel w1 Henumerated) as [w' Hrebuilt].
    exists w'. rewrite Hrun. by erewrite bind_Ok.
  - (* stochastic mode, nothing new *)
    intros Hsampled Hsettled Hfull (e & Hestimate & Hthresh).
    destruct Hw1 as [Hn _ _ _ _ _ _ _ _ _ Hpool (Hheld & Hdealer & Htarget & Hlimit) Hcon].
    destruct (Hcon Hsettled) as [Hforbidden _].
    destruct (rebuildhypotheses_sampled fuel d w1 e) as [w' Hrebuilt].
    + congruence.
    + by split_and!.
    + by rewrite Htape.
    + by rewrite Hlimit.
    + by rewrite Hpool, Htarget.
    + exists w'. rewrite Hrun. by erewrite bind_Ok.
Qed.

Lemma knows_ownb_spec (d : Detective) (card : nat) :
  knows_ownb d card = true → knows_own d card.
Proof.
  unfold knows_ownb. rewrite forallb_forall. intros Hall p Hp.
  assert (In p (seq 0 (nPlayers d + 1))) as Hin by (apply in_seq; lia).
  apply Hall, andb_prop in Hin as [Hmatrix Hset].
  apply bool_decide_eq_true in Hmatrix. split; [done|].
  destruct (forbiddenSets d !! p) as [s|]; [|done].
  apply bool_decide_eq_true in Hset. by exists s.
Qed.

(** A game of four players, which is in stochastic mode, after player 2
    has shown the Detective the card 10: asked by player 1 about character
    0, room 6 and weapon 17, the Detective shows the room. The constraints
    know the Detective's hand, the pool is full and the estimate of the
    number of deals is above the threshold. *)
Lemma answersuggestion_answers_witness :
  let d := stochastic.shown in
  let tape := snd (snd stochastic.shown_run) in
  let showable : gset nat := myCardSet d ∩ {[ 0; 6; 17 ]} in
  let noted (card : nat) (d' : Detective) : Prop :=
    (showable ≠ ∅ →
       logSeenAnswers d' = logSeenAnswers d ++ [mkEventSeenAnswer (ixTurn d) 0 1 card] ∧
       logPasses d' = logPasses d) ∧
    (showable = ∅ →
       logPasses d' = logPasses d ++ [mkEventPass (ixTurn d) 0 0 6 17] ∧
       logSeenAnswers d' = logSeenAnswers d) in
  areHypothesesEnumerable d = false ∧
  settled d 0 6 17 ∧
  Z.of_nat (length (hypotheses d)) = HYPSAMPLECOUNT d ∧
  (∃ e, fst (estimate_hypotheses (d, tape)) = Ok e ∧ (THRESHAPPROXHYPCOUNT d <= e)%Z) ∧
  fst (answersuggestion 30 0 6 17 1 (d, tape)) = Ok 6 ∧
  ∃ card w1,
    (showable ≠ ∅ → card ∈ showable) ∧
    (card = game.NULLCARD ↔ showable = ∅) ∧
    noted card (fst w1) ∧
    snd w1 = tape ∧
    areHypothesesEnumerable (fst w1) = areHypothesesEnumerable d ∧
    answersuggestion 30 0 6 17 1 (d, tape)
      = bind (bind (rebuildhypotheses 30) (fun _ => updatestats))
             (fun _ => ret card) w1 ∧
    (∀ card' w',
       answersuggestion 30 0 6 17 1 (d, tape) = (Ok card', w') →
       card' = card ∧ noted card (fst w')) ∧
    (areHypothesesEnumerable d = true →
       ∃ w', answersuggestion 30 0 6 17 1 (d, tape) = (Ok card, w')) ∧
    (areHypothesesEnumerable d = false →
     settled d 0 6 17 →
     Z.of_nat (length (hypotheses d)) = HYPSAMPLECOUNT d →
     (∃ e, fst (estimate_hypotheses (d, tape)) = Ok e ∧
           (THRESHAPPROXHYPCOUNT d <= e)%Z) →
       ∃ w', answersuggestion 30 0 6 17 1 (d, tape) = (Ok card, w')).
Proof.
  cbn zeta. split; [by vm_compute|]. split; [|split; [by vm_compute|split; [|split]]].
  - assert (17 ∉ myCardSet stochastic.shown) as Hweapon by computed.
    assert (0 ∈ myCardSet stochastic.shown) as Hcharacter by computed.
    split.
    + intros card [Hmine Hcard]%elem_of_intersection.
      apply elem_of_union in Hcard as [Hcard|Hcard];
        [apply elem_of_union in Hcard as [Hcard|Hcard]|];
        apply elem_of_singleton in Hcard as ->;
        [apply knows_ownb_spec; vm_compute; reflexivity..|exfalso; exact (Hweapon Hmine)].
    + intros Hnone. exfalso. apply (not_elem_of_empty (C := gset nat) 0).
      rewrite <- Hnone. apply elem_of_intersection. split; [done|].
      apply elem_of_union. left. apply elem_of_union. left. by apply elem_of_singleton.
  - exists 3326400%Z. split; [by vm_compute|]. by vm_compute.
  - by vm_compute.
  - apply (answersuggestion_answers 30 0 6 17 1 stochastic.shown
             (snd (snd stochastic.shown_run))).
    + unfold answerable. split_and!; try computed; vm_compute; lia.
    + computed.
    + computed.
    + computed.
Defined.

